(** * HeyHost: session orchestration, scoring and join codes

    A shallow embedding of the live-session core of the HeyHost trivia
    platform: the scoring function and join-code generator of [lib/],
    the relations, constraints, row-level policies, cascading foreign
    keys and score trigger of [supabase/schema.sql], and the event
    handlers of the player page, the host remote and the game page that
    write to them or delete from them.

    Conventions.
    - A JavaScript [number] is an IEEE 754 binary64 value, modelled by
      the Standard Library's [spec_float] at precision 53 and [emax]
      1024 (round to nearest, ties to even).
    - Instants ([Date.now()], [timestamptz], ISO strings written with
      [toISOString]) are integer milliseconds since the epoch, in [Z].
    - A uuid is an opaque identifier, a [nat]; the store hands out
      fresh ones from a counter.
    - A string is a sequence of bytes, an ASCII string being the
      sequence of its characters. The string methods of the language
      follow Unicode: they are parameters of the development, known on
      ASCII strings only.
    - Each handler runs against the store as one step: its awaits are
      not interleaved with other clients' writes. *)

From Stdlib Require Import ZArith List Bool Arith Lia FinFun.
From Stdlib Require Import Strings.String Strings.Ascii.
From Stdlib Require Import Numbers.DecimalString Numbers.DecimalNat.
From Stdlib Require Import Floats.SpecFloat.
Import ListNotations.

Local Open Scope string_scope.
Local Open Scope Z_scope.

(* ================================================================= *)
(** ** JavaScript numbers *)

Module JsNumber.

Definition prec : Z := 53.
Definition emax : Z := 1024.

Definition number : Type := spec_float.

(** The number denoted by an integer literal or an integer-valued
    expression. *)
Definition num (z : Z) : number := binary_normalize prec emax z 0 false.

Definition js_add : number -> number -> number := SFadd prec emax.
Definition js_sub : number -> number -> number := SFsub prec emax.
Definition js_mul : number -> number -> number := SFmul prec emax.
Definition js_div : number -> number -> number := SFdiv prec emax.

(** [Math.max(a, b)]: NaN is contagious and [+0] is larger than [-0]. *)
Definition Math_max (a b : number) : number :=
  match a, b with
  | S754_nan, _ | _, S754_nan => S754_nan
  | S754_zero sa, S754_zero sb => S754_zero (sa && sb)
  | _, _ => if SFltb a b then b else a
  end.

(** [Math.round(x)]: the integer nearest to [x], ties toward
    [+Infinity]; zeros, infinities and NaN are returned as they are and
    a result that rounds to zero keeps the sign of [x]. For a finite
    [x = (-1)^s * m * 2^e] with [e < 0] the result is
    [floor (x + 1/2)], computed exactly on integers. *)
Definition Math_round (x : number) : number :=
  match x with
  | S754_finite s m e =>
      if 0 <=? e then x
      else
        let sm := cond_Zopp s (Zpos m) in
        binary_normalize prec emax
          (Z.shiftr (2 * sm + Z.shiftl 1 (- e)) (1 - e)) 0 s
  | _ => x
  end.

(** [a < b] on numbers; false as soon as one side is NaN. *)
Definition js_lt (a b : number) : bool := SFltb a b.

(** The integer a number denotes, when it is finite and integral. *)
Definition to_integer (x : number) : option Z :=
  match x with
  | S754_zero _ => Some 0
  | S754_finite s m e =>
      if 0 <=? e then Some (cond_Zopp s (Z.shiftl (Zpos m) e))
      else if Z.land (Zpos m) (Z.ones (- e)) =? 0
           then Some (cond_Zopp s (Z.shiftr (Zpos m) (- e)))
           else None
  | _ => None
  end.

End JsNumber.

(* ================================================================= *)
(** ** JavaScript strings *)

Module JsString.

(** Every character is one of the 128 of ASCII. *)
Definition is_ascii (s : string) : bool :=
  forallb (fun c => (nat_of_ascii c <? 128)%nat) (list_ascii_of_string s).

Definition lower_ascii (c : ascii) : ascii :=
  let n := nat_of_ascii c in
  if ((65 <=? n) && (n <=? 90))%nat then ascii_of_nat (n + 32) else c.

Fixpoint ascii_toLowerCase (s : string) : string :=
  match s with
  | EmptyString => EmptyString
  | String c s' => String (lower_ascii c) (ascii_toLowerCase s')
  end.

Definition upper_ascii (c : ascii) : ascii :=
  let n := nat_of_ascii c in
  if ((97 <=? n) && (n <=? 122))%nat then ascii_of_nat (n - 32) else c.

Fixpoint ascii_toUpperCase (s : string) : string :=
  match s with
  | EmptyString => EmptyString
  | String c s' => String (upper_ascii c) (ascii_toUpperCase s')
  end.

(** Space, tab, line feed, vertical tab, form feed, carriage return:
    the white space and line terminators of the language that are
    ASCII. *)
Definition is_space (c : ascii) : bool :=
  let n := nat_of_ascii c in
  ((n =? 32) || ((9 <=? n) && (n <=? 13)))%nat.

Fixpoint ascii_trimStart (s : string) : string :=
  match s with
  | EmptyString => EmptyString
  | String c s' => if is_space c then ascii_trimStart s' else s
  end.

Fixpoint ascii_trimEnd (s : string) : string :=
  match s with
  | EmptyString => EmptyString
  | String c s' =>
      match ascii_trimEnd s' with
      | EmptyString => if is_space c then EmptyString else String c EmptyString
      | t => String c t
      end
  end.

Definition ascii_trim (s : string) : string :=
  ascii_trimEnd (ascii_trimStart s).

(** [String.prototype.toLowerCase], [toUpperCase], [trim] and the
    [length] property. On a string of ASCII characters they map the
    letters A to Z and a to z, strip the six characters above, and
    count the characters; on other strings they follow the Unicode
    tables, which are not modelled: nothing is assumed of them
    there. *)
Class Methods : Type := {
  toLowerCase : string -> string;
  toUpperCase : string -> string;
  trim : string -> string;
  length : string -> nat;
  toLowerCase_ascii :
    forall s, is_ascii s = true -> toLowerCase s = ascii_toLowerCase s;
  toUpperCase_ascii :
    forall s, is_ascii s = true -> toUpperCase s = ascii_toUpperCase s;
  trim_ascii :
    forall s, is_ascii s = true -> trim s = ascii_trim s;
  length_ascii :
    forall s, is_ascii s = true -> length s = String.length s
}.

(** The methods of an environment whose strings are all ASCII. *)
Definition ascii_methods : Methods := {|
  toLowerCase := ascii_toLowerCase;
  toUpperCase := ascii_toUpperCase;
  trim := ascii_trim;
  length := String.length;
  toLowerCase_ascii := fun _ _ => eq_refl;
  toUpperCase_ascii := fun _ _ => eq_refl;
  trim_ascii := fun _ _ => eq_refl;
  length_ascii := fun _ _ => eq_refl
|}.

(** [names.includes(x)] on an array of strings. *)
Definition includes (names : list string) (x : string) : bool :=
  existsb (String.eqb x) names.

(** The decimal numeral a counter prints as inside a template
    literal. *)
Definition of_nat (n : nat) : string :=
  NilEmpty.string_of_uint (Nat.to_uint n).

End JsString.

(* ================================================================= *)
(** ** lib/types.ts: the rows of the live-session relations *)

Definition uuid : Type := nat.
Definition timestamp : Type := Z.
Bind Scope nat_scope with uuid.
Bind Scope Z_scope with timestamp.

Inductive SessionStatus : Type := lobby | playing | finished.

Definition SessionStatus_eqb (a b : SessionStatus) : bool :=
  match a, b with
  | lobby, lobby | playing, playing | finished, finished => true
  | _, _ => false
  end.

Module Session.
Record t : Type := mk {
  id : uuid;
  game_id : uuid;
  host_id : uuid;
  code : string;
  status : SessionStatus;
  current_question_index : Z;
  timer_seconds : Z;
  speed_bonus : bool;
  created_at : timestamp;
  ended_at : option timestamp
}.
End Session.

Module SessionPlayer.
Record t : Type := mk {
  id : uuid;
  session_id : uuid;
  display_name : string;
  avatar_color : string;
  score : Z;
  is_removed : bool;
  joined_at : timestamp
}.
End SessionPlayer.

Module SessionQuestionState.
Record t : Type := mk {
  id : uuid;
  session_id : uuid;
  question_index : Z;
  question_id : uuid;
  started_at : option timestamp;
  ends_at : option timestamp;
  is_paused : bool;
  paused_remaining_ms : option Z;
  is_locked : bool;
  show_results : bool;
  show_leaderboard : bool
}.
End SessionQuestionState.

Module SessionAnswer.
Record t : Type := mk {
  id : uuid;
  session_id : uuid;
  player_id : uuid;
  question_id : uuid;
  choice_id : uuid;
  answered_at : timestamp;
  is_correct : bool;
  time_ms : Z;
  points_awarded : Z
}.
End SessionAnswer.

Module GameQuestionChoice.
Record t : Type := mk {
  id : uuid;
  question_id : uuid;
  is_correct : bool;
  choice_order : Z
}.
End GameQuestionChoice.

(** A question with its choices, as the player page loads it; prompt
    and choice texts play no part in the orchestration. *)
Module GameQuestionWithChoices.
Record t : Type := mk {
  id : uuid;
  game_id : uuid;
  question_order : Z;
  game_question_choices : list GameQuestionChoice.t
}.
End GameQuestionWithChoices.

Module Game.
Record t : Type := mk {
  id : uuid;
  host_id : uuid;
  timer_seconds : Z;
  speed_bonus : bool
}.
End Game.

(* ================================================================= *)
(** ** lib/scoring.ts *)

Module Scoring.
Import JsNumber.

Definition BASE_POINTS : number := num 1000.
Definition MAX_SPEED_BONUS : number := num 500.

Definition calculatePoints (isCorrect : bool) (timeMs timerSeconds : number)
    (speedBonusEnabled : bool) : number :=
  if negb isCorrect then num 0
  else
    let points := BASE_POINTS in
    let points :=
      if speedBonusEnabled then
        let totalMs := js_mul timerSeconds (num 1000) in
        let fraction :=
          Math_max (num 0) (js_sub (num 1) (js_div timeMs totalMs)) in
        js_add points (Math_round (js_mul MAX_SPEED_BONUS fraction))
      else points in
    points.

End Scoring.

(* ================================================================= *)
(** ** lib/game-code.ts *)

(** The source of randomness: [Math.random()] is read through
    [Math.floor(Math.random() * n)], an integer in [0, n). A tape lists
    the raw values of successive reads; a read reduces its raw value
    below the bound, so every tape is a possible run. *)
Module Rng.
Record t : Type := mk { tape : nat -> nat; cursor : nat }.

Definition randomIndex (n : nat) (g : t) : nat * t :=
  (Nat.modulo (tape g (cursor g)) n, mk (tape g) (S (cursor g))).
End Rng.

Module GameCode.

Definition CHARS : string := "ABCDEFGHJKLMNPQRSTUVWXYZ23456789".

(** [code += CHARS[i]]; an index past the end reads [undefined]. *)
Definition append_char (code : string) (i : nat) : string :=
  match String.get i CHARS with
  | Some c => code ++ String c EmptyString
  | None => code ++ "undefined"
  end.

Fixpoint generate_loop (n : nat) (code : string) (g : Rng.t) : string * Rng.t :=
  match n with
  | O => (code, g)
  | S n' =>
      let (i, g') := Rng.randomIndex (String.length CHARS) g in
      generate_loop n' (append_char code i) g'
  end.

Definition generateGameCode_len (len : nat) (g : Rng.t) : string * Rng.t :=
  generate_loop len EmptyString g.

(** [generateGameCode()] with the default length. *)
Definition generateGameCode (g : Rng.t) : string * Rng.t :=
  generateGameCode_len 6 g.

End GameCode.

(* ================================================================= *)
(** ** supabase/schema.sql: the store *)

Module Pg.
Import JsNumber.

Inductive pg_error : Type :=
  | rls_violation
  | unique_violation
  | foreign_key_violation
  | invalid_value.

Inductive result (A : Type) : Type :=
  | Ok (a : A)
  | Err (e : pg_error).
Arguments Ok {A} a.
Arguments Err {A} e.

Record Db : Type := mk {
  sessions : list Session.t;
  session_players : list SessionPlayer.t;
  session_question_state : list SessionQuestionState.t;
  session_answers : list SessionAnswer.t;
  next_uuid : uuid
}.

Definition empty : Db := mk [] [] [] [] O.

(** A column of type [int]. *)
Definition int4 (z : Z) : bool :=
  (-2147483648 <=? z) && (z <=? 2147483647).

(** A JSON number sent to an [int not null] column: NaN and the
    infinities serialise as [null], a fraction is not an integer. *)
Definition int4_of_number (x : number) : option Z :=
  match to_integer x with
  | Some z => if int4 z then Some z else None
  | None => None
  end.

(** [exists (select 1 from sessions where id = sid and p)], the shape
    of every row-level policy on the session relations. *)
Definition session_exists (db : Db) (sid : uuid) (p : Session.t -> bool) : bool :=
  existsb (fun s => (Session.id s =? sid)%nat && p s) (sessions db).

Definition owned_by (auth : option uuid) (s : Session.t) : bool :=
  match auth with
  | Some u => (Session.host_id s =? u)%nat
  | None => false
  end.

Definition is_active (s : Session.t) : bool :=
  negb (SessionStatus_eqb (Session.status s) finished).

(* ----------------------------------------------------------------- *)
(** *** sessions *)

(** [select id from sessions where code = c and status <> 'finished']. *)
Definition active_sessions_with_code (db : Db) (c : string) : list Session.t :=
  filter (fun s => String.eqb (Session.code s) c && is_active s) (sessions db).

(** [.maybeSingle()]: the row when exactly one matches; no data when
    none does, and no data (with an error) when several do. *)
Definition maybeSingle {A : Type} (rows : list A) : option A :=
  match rows with
  | [r] => Some r
  | _ => None
  end.

Fixpoint distinct (l : list string) : bool :=
  match l with
  | [] => true
  | x :: l' => negb (existsb (String.eqb x) l') && distinct l'
  end.

(** [sessions_active_code_idx]: unique on [code] where
    [status != 'finished']. *)
Definition sessions_active_code_idx (l : list Session.t) : bool :=
  distinct (map Session.code (filter is_active l)).

(** Insert under "Hosts can insert sessions" and the code index; the
    foreign keys to [games] and [profiles] are taken to hold. *)
Definition insert_session (auth : option uuid) (now : timestamp)
    (game_id host_id : uuid) (code : string) (status : SessionStatus)
    (current_question_index timer_seconds : Z) (speed_bonus : bool)
    (db : Db) : result (Session.t * Db) :=
  let row := Session.mk (next_uuid db) game_id host_id code status
               current_question_index timer_seconds speed_bonus now None in
  if negb (int4 current_question_index && int4 timer_seconds) then Err invalid_value
  else if negb (owned_by auth row) then Err rls_violation
  else if is_active row
          && existsb (fun s => String.eqb (Session.code s) code && is_active s)
               (sessions db)
  then Err unique_violation
  else Ok (row, mk (sessions db ++ [row])%list (session_players db)
                   (session_question_state db) (session_answers db)
                   (S (next_uuid db))).

Record SessionPatch : Type := mkSessionPatch {
  set_status : option SessionStatus;
  set_current_question_index : option Z;
  set_ended_at : option (option timestamp)
}.

Definition or_keep {A : Type} (new : option A) (old : A) : A :=
  match new with
  | Some v => v
  | None => old
  end.

Definition patch_session (p : SessionPatch) (s : Session.t) : Session.t :=
  Session.mk (Session.id s) (Session.game_id s) (Session.host_id s)
    (Session.code s)
    (or_keep (set_status p) (Session.status s))
    (or_keep (set_current_question_index p) (Session.current_question_index s))
    (Session.timer_seconds s) (Session.speed_bonus s) (Session.created_at s)
    (or_keep (set_ended_at p) (Session.ended_at s)).

(** Update [where id = sid] under "Hosts can update own sessions":
    rows the policy hides are left alone; the statement fails as a
    whole when the result breaks the code index. *)
Definition update_sessions (auth : option uuid) (sid : uuid) (p : SessionPatch)
    (db : Db) : result Db :=
  let rows :=
    map (fun s => if (Session.id s =? sid)%nat && owned_by auth s
                  then patch_session p s else s) (sessions db) in
  if negb (match set_current_question_index p with
           | Some i => int4 i
           | None => true
           end) then Err invalid_value
  else if negb (sessions_active_code_idx rows) then Err unique_violation
  else Ok (mk rows (session_players db) (session_question_state db)
              (session_answers db) (next_uuid db)).

(* ----------------------------------------------------------------- *)
(** *** session_players *)

(** Insert under "Anyone can join session": the session must be in the
    lobby. *)
Definition insert_session_player (now : timestamp) (session_id : uuid)
    (display_name avatar_color : string) (db : Db)
    : result (SessionPlayer.t * Db) :=
  let row := SessionPlayer.mk (next_uuid db) session_id display_name
               avatar_color 0 false now in
  if negb (session_exists db session_id
             (fun s => SessionStatus_eqb (Session.status s) lobby))
  then Err rls_violation
  else Ok (row, mk (sessions db) (session_players db ++ [row])%list
                   (session_question_state db) (session_answers db)
                   (S (next_uuid db))).

Definition set_is_removed (b : bool) (p : SessionPlayer.t) : SessionPlayer.t :=
  SessionPlayer.mk (SessionPlayer.id p) (SessionPlayer.session_id p)
    (SessionPlayer.display_name p) (SessionPlayer.avatar_color p)
    (SessionPlayer.score p) b (SessionPlayer.joined_at p).

(** Update [where id = pid] under "Hosts can update session players". *)
Definition update_session_player_removed (auth : option uuid) (pid : uuid)
    (b : bool) (db : Db) : result Db :=
  let rows :=
    map (fun p => if (SessionPlayer.id p =? pid)%nat
                     && session_exists db (SessionPlayer.session_id p) (owned_by auth)
                  then set_is_removed b p else p) (session_players db) in
  Ok (mk (sessions db) rows (session_question_state db)
         (session_answers db) (next_uuid db)).

(** [select * from session_players where session_id = sid and
    is_removed = false]. *)
Definition roster (db : Db) (sid : uuid) : list SessionPlayer.t :=
  filter (fun p => (SessionPlayer.session_id p =? sid)%nat
                   && negb (SessionPlayer.is_removed p))
    (session_players db).

(* ----------------------------------------------------------------- *)
(** *** session_question_state *)

Record QuestionStatePatch : Type := mkQuestionStatePatch {
  set_started_at : option (option timestamp);
  set_ends_at : option (option timestamp);
  set_is_paused : option bool;
  set_paused_remaining_ms : option (option Z);
  set_is_locked : option bool;
  set_show_results : option bool;
  set_show_leaderboard : option bool
}.

Definition patch_question_state (p : QuestionStatePatch)
    (q : SessionQuestionState.t) : SessionQuestionState.t :=
  SessionQuestionState.mk
    (SessionQuestionState.id q) (SessionQuestionState.session_id q)
    (SessionQuestionState.question_index q)
    (SessionQuestionState.question_id q)
    (or_keep (set_started_at p) (SessionQuestionState.started_at q))
    (or_keep (set_ends_at p) (SessionQuestionState.ends_at q))
    (or_keep (set_is_paused p) (SessionQuestionState.is_paused q))
    (or_keep (set_paused_remaining_ms p) (SessionQuestionState.paused_remaining_ms q))
    (or_keep (set_is_locked p) (SessionQuestionState.is_locked q))
    (or_keep (set_show_results p) (SessionQuestionState.show_results q))
    (or_keep (set_show_leaderboard p) (SessionQuestionState.show_leaderboard q)).

(** Insert under "Hosts can insert question state", with
    [unique(session_id, question_index)]; [paused_remaining_ms] and
    [show_leaderboard] take their defaults. *)
Definition insert_session_question_state (auth : option uuid)
    (session_id : uuid) (question_index : Z) (question_id : uuid)
    (started_at ends_at : option timestamp)
    (is_paused is_locked show_results : bool) (db : Db) : result Db :=
  let row := SessionQuestionState.mk (next_uuid db) session_id question_index
               question_id started_at ends_at is_paused None is_locked
               show_results false in
  if negb (int4 question_index) then Err invalid_value
  else if negb (session_exists db session_id (owned_by auth)) then Err rls_violation
  else if existsb (fun q => (SessionQuestionState.session_id q =? session_id)%nat
                            && (SessionQuestionState.question_index q =? question_index))
            (session_question_state db)
  then Err unique_violation
  else Ok (mk (sessions db) (session_players db)
              (session_question_state db ++ [row])%list (session_answers db)
              (S (next_uuid db))).

(** Update [where id = qid] under "Hosts can update question state". *)
Definition update_session_question_state (auth : option uuid) (qid : uuid)
    (p : QuestionStatePatch) (db : Db) : result Db :=
  let rows :=
    map (fun q => if (SessionQuestionState.id q =? qid)%nat
                     && session_exists db (SessionQuestionState.session_id q)
                          (owned_by auth)
                  then patch_question_state p q else q)
      (session_question_state db) in
  if negb (match set_paused_remaining_ms p with
           | Some (Some r) => int4 r
           | _ => true
           end) then Err invalid_value
  else Ok (mk (sessions db) (session_players db) rows (session_answers db)
              (next_uuid db)).

(* ----------------------------------------------------------------- *)
(** *** session_answers *)

Definition same_answer_key (session_id player_id question_id : uuid)
    (a : SessionAnswer.t) : bool :=
  ((SessionAnswer.session_id a =? session_id)
   && (SessionAnswer.player_id a =? player_id)
   && (SessionAnswer.question_id a =? question_id))%nat.

(** [coalesce(sum(points_awarded), 0)] over one player's answers in one
    session. *)
Definition sum_points (answers : list SessionAnswer.t)
    (player_id session_id : uuid) : Z :=
  fold_right Z.add 0
    (map SessionAnswer.points_awarded
       (filter (fun a => ((SessionAnswer.player_id a =? player_id)
                          && (SessionAnswer.session_id a =? session_id))%nat)
          answers)).

Definition set_score (v : Z) (p : SessionPlayer.t) : SessionPlayer.t :=
  SessionPlayer.mk (SessionPlayer.id p) (SessionPlayer.session_id p)
    (SessionPlayer.display_name p) (SessionPlayer.avatar_color p)
    v (SessionPlayer.is_removed p) (SessionPlayer.joined_at p).

(** [update_player_score()], the [after insert] trigger of
    [session_answers]: the score is recomputed from the answer log. *)
Definition update_player_score (new : SessionAnswer.t)
    (answers : list SessionAnswer.t) (players : list SessionPlayer.t)
    : list SessionPlayer.t :=
  let total := sum_points answers
                 (SessionAnswer.player_id new) (SessionAnswer.session_id new) in
  map (fun p => if (SessionPlayer.id p =? SessionAnswer.player_id new)%nat
                then set_score total p else p) players.

(** Insert under "Anyone can submit answers" (the session must be
    playing), with the foreign key to [session_players],
    [unique(session_id, player_id, question_id)] and the score trigger;
    a failure anywhere rolls the whole statement back. The foreign keys
    to the authoring relations (question, choice) are taken to hold:
    those relations are not part of the store modelled here. *)
Definition insert_session_answer (now : timestamp)
    (session_id player_id question_id choice_id : uuid) (is_correct : bool)
    (time_ms : Z) (points_awarded : number) (db : Db) : result Db :=
  match int4_of_number points_awarded with
  | None => Err invalid_value
  | Some pts =>
      let row := SessionAnswer.mk (next_uuid db) session_id player_id
                   question_id choice_id now is_correct time_ms pts in
      let answers := (session_answers db ++ [row])%list in
      if negb (int4 time_ms) then Err invalid_value
      else if negb (session_exists db session_id
                      (fun s => SessionStatus_eqb (Session.status s) playing))
      then Err rls_violation
      else if negb (existsb (fun p => (SessionPlayer.id p =? player_id)%nat)
                      (session_players db))
      then Err foreign_key_violation
      else if existsb (same_answer_key session_id player_id question_id)
                (session_answers db)
      then Err unique_violation
      else if negb (int4 (sum_points answers player_id session_id))
      then Err invalid_value
      else Ok (mk (sessions db)
                  (update_player_score row answers (session_players db))
                  (session_question_state db) answers (S (next_uuid db)))
  end.

(* ----------------------------------------------------------------- *)
(** *** Deletes that cascade from the authoring relations *)

Definition mem (x : uuid) (l : list uuid) : bool := existsb (Nat.eqb x) l.

(** The relations [games], [game_questions] and
    [game_question_choices] are not part of the store modelled here,
    but the session relations reference them [on delete cascade]:
    [sessions.game_id], [session_question_state.question_id],
    [session_answers.question_id] and [session_answers.choice_id]; and
    among themselves [session_players], [session_question_state] and
    [session_answers] reference [sessions], and [session_answers]
    references [session_players], all [on delete cascade]. A delete on
    the authoring relations is given by the keys of the games,
    questions and choices it removes there; [cascade] is what it
    removes here. No trigger runs on a delete. *)
Definition cascade (games questions choices : list uuid) (db : Db) : Db :=
  let gone_session sid :=
    existsb (fun s => (Session.id s =? sid)%nat && mem (Session.game_id s) games)
      (sessions db) in
  let gone_player pid :=
    existsb (fun p => (SessionPlayer.id p =? pid)%nat
                      && gone_session (SessionPlayer.session_id p))
      (session_players db) in
  mk (filter (fun s => negb (mem (Session.game_id s) games)) (sessions db))
     (filter (fun p => negb (gone_session (SessionPlayer.session_id p)))
        (session_players db))
     (filter (fun q => negb (gone_session (SessionQuestionState.session_id q)
                             || mem (SessionQuestionState.question_id q)
                                  questions))
        (session_question_state db))
     (filter (fun a => negb (gone_session (SessionAnswer.session_id a)
                             || gone_player (SessionAnswer.player_id a)
                             || mem (SessionAnswer.question_id a) questions
                             || mem (SessionAnswer.choice_id a) choices))
        (session_answers db))
     (next_uuid db).

(** A write whose outcome the caller does not look at. *)
Definition ignore_error (r : result Db) (db : Db) : Db :=
  match r with
  | Ok db' => db'
  | Err _ => db
  end.

End Pg.

(** The wall clock of one handler run: [clk n] is what the run's
    [n]-th read of [Date.now()] (or [new Date()]) returns, counting
    from zero. *)
Definition clock : Type := nat -> timestamp.

(* ================================================================= *)
(** ** app/play/[sessionCode]/page.tsx: the player page *)

Module PlayerPhase.
Inductive t : Type :=
  | joining | lobby | question | answered | results
  | leaderboard | finished | removed | error.
End PlayerPhase.

Module PlayerSessionPage.
Import JsNumber JsString Pg.

(** What the [error] state holds: empty, one of the page's fixed
    messages, or the message of a failed insert. *)
Inductive PageError : Type :=
  | no_error
  | enter_a_display_name
  | game_not_found
  | join_failed (e : pg_error).

Record t : Type := mk {
  phase : PlayerPhase.t;
  session : option Session.t;
  player : option SessionPlayer.t;
  players : list SessionPlayer.t;
  questionState : option SessionQuestionState.t;
  currentQuestion : option GameQuestionWithChoices.t;
  selectedChoiceId : option uuid;
  displayName : string;
  avatarColor : string;
  error : PageError;
  answerResult : option (bool * number);
  (** [localStorage]: session id to the player id stored under
      [heyhost-player-<session id>]. *)
  localStorage : list (uuid * uuid)
}.

(** The page as first rendered, before any effect has run. *)
Definition initial (avatar0 : string) (storage : list (uuid * uuid)) : t :=
  mk PlayerPhase.joining None None [] None None None "" avatar0 no_error
     None storage.

Definition getItem (storage : list (uuid * uuid)) (sid : uuid) : option uuid :=
  option_map snd (find (fun kv => (fst kv =? sid)%nat) storage).

Section WithStringMethods.
Context {M : JsString.Methods}.

(** The first effect: load the session by code. *)
Definition findSession (sessionCode : string) (st : t) (db : Db) : t :=
  match maybeSingle (active_sessions_with_code db (toUpperCase sessionCode)) with
  | None =>
      mk PlayerPhase.error (session st) (player st) (players st)
         (questionState st) (currentQuestion st) (selectedChoiceId st)
         (displayName st) (avatarColor st) game_not_found (answerResult st)
         (localStorage st)
  | Some data =>
      let playersData := roster db (Session.id data) in
      let loaded ph pl :=
        mk ph (Some data) pl playersData (questionState st)
           (currentQuestion st) (selectedChoiceId st) (displayName st)
           (avatarColor st) (error st) (answerResult st) (localStorage st) in
      match getItem (localStorage st) (Session.id data) with
      | None => loaded (phase st) (player st)
      | Some storedPlayerId =>
          match maybeSingle
                  (filter (fun p => (SessionPlayer.id p =? storedPlayerId)%nat)
                     (session_players db)) with
          | None => loaded (phase st) (player st)
          | Some existingPlayer =>
              if SessionPlayer.is_removed existingPlayer
              then loaded PlayerPhase.removed (player st)
              else loaded
                     match Session.status data with
                     | lobby => PlayerPhase.lobby
                     | playing => PlayerPhase.question
                     | finished => PlayerPhase.finished
                     end
                     (Some existingPlayer)
          end
      end
  end.

End WithStringMethods.

(** The [while] of [handleJoin]: count up from [counter] while the
    lower-cased name with the counter appended is taken. [None] when
    the loop is still running after [fuel] tests. *)
Fixpoint next_free_counter (fuel : nat) (names : list string)
    (lowered : string) (counter : nat) : option nat :=
  match fuel with
  | O => None
  | S fuel' =>
      if includes names (lowered ++ of_nat counter)
      then next_free_counter fuel' names lowered (S counter)
      else Some counter
  end.

Section WithStringMethods.
Context {M : JsString.Methods}.

(** The name [handleJoin] settles on, given the display names of the
    players already on the roster. *)
Definition finalName_of (existing : list string) (displayName : string)
    : option string :=
  let finalName := trim displayName in
  let names := map toLowerCase existing in
  if includes names (toLowerCase finalName)
  then option_map (fun counter => finalName ++ of_nat counter)
         (next_free_counter (S (List.length names)) names
            (toLowerCase finalName) 2)
  else Some finalName.

(** [handleJoin]; [None] stands for a run that does not return. *)
Definition handleJoin (st : t) (db : Db) (now : timestamp) : option (t * Db) :=
  let fail e :=
    mk (phase st) (session st) (player st) (players st) (questionState st)
       (currentQuestion st) (selectedChoiceId st) (displayName st)
       (avatarColor st) e (answerResult st) (localStorage st) in
  match session st with
  | None => Some (fail enter_a_display_name, db)
  | Some s =>
      if String.eqb (trim (displayName st)) ""
      then Some (fail enter_a_display_name, db)
      else
        let existing := roster db (Session.id s) in
        match finalName_of (map SessionPlayer.display_name existing)
                (displayName st) with
        | None => None
        | Some finalName =>
            match insert_session_player now (Session.id s) finalName
                    (avatarColor st) db with
            | Err e => Some (fail (join_failed e), db)
            | Ok (newPlayer, db') =>
                Some (mk PlayerPhase.lobby (session st) (Some newPlayer)
                         (players st) (questionState st) (currentQuestion st)
                         (selectedChoiceId st) (displayName st)
                         (avatarColor st) no_error (answerResult st)
                         ((Session.id s, SessionPlayer.id newPlayer)
                            :: localStorage st),
                      db')
            end
        end
  end.

End WithStringMethods.

(** The points [handleAnswer] computes in line from the session's
    settings. *)
Definition handleAnswer_points (isCorrect : bool) (timeMs : number)
    (timer_seconds : number) (speed_bonus : bool) : number :=
  let points := num 0 in
  if isCorrect then
    let points := num 1000 in
    if speed_bonus then
      let totalMs := js_mul timer_seconds (num 1000) in
      let fraction :=
        Math_max (num 0) (js_sub (num 1) (js_div timeMs totalMs)) in
      js_add points (Math_round (js_mul (num 500) fraction))
    else points
  else points.

(** What one run of [handleAnswer] submits, when it gets past its
    guard: the key of the answer, its correctness, the elapsed time and
    the points. *)
Record Submission : Type := mkSubmission {
  sub_session_id : uuid;
  sub_player_id : uuid;
  sub_question_id : uuid;
  sub_is_correct : bool;
  sub_time_ms : Z;
  sub_points : number
}.

Definition submission (st : t) (choiceId : uuid) (clk : clock)
    : option Submission :=
  match session st, player st, questionState st, currentQuestion st,
        selectedChoiceId st with
  | Some s, Some p, Some qs, Some cq, None =>
      let timeMs :=
        match SessionQuestionState.started_at qs with
        | Some startedAt => clk 0%nat - startedAt
        | None => clk 1%nat - clk 0%nat
        end in
      let choice :=
        find (fun c => (GameQuestionChoice.id c =? choiceId)%nat)
          (GameQuestionWithChoices.game_question_choices cq) in
      let isCorrect :=
        match choice with
        | Some c => GameQuestionChoice.is_correct c
        | None => false
        end in
      Some (mkSubmission (Session.id s) (SessionPlayer.id p)
              (SessionQuestionState.question_id qs) isCorrect timeMs
              (handleAnswer_points isCorrect (num timeMs)
                 (num (Session.timer_seconds s)) (Session.speed_bonus s)))
  | _, _, _, _, _ => None
  end.

(** [handleAnswer(choiceId)]; [now] is the store's clock, for
    [answered_at]. The outcome of the insert is not looked at. *)
Definition handleAnswer (choiceId : uuid) (st : t) (db : Db) (clk : clock)
    (now : timestamp) : t * Db :=
  match submission st choiceId clk with
  | None => (st, db)
  | Some sub =>
      (mk PlayerPhase.answered (session st) (player st) (players st)
          (questionState st) (currentQuestion st) (Some choiceId)
          (displayName st) (avatarColor st) (error st)
          (Some (sub_is_correct sub, sub_points sub)) (localStorage st),
       ignore_error
         (insert_session_answer now (sub_session_id sub) (sub_player_id sub)
            (sub_question_id sub) choiceId (sub_is_correct sub)
            (sub_time_ms sub) (sub_points sub) db)
         db)
  end.

End PlayerSessionPage.

(* ================================================================= *)
(** ** app/host/session/[sessionId]/page.tsx: the host remote *)

Module HostRemotePage.
Import Pg.

Record t : Type := mk {
  (** The signed-in user the page's store client acts as. *)
  user : option uuid;
  session : option Session.t;
  (** The ids of the game's questions, in question order. *)
  questions : list uuid;
  questionState : option SessionQuestionState.t;
  (** Loaded from the game's timer setting; 30 until then. *)
  timerSeconds : Z
}.

(** [questions[i]] for a numeric index. *)
Definition question_at (qs : list uuid) (i : Z) : option uuid :=
  if i <? 0 then None else nth_error qs (Z.to_nat i).

Definition activate (st : t) (sid : uuid) (index : Z) (question_id : uuid)
    (now : timestamp) (db : Db) : Db :=
  let endsAt := now + timerSeconds st * 1000 in
  ignore_error
    (insert_session_question_state (user st) sid index question_id
       (Some now) (Some endsAt) false false false db)
    db.

Definition startGame (st : t) (db : Db) (clk : clock) : Db :=
  match session st, questions st with
  | Some s, q0 :: _ =>
      let db1 :=
        ignore_error
          (update_sessions (user st) (Session.id s)
             (mkSessionPatch (Some playing) (Some 0) None) db)
          db in
      activate st (Session.id s) 0 q0 (clk 0%nat) db1
  | _, _ => db
  end.

(** The row [pauseResume] addresses and the fields it writes. *)
Definition pauseResume_update (st : t) (clk : clock)
    : option (uuid * QuestionStatePatch) :=
  match questionState st, session st with
  | Some qs, Some _ =>
      if SessionQuestionState.is_paused qs then
        let remainingMs :=
          match SessionQuestionState.paused_remaining_ms qs with
          | Some r => r
          | None => 0
          end in
        let newEndsAt := clk 0%nat + remainingMs in
        Some (SessionQuestionState.id qs,
              mkQuestionStatePatch
                (Some (Some (clk 1%nat - (timerSeconds st * 1000 - remainingMs))))
                (Some (Some newEndsAt))
                (Some false)
                (Some None)
                None None None)
      else
        let remaining :=
          Z.max 0
            (match SessionQuestionState.ends_at qs with
             | Some e => e
             | None => 0
             end - clk 0%nat) in
        Some (SessionQuestionState.id qs,
              mkQuestionStatePatch None None (Some true) (Some (Some remaining))
                None None None)
  | _, _ => None
  end.

(** The realtime handler of the page: the feed delivers a row and the
    page keeps it as its question state. *)
Definition onQuestionStateChange (new : SessionQuestionState.t) (st : t) : t :=
  mk (user st) (session st) (questions st) (Some new) (timerSeconds st).

Definition pauseResume (st : t) (db : Db) (clk : clock) : Db :=
  match pauseResume_update st clk with
  | Some (qid, p) =>
      ignore_error (update_session_question_state (user st) qid p db) db
  | None => db
  end.

Definition endQuestionEarly_patch : QuestionStatePatch :=
  mkQuestionStatePatch None None None None (Some true) (Some true) None.

Definition endQuestionEarly (st : t) (db : Db) : Db :=
  match questionState st, session st with
  | Some qs, Some _ =>
      ignore_error
        (update_session_question_state (user st)
           (SessionQuestionState.id qs) endQuestionEarly_patch db)
        db
  | _, _ => db
  end.

Definition showLeaderboard_patch : QuestionStatePatch :=
  mkQuestionStatePatch None None None None None None (Some true).

Definition showLeaderboard (st : t) (db : Db) : Db :=
  match questionState st, session st with
  | Some qs, Some _ =>
      ignore_error
        (update_session_question_state (user st)
           (SessionQuestionState.id qs) showLeaderboard_patch db)
        db
  | _, _ => db
  end.

Definition nextQuestion (st : t) (db : Db) (clk : clock) : Db :=
  match session st, questions st with
  | Some s, _ :: _ =>
      let nextIndex := Session.current_question_index s + 1 in
      if Z.of_nat (List.length (questions st)) <=? nextIndex then
        ignore_error
          (update_sessions (user st) (Session.id s)
             (mkSessionPatch (Some finished) None (Some (Some (clk 0%nat)))) db)
          db
      else
        let db1 :=
          ignore_error
            (update_sessions (user st) (Session.id s)
               (mkSessionPatch None (Some nextIndex) None) db)
            db in
        match question_at (questions st) nextIndex with
        | Some q => activate st (Session.id s) nextIndex q (clk 0%nat) db1
        | None => db1
        end
  | _, _ => db
  end.

Definition kickPlayer (playerId : uuid) (st : t) (db : Db) : Db :=
  match session st with
  | Some _ =>
      ignore_error (update_session_player_removed (user st) playerId true db) db
  | None => db
  end.

Definition endGame (st : t) (db : Db) (clk : clock) : Db :=
  match session st with
  | Some s =>
      ignore_error
        (update_sessions (user st) (Session.id s)
           (mkSessionPatch (Some finished) None (Some (Some (clk 0%nat)))) db)
        db
  | None => db
  end.

End HostRemotePage.

(* ================================================================= *)
(** ** app/dashboard/games/[gameId]/page.tsx: starting a live session *)

Module GamePage.
Import Pg.

Record t : Type := mk {
  user : option uuid;
  game : option Game.t;
  questions : list uuid
}.

(** [select id ... eq code, neq status finished, maybeSingle()]. *)
Definition existing (db : Db) (code : string) : option Session.t :=
  maybeSingle (active_sessions_with_code db code).

(** The [while (attempts < 5)] loop, with [remaining = 5 - attempts]:
    look the candidate up; leave at once when no live session carries
    it, draw another candidate otherwise. *)
Fixpoint retry_on_collision (remaining : nat) (db : Db) (code : string)
    (g : Rng.t) : string * Rng.t :=
  match remaining with
  | O => (code, g)
  | S remaining' =>
      match existing db code with
      | None => (code, g)
      | Some _ =>
          let (code', g') := GameCode.generateGameCode g in
          retry_on_collision remaining' db code' g'
      end
  end.



(** Some session that is not finished carries the code. *)
Definition code_is_live (db : Db) (code : string) : bool :=
  existsb (fun s => String.eqb (Session.code s) code && is_active s)
    (sessions db).

(** The allocation at the head of [handleStartSession]. *)
Definition allocate_code (db : Db) (g : Rng.t) : string * Rng.t :=
  let (code, g') := GameCode.generateGameCode g in
  retry_on_collision 5 db code g'.

Inductive Outcome : Type :=
  | not_run
  | started (s : Session.t)
  | not_authenticated
  | failed_to_start (e : pg_error).

Definition handleStartSession (st : t) (db : Db) (g : Rng.t)
    (now : timestamp) : Outcome * Db * Rng.t :=
  match game st, questions st with
  | Some gm, _ :: _ =>
      match user st with
      | None => (not_authenticated, db, g)
      | Some u =>
          let (code, g') := allocate_code db g in
          match insert_session (Some u) now (Game.id gm) u code lobby (-1)
                  (Game.timer_seconds gm) (Game.speed_bonus gm) db with
          | Ok (s, db') => (started s, db', g')
          | Err e => (failed_to_start e, db, g')
          end
      end
  | _, _ => (not_run, db, g)
  end.

(** [handleDeleteGame]: [delete from games where id = gameId]. The
    policy "Hosts can delete own games" hides the row from everyone but
    its host, and then nothing is deleted: [own] tells whether the
    game is the user's. The questions of the game and their choices go
    with it: [questions] and [choices] are their keys in the authoring
    relations. *)
Definition handleDeleteGame (gameId : uuid) (own : bool)
    (questions choices : list uuid) (db : Db) : Db :=
  if own then cascade [gameId] questions choices db else db.

(** [handleRemoveQuestion]: [delete from game_questions where id =
    questions[qIdx].id], under "Hosts can delete own game questions";
    without a question at the index the run is caught before the
    statement. [choices] are the keys of the question's choices. *)
Definition handleRemoveQuestion (qIdx : nat) (own : bool) (choices : list uuid)
    (st : t) (db : Db) : Db :=
  match nth_error (questions st) qIdx with
  | Some q => if own then cascade [] [q] choices db else db
  | None => db
  end.

(** [handleRegenerateQuestion], once the generator has answered
    ([generated]): the old choices of [questions[qIdx]] are deleted,
    under "Hosts can delete own choices", and new ones inserted in the
    authoring relations. [choices] are the keys of the old choices. *)
Definition handleRegenerateQuestion (qIdx : nat) (generated own : bool)
    (choices : list uuid) (st : t) (db : Db) : Db :=
  match game st with
  | None => db
  | Some _ =>
      if generated then
        match nth_error (questions st) qIdx with
        | Some _ => if own then cascade [] [] choices db else db
        | None => db
        end
      else db
  end.

End GamePage.

(* ================================================================= *)
(** ** The system: every write and delete of the pages that reaches the
    session relations *)

Module System.
Import Pg.

Section Run.
Context {M : JsString.Methods}.

(** One handler run of some client, from some local state, at some
    time. Local state is arbitrary: a page may hold stale copies of the
    rows it once loaded. The last three are the deletes of the game
    page, which reach the session relations through the foreign
    keys. *)
Inductive step : Db -> Db -> Prop :=
  | step_handleStartSession st db g now :
      step db (snd (fst (GamePage.handleStartSession st db g now)))
  | step_handleJoin st db now st' db' :
      PlayerSessionPage.handleJoin st db now = Some (st', db') ->
      step db db'
  | step_handleAnswer choiceId st db clk now :
      step db (snd (PlayerSessionPage.handleAnswer choiceId st db clk now))
  | step_startGame st db clk :
      step db (HostRemotePage.startGame st db clk)
  | step_pauseResume st db clk :
      step db (HostRemotePage.pauseResume st db clk)
  | step_endQuestionEarly st db :
      step db (HostRemotePage.endQuestionEarly st db)
  | step_showLeaderboard st db :
      step db (HostRemotePage.showLeaderboard st db)
  | step_nextQuestion st db clk :
      step db (HostRemotePage.nextQuestion st db clk)
  | step_kickPlayer playerId st db :
      step db (HostRemotePage.kickPlayer playerId st db)
  | step_endGame st db clk :
      step db (HostRemotePage.endGame st db clk)
  | step_handleDeleteGame gameId own questions choices db :
      step db (GamePage.handleDeleteGame gameId own questions choices db)
  | step_handleRemoveQuestion qIdx own choices st db :
      step db (GamePage.handleRemoveQuestion qIdx own choices st db)
  | step_handleRegenerateQuestion qIdx generated own choices st db :
      step db
        (GamePage.handleRegenerateQuestion qIdx generated own choices st db).

Inductive steps : Db -> Db -> Prop :=
  | steps_refl db : steps db db
  | steps_step db1 db2 db3 : steps db1 db2 -> step db2 db3 -> steps db1 db3.

(** The stores the system can be in, starting from the empty schema. *)
Definition reachable (db : Db) : Prop := steps Pg.empty db.

End Run.

(** [unique(session_id, player_id, question_id)] as a property of the
    answer log. *)
Definition answer_key (a : SessionAnswer.t) : uuid * uuid * uuid :=
  (SessionAnswer.session_id a, SessionAnswer.player_id a,
   SessionAnswer.question_id a).

Definition answers_unique (db : Db) : Prop :=
  NoDup (map answer_key (session_answers db)).

(** The answers on record for one (session, player, question). *)
Definition answers_of (db : Db) (session_id player_id question_id : uuid)
    : list SessionAnswer.t :=
  filter (same_answer_key session_id player_id question_id)
    (session_answers db).

(** No question-state row is locked with its results hidden. *)
Definition locked_shows_results (db : Db) : Prop :=
  Forall (fun q => SessionQuestionState.is_locked q = true ->
                   SessionQuestionState.show_results q = true)
    (session_question_state db).

(** A patch that leaves the lock flags alone or raises both. *)
Definition lock_safe (p : QuestionStatePatch) : Prop :=
  (set_is_locked p = None /\ set_show_results p = None)
  \/ (set_is_locked p = Some true /\ set_show_results p = Some true).

(** How one statement can change the question-state relation: not at
    all, by adding a row that is neither locked nor showing results and
    has a scheduled end, by patching the rows it selects without
    clearing their scheduled end, or by deleting rows. *)
Inductive question_state_change
    : list SessionQuestionState.t -> list SessionQuestionState.t -> Prop :=
  | change_none l : question_state_change l l
  | change_insert l row :
      SessionQuestionState.is_locked row = false ->
      SessionQuestionState.show_results row = false ->
      SessionQuestionState.ends_at row <> None ->
      question_state_change l (l ++ [row])%list
  | change_update l (selected : SessionQuestionState.t -> bool) p :
      lock_safe p ->
      set_ends_at p <> Some None ->
      question_state_change l
        (map (fun q => if selected q then patch_question_state p q else q) l)
  | change_delete l (kept : SessionQuestionState.t -> bool) :
      question_state_change l (filter kept l).

(** A handler run that leaves the answer log alone and changes the
    question-state relation by one statement at most; every handler
    run but an accepted answer and a delete is one. *)
Definition quiet (db db' : Db) : Prop :=
  session_answers db' = session_answers db
  /\ question_state_change (session_question_state db)
       (session_question_state db').

(** A row of the question-state relation, by primary key. *)
Definition question_state_row (db : Db) (qid : uuid)
    : option SessionQuestionState.t :=
  find (fun q => (SessionQuestionState.id q =? qid)%nat)
    (session_question_state db).

End System.

(* ================================================================= *)
(** ** A session played through *)

Module Scenario.
Import Pg.

(** The names and codes of the scenario are ASCII. *)
#[local] Existing Instance JsString.ascii_methods.

Definition host : uuid := 7%nat.
Definition game : Game.t := Game.mk 1 host 30 true.
Definition questions : list uuid := [11; 12]%nat.
Definition question11 : GameQuestionWithChoices.t :=
  GameQuestionWithChoices.mk 11 1 0
    [GameQuestionChoice.mk 101 11 false 0; GameQuestionChoice.mk 102 11 true 1].

(** A tape whose first six reads spell [ABCDEF]. *)
Definition rng0 : Rng.t := Rng.mk (fun n => n) 0.
Definition at_ (t : timestamp) : clock := fun _ => t.

(** The host starts a live session of the game. *)
Definition created : GamePage.Outcome * Db * Rng.t :=
  GamePage.handleStartSession (GamePage.mk (Some host) (Some game) questions)
    Pg.empty rng0 1000.
Definition db_lobby : Db := snd (fst created).
Definition session_lobby : Session.t :=
  Session.mk 0 1 host "ABCDEF" lobby (-1) 30 true 1000 None.

(** A player page opened on the code, with a name typed in. *)
Definition page_named (name : string) (db : Db) : PlayerSessionPage.t :=
  let st := PlayerSessionPage.findSession "abcdef"
              (PlayerSessionPage.initial "#6366f1" []) db in
  PlayerSessionPage.mk
    (PlayerSessionPage.phase st) (PlayerSessionPage.session st)
    (PlayerSessionPage.player st) (PlayerSessionPage.players st)
    (PlayerSessionPage.questionState st) (PlayerSessionPage.currentQuestion st)
    (PlayerSessionPage.selectedChoiceId st) name
    (PlayerSessionPage.avatarColor st) (PlayerSessionPage.error st)
    (PlayerSessionPage.answerResult st) (PlayerSessionPage.localStorage st).

Definition join (name : string) (now : timestamp) (db : Db) : Db :=
  match PlayerSessionPage.handleJoin (page_named name db) db now with
  | Some (_, db') => db'
  | None => db
  end.

(** Alex and alex2 join; a third player then asks for ALEX. *)
Definition db_two : Db := join "alex2" 2200 (join "Alex" 2100 db_lobby).
Definition db_joined : Db := join " ALEX " 2300 db_two.
Definition alex : SessionPlayer.t :=
  SessionPlayer.mk 1 0 "Alex" "#6366f1" 0 false 2100.

(** The host starts the game at 50000: question 11 runs until 80000. *)
Definition host_page (s : Session.t) (qs : option SessionQuestionState.t)
    : HostRemotePage.t :=
  HostRemotePage.mk (Some host) (Some s) questions qs 30.
Definition db_playing : Db :=
  HostRemotePage.startGame (host_page session_lobby None) db_joined (at_ 50000).
Definition session_playing : Session.t :=
  Session.mk 0 1 host "ABCDEF" playing 0 30 true 1000 None.
Definition question_running : SessionQuestionState.t :=
  SessionQuestionState.mk 4 0 0 11 (Some 50000) (Some 80000) false None
    false false false.

(** Alex's page while the question runs, nothing selected yet. *)
Definition alex_page : PlayerSessionPage.t :=
  PlayerSessionPage.mk PlayerPhase.question (Some session_playing) (Some alex)
    [] (Some question_running) (Some question11) None "Alex" "#6366f1"
    PlayerSessionPage.no_error None [(0, 1)%nat].

(** Alex picks the right choice the instant the question starts. *)
Definition db_answered : Db :=
  snd (PlayerSessionPage.handleAnswer 102 alex_page db_playing (at_ 50000)
         50001).

(** The device of alex2 runs 5 s behind the host's: two seconds into
    the question, at the host's 52000, it reads 47000. *)
Definition alex2 : SessionPlayer.t :=
  SessionPlayer.mk 2 0 "alex2" "#6366f1" 0 false 2200.
Definition alex2_page : PlayerSessionPage.t :=
  PlayerSessionPage.mk PlayerPhase.question (Some session_playing) (Some alex2)
    [] (Some question_running) (Some question11) None "alex2" "#6366f1"
    PlayerSessionPage.no_error None [(0, 2)%nat].
Definition db_skewed : Db :=
  snd (PlayerSessionPage.handleAnswer 102 alex2_page db_playing (at_ 47000)
         52002).

(** The host pauses at 60000 and resumes at 70000. *)
Definition db_paused : Db :=
  HostRemotePage.pauseResume (host_page session_playing (Some question_running))
    db_answered (at_ 60000).
Definition question_paused : SessionQuestionState.t :=
  SessionQuestionState.mk 4 0 0 11 (Some 50000) (Some 80000) true (Some 20000)
    false false false.
Definition db_resumed : Db :=
  HostRemotePage.pauseResume (host_page session_playing (Some question_paused))
    db_paused (at_ 70000).
Definition question_resumed : SessionQuestionState.t :=
  SessionQuestionState.mk 4 0 0 11 (Some 60000) (Some 90000) false None
    false false false.

(** The host ends the question early. *)
Definition db_locked : Db :=
  HostRemotePage.endQuestionEarly
    (host_page session_playing (Some question_resumed)) db_resumed.

(** The host removes Alex from the lobby of two. *)
Definition db_kicked : Db :=
  HostRemotePage.kickPlayer 1 (host_page session_lobby None) db_two.


(** A store with one live session whose code every draw of a constant
    tape spells. *)
Definition rng_stuck : Rng.t := Rng.mk (fun _ => O) 0.
Definition db_aaaaaa : Db :=
  Pg.mk [Session.mk 0 1 host "AAAAAA" playing 0 30 true 1000 None] [] [] [] 1.

End Scenario.

From Stdlib Require Import Sorting.Permutation Sorting.Sorted.

(* ================================================================= *)
(** ** app/play/page.tsx: entering a game code *)

Module PlayJoinPage.
Import JsString.

Inductive PageError : Type :=
  | no_error
  | enter_a_valid_game_code.

Record t : Type := mk {
  code : string;
  error : PageError
}.

Definition initial : t := mk "" no_error.


(** What the form does on submit: show its error and stay, or
    navigate to [/play/<code>]. *)
Inductive Outcome : Type :=
  | stays (st : t)
  | push (code : string).

Section WithStringMethods.
Context {M : JsString.Methods}.

(** [onChange] of the input, for a value the field can hold. *)
Definition onChange (value : string) (st : t) : t :=
  mk (toUpperCase value) no_error.

Definition handleJoin (st : t) : Outcome :=
  let cleaned := toUpperCase (trim (code st)) in
  if String.eqb cleaned "" || (JsString.length cleaned <? 5)%nat
  then stays (mk (code st) enter_a_valid_game_code)
  else push cleaned.

End WithStringMethods.

End PlayJoinPage.

(** Strings over the alphabet of the join codes, and strings of white
    space. *)
Module CodeText.

Definition code_char (c : ascii) : bool :=
  existsb (Ascii.eqb c) (list_ascii_of_string GameCode.CHARS).

Definition over_alphabet (s : string) : bool :=
  forallb code_char (list_ascii_of_string s).

Definition blank (s : string) : bool :=
  forallb JsString.is_space (list_ascii_of_string s).

(** The characters the alphabet leaves out because they are easily
    misread: I, O, 0 and 1. *)
Definition ambiguous (c : ascii) : bool :=
  existsb (Ascii.eqb c) (list_ascii_of_string "IO01").

End CodeText.

(* ================================================================= *)
(** ** The statements behind the handlers *)

Module Statements.
Import Pg System.

(** The three updates the pages send to [sessions]: start the game,
    advance to a question, finish. *)
Inductive page_session_patch : SessionPatch -> Prop :=
  | patch_start :
      page_session_patch (mkSessionPatch (Some playing) (Some 0) None)
  | patch_advance i :
      page_session_patch (mkSessionPatch None (Some i) None)
  | patch_finish t :
      page_session_patch (mkSessionPatch (Some finished) None (Some (Some t))).

(** One insert or update of a handler that the store has accepted. *)
Inductive write : Db -> Db -> Prop :=
  | insert_session_ok auth now gid hid code timer bonus db s db' :
      insert_session auth now gid hid code lobby (-1) timer bonus db
      = Ok (s, db') ->
      write db db'
  | update_sessions_ok auth sid p db db' :
      page_session_patch p ->
      update_sessions auth sid p db = Ok db' ->
      write db db'
  | insert_session_player_ok now sid name color db p db' :
      insert_session_player now sid name color db = Ok (p, db') ->
      write db db'
  | update_session_player_removed_ok auth pid db db' :
      update_session_player_removed auth pid true db = Ok db' ->
      write db db'
  | insert_session_question_state_ok auth sid idx qid started ends db db' :
      insert_session_question_state auth sid idx qid started ends
        false false false db = Ok db' ->
      write db db'
  | update_session_question_state_ok auth qid p db db' :
      lock_safe p ->
      update_session_question_state auth qid p db = Ok db' ->
      write db db'
  | insert_session_answer_ok now sid pid qid cid correct time_ms points db db' :
      insert_session_answer now sid pid qid cid correct time_ms points db
      = Ok db' ->
      write db db'.

(** One statement of a handler that the store has accepted: an insert
    or update on the session relations, or a delete on the authoring
    relations with what it takes along here. *)
Inductive statement : Db -> Db -> Prop :=
  | written db db' : write db db' -> statement db db'
  | deleted games questions choices db :
      statement db (cascade games questions choices db).

Inductive statements : Db -> Db -> Prop :=
  | statements_refl db : statements db db
  | statements_step db1 db2 db3 :
      statements db1 db2 -> statement db2 db3 -> statements db1 db3.

(** A run of inserts and updates, in which nothing is deleted. *)
Inductive writes : Db -> Db -> Prop :=
  | writes_refl db : writes db db
  | writes_step db1 db2 db3 :
      writes db1 db2 -> write db2 db3 -> writes db1 db3.

(** A session, by primary key. *)
Definition session_row (db : Db) (sid : uuid) : option Session.t :=
  find (fun s => (Session.id s =? sid)%nat) (sessions db).


(** Primary keys are distinct and come from the store; an answer's
    player was on record when the answer was taken. *)
Definition well_keyed (db : Db) : Prop :=
  Forall (fun s => (Session.id s < next_uuid db)%nat) (sessions db)
  /\ NoDup (map Session.id (sessions db))
  /\ Forall (fun p => (SessionPlayer.id p < next_uuid db)%nat) (session_players db)
  /\ NoDup (map SessionPlayer.id (session_players db))
  /\ Forall (fun a => (SessionAnswer.player_id a < next_uuid db)%nat)
       (session_answers db)
  /\ Forall (fun q => (SessionQuestionState.id q < next_uuid db)%nat)
       (session_question_state db)
  /\ NoDup (map SessionQuestionState.id (session_question_state db))
  /\ Forall (fun a => (SessionAnswer.id a < next_uuid db)%nat)
       (session_answers db).



(** What the start and end times of a session say about its status. *)
Definition times_consistent (s : Session.t) : Prop :=
  (Session.status s = lobby -> Session.ended_at s = None)
  /\ (Session.status s = finished -> exists t, Session.ended_at s = Some t).

(** The session in which a player answered last. *)
Definition last_session_of (answers : list SessionAnswer.t) (pid : uuid)
    : option uuid :=
  option_map SessionAnswer.session_id
    (find (fun a => (SessionAnswer.player_id a =? pid)%nat) (rev answers)).

(** The score the trigger left with a player, read off the answer
    log. *)
Definition score_from_log (answers : list SessionAnswer.t) (pid : uuid) : Z :=
  match last_session_of answers pid with
  | Some sid => sum_points answers pid sid
  | None => 0
  end.

End Statements.

(* ================================================================= *)
(** ** The session played to its end *)

Module Finale.
Import Pg Scenario.

(** The host ends the game at 95000. *)
Definition db_finished : Db :=
  HostRemotePage.endGame (host_page session_playing (Some question_resumed))
    db_locked (at_ 95000).
Definition session_finished : Session.t :=
  Session.mk 0 1 host "ABCDEF" finished 0 30 true 1000 (Some 95000).

End Finale.

(* ================================================================= *)
(** ** lib/realtime.ts and the pages' realtime handlers *)

(** What [subscribeToSession] hands to a handler: the kind of change
    and the row as the statement left it. A DELETE event carries no
    new row; the roster handlers, which act on INSERT and UPDATE only,
    do nothing on it, and it is not modelled. *)
Module Realtime.

Inductive EventType : Type := INSERT | UPDATE.

Record payload (A : Type) : Type := mkPayload {
  eventType : EventType;
  new : A
}.
Arguments mkPayload {A} eventType new.
Arguments eventType {A} p.
Arguments new {A} p.

End Realtime.

(** The handlers of the player page. *)
Module PlayerFeed.
Import Pg Realtime PlayerSessionPage.

Definition onSessionChange (ev : payload Session.t) (st : t) : t :=
  let s := new ev in
  mk match Session.status s with
     | finished => PlayerPhase.finished
     | _ => phase st
     end
     (Some s) (player st) (players st) (questionState st) (currentQuestion st)
     (selectedChoiceId st) (displayName st) (avatarColor st) (error st)
     (answerResult st) (localStorage st).

Definition onPlayerChange (ev : payload SessionPlayer.t) (st : t) : t :=
  let p := new ev in
  let setPlayers ps :=
    mk (phase st) (session st) (player st) ps (questionState st)
       (currentQuestion st) (selectedChoiceId st) (displayName st)
       (avatarColor st) (error st) (answerResult st) (localStorage st) in
  match eventType ev with
  | INSERT =>
      setPlayers
        (filter (fun x => negb (SessionPlayer.id x =? SessionPlayer.id p)%nat)
           (players st) ++ [p])%list
  | UPDATE =>
      if match player st with
         | Some me => (SessionPlayer.id p =? SessionPlayer.id me)%nat
                      && SessionPlayer.is_removed p
         | None => false
         end
      then
        mk PlayerPhase.removed (session st) (player st) (players st)
           (questionState st) (currentQuestion st) (selectedChoiceId st)
           (displayName st) (avatarColor st) (error st) (answerResult st)
           (localStorage st)
      else
        setPlayers
          (filter (fun x => negb (SessionPlayer.is_removed x))
             (map (fun x => if (SessionPlayer.id x =? SessionPlayer.id p)%nat
                            then p else x) (players st)))
  end.

Definition onQuestionStateChange (ev : payload SessionQuestionState.t)
    (st : t) : t :=
  let qs := new ev in
  match eventType ev with
  | INSERT =>
      mk PlayerPhase.question (session st) (player st) (players st) (Some qs)
         (currentQuestion st) None (displayName st) (avatarColor st)
         (error st) None (localStorage st)
  | UPDATE =>
      mk (if SessionQuestionState.show_leaderboard qs
          then PlayerPhase.leaderboard
          else if SessionQuestionState.show_results qs
               then PlayerPhase.results
               else phase st)
         (session st) (player st) (players st) (Some qs) (currentQuestion st)
         (selectedChoiceId st) (displayName st) (avatarColor st) (error st)
         (answerResult st) (localStorage st)
  end.

(** The effect that looks for the player's answer to the current
    question; without a session the run stops at [session!.id]. *)
Definition checkExistingAnswer (st : t) (db : Db) : t :=
  match questionState st, player st, currentQuestion st, session st with
  | Some qs, Some p, Some _, Some s =>
      match maybeSingle
              (filter (same_answer_key (Session.id s) (SessionPlayer.id p)
                         (SessionQuestionState.question_id qs))
                 (session_answers db)) with
      | Some data =>
          mk PlayerPhase.answered (session st) (player st) (players st)
             (questionState st) (currentQuestion st)
             (Some (SessionAnswer.choice_id data)) (displayName st)
             (avatarColor st) (error st)
             (Some (SessionAnswer.is_correct data,
                    JsNumber.num (SessionAnswer.points_awarded data)))
             (localStorage st)
      | None => st
      end
  | _, _, _, _ => st
  end.

End PlayerFeed.

(** The handlers of the host remote and of the big screen, which are
    the same: how each turns the list it holds into the next. *)
Module HostFeed.
Import Pg Realtime.

Definition onPlayerChange (ev : payload SessionPlayer.t)
    (prev : list SessionPlayer.t) : list SessionPlayer.t :=
  let p := new ev in
  match eventType ev with
  | INSERT =>
      (filter (fun x => negb (SessionPlayer.id x =? SessionPlayer.id p)%nat) prev
       ++ [p])%list
  | UPDATE =>
      if SessionPlayer.is_removed p
      then filter (fun x => negb (SessionPlayer.id x =? SessionPlayer.id p)%nat)
             prev
      else map (fun x => if (SessionPlayer.id x =? SessionPlayer.id p)%nat
                         then p else x) prev
  end.

Definition onAnswerChange (ev : payload SessionAnswer.t)
    (prev : list SessionAnswer.t) : list SessionAnswer.t :=
  match eventType ev with
  | INSERT => (prev ++ [new ev])%list
  | UPDATE => prev
  end.

End HostFeed.

(** The feed delivers the row changes of a statement to the pages. *)
Module Feed.
Import Pg Realtime.


End Feed.

(* ================================================================= *)
(** ** Leaderboards *)

(** What the three pages render from the roster they hold. *)
Module Leaderboard.

(** [[...players].sort((a, b) => b.score - a.score)]: the sort of the
    language is stable, so players of equal score stay in roster
    order. [insert p l] puts [p], which precedes the players of [l] in
    the roster, into the sorted [l]. *)
Fixpoint insert (p : SessionPlayer.t) (l : list SessionPlayer.t)
    : list SessionPlayer.t :=
  match l with
  | [] => [p]
  | q :: l' =>
      if SessionPlayer.score p <? SessionPlayer.score q
      then q :: insert p l'
      else p :: q :: l'
  end.

Definition sorted (players : list SessionPlayer.t) : list SessionPlayer.t :=
  fold_right insert [] players.

(** The order of a leaderboard: [a] may stand above [b]. *)
Definition desc (a b : SessionPlayer.t) : Prop :=
  SessionPlayer.score b <= SessionPlayer.score a.

(** [findIndex]: the position of the first match, -1 without one. *)
Fixpoint findIndex {A : Type} (f : A -> bool) (l : list A) : Z :=
  match l with
  | [] => -1
  | x :: l' =>
      if f x then 0
      else let i := findIndex f l' in if i <? 0 then -1 else i + 1
  end.

(** [p.id === player?.id]. *)
Definition is_player (player : option SessionPlayer.t) (p : SessionPlayer.t)
    : bool :=
  match player with
  | Some me => (SessionPlayer.id p =? SessionPlayer.id me)%nat
  | None => false
  end.

(** The player page, finished: [myRank], and the points shown under
    it when the page has a player. *)
Definition myRank (st : PlayerSessionPage.t) : Z :=
  findIndex (is_player (PlayerSessionPage.player st))
    (sorted (PlayerSessionPage.players st)) + 1.

Definition myPoints (st : PlayerSessionPage.t) : option Z :=
  option_map SessionPlayer.score (PlayerSessionPage.player st).

(** The rows listed: ten on the player page, five in the host's
    preview, eight on the big screen; the podium of the big screen and
    the rest below it. *)
Definition player_top (players : list SessionPlayer.t) : list SessionPlayer.t :=
  firstn 10 (sorted players).
Definition host_preview (players : list SessionPlayer.t) : list SessionPlayer.t :=
  firstn 5 (sorted players).
Definition screen_top (players : list SessionPlayer.t) : list SessionPlayer.t :=
  firstn 8 (sorted players).
Definition podium (players : list SessionPlayer.t) : list SessionPlayer.t :=
  firstn 3 (sorted players).
Definition rest (players : list SessionPlayer.t) : list SessionPlayer.t :=
  skipn 3 (sorted players).

End Leaderboard.

(* ================================================================= *)
(** ** The player page after it has its player *)

Module PlayerPageRun.
Import PlayerSessionPage.

(** [data.game_question_choices.sort((a, b) => a.choice_order -
    b.choice_order)], stable as above. *)
Fixpoint insert_choice (c : GameQuestionChoice.t)
    (l : list GameQuestionChoice.t) : list GameQuestionChoice.t :=
  match l with
  | [] => [c]
  | d :: l' =>
      if GameQuestionChoice.choice_order d <? GameQuestionChoice.choice_order c
      then d :: insert_choice c l'
      else c :: d :: l'
  end.

Definition sort_choices (l : list GameQuestionChoice.t)
    : list GameQuestionChoice.t :=
  fold_right insert_choice [] l.

(** The effect that loads the question of the current question state:
    without a row the page keeps the question it had. *)
Definition loadQuestion (data : option GameQuestionWithChoices.t) (st : t) : t :=
  match questionState st, data with
  | Some _, Some q =>
      mk (phase st) (session st) (player st) (players st) (questionState st)
         (Some (GameQuestionWithChoices.mk
                  (GameQuestionWithChoices.id q)
                  (GameQuestionWithChoices.game_id q)
                  (GameQuestionWithChoices.question_order q)
                  (sort_choices (GameQuestionWithChoices.game_question_choices q))))
         (selectedChoiceId st) (displayName st) (avatarColor st) (error st)
         (answerResult st) (localStorage st)
  | _, _ => st
  end.

(** One thing that happens on the page: a realtime event, the load of
    the current question, the look-up of an existing answer, a tap on
    a choice. *)
Inductive page_step : t -> t -> Prop :=
  | on_session_change ev st :
      page_step st (PlayerFeed.onSessionChange ev st)
  | on_player_change ev st :
      page_step st (PlayerFeed.onPlayerChange ev st)
  | on_question_state_change ev st :
      page_step st (PlayerFeed.onQuestionStateChange ev st)
  | on_loadQuestion data st :
      page_step st (loadQuestion data st)
  | on_checkExistingAnswer db st :
      page_step st (PlayerFeed.checkExistingAnswer st db)
  | on_handleAnswer choiceId db clk now st :
      page_step st (fst (handleAnswer choiceId st db clk now)).

Inductive page_steps : t -> t -> Prop :=
  | page_steps_refl st : page_steps st st
  | page_steps_step st1 st2 st3 :
      page_steps st1 st2 -> page_step st2 st3 -> page_steps st1 st3.

End PlayerPageRun.

(* ================================================================= *)
(** ** Alex's page, from join to Game Over *)

Module AlexPage.
Import Pg Realtime Scenario.

#[local] Existing Instance JsString.ascii_methods.

(** Alex opens the code in the lobby, types a name and joins. *)
Definition opened : PlayerSessionPage.t := page_named "Alex" db_lobby.
Definition joined : PlayerSessionPage.t :=
  match PlayerSessionPage.handleJoin opened db_lobby 2100 with
  | Some (st, _) => st
  | None => opened
  end.

(** The feed delivers Alex's own row, then the first question; the
    page loads the question and Alex taps the right choice at once. *)
Definition listed : PlayerSessionPage.t :=
  PlayerFeed.onPlayerChange (mkPayload INSERT alex) joined.
Definition asked : PlayerSessionPage.t :=
  PlayerPageRun.loadQuestion (Some question11)
    (PlayerFeed.onQuestionStateChange (mkPayload INSERT question_running)
       listed).
Definition answered : PlayerSessionPage.t :=
  fst (PlayerSessionPage.handleAnswer 102 asked db_playing (at_ 50000) 50001).

(** The trigger's update of Alex's score arrives, and later the end
    of the game. *)
Definition scored : PlayerSessionPage.t :=
  PlayerFeed.onPlayerChange (mkPayload UPDATE (set_score 1500 alex)) answered.
Definition game_over : PlayerSessionPage.t :=
  PlayerFeed.onSessionChange (mkPayload UPDATE Finale.session_finished) scored.

(** The third player of the scenario, and a page of theirs at the end
    of the game with the roster of the store. *)
Definition alex3 : SessionPlayer.t :=
  SessionPlayer.mk 3 0 "ALEX3" "#6366f1" 0 false 2300.
Definition alex3_game_over : PlayerSessionPage.t :=
  PlayerSessionPage.mk PlayerPhase.finished (Some Finale.session_finished)
    (Some alex3) (roster Finale.db_finished 0) None None None "ALEX3"
    "#6366f1" PlayerSessionPage.no_error None [(0, 3)%nat].

End AlexPage.

(* ================================================================= *)
(** ** Arrays *)

Module JsArray.

(** [l.map((x, i) => f x i)]. *)
Fixpoint mapi_from {A B : Type} (i : nat) (f : A -> nat -> B) (l : list A)
    : list B :=
  match l with
  | [] => []
  | x :: l' => f x i :: mapi_from (S i) f l'
  end.

Definition mapi {A B : Type} (f : A -> nat -> B) (l : list A) : list B :=
  mapi_from 0 f l.

(** [l[i] = x] for an index within the array. *)
Fixpoint set_nth {A : Type} (i : nat) (x : A) (l : list A) : list A :=
  match l, i with
  | [], _ => []
  | _ :: l', O => x :: l'
  | y :: l', S i' => y :: set_nth i' x l'
  end.

(** [[l[i], l[j]] = [l[j], l[i]]] on a copy of [l]; [None] when one of
    the two reads is [undefined], which leaves a hole that the code
    after it does not expect. *)
Definition swap {A : Type} (i j : nat) (l : list A) : option (list A) :=
  match nth_error l i, nth_error l j with
  | Some a, Some b => Some (set_nth j a (set_nth i b l))
  | _, _ => None
  end.

(** [l.filter((_, k) => k !== i)]. *)
Definition remove_at {A : Type} (i : nat) (l : list A) : list A :=
  (firstn i l ++ skipn (S i) l)%list.

(** [l.splice(i, 0, x)]: a start beyond the end inserts at the end. *)
Definition splice_in {A : Type} (i : nat) (x : A) (l : list A) : list A :=
  (firstn i l ++ x :: skipn i l)%list.

End JsArray.

(* ================================================================= *)
(** ** Authoring: the questions of a game *)

Module Authoring.
Import Pg.

(** A choice row with its text. *)
Module Choice.
Record t : Type := mk {
  id : uuid;
  question_id : uuid;
  choice_text : string;
  is_correct : bool;
  choice_order : Z
}.
End Choice.

(** A question row together with the choice rows that reference it, as
    every select of the pages reads them ([select *,
    game_question_choices]). *)
Module Question.
Record t : Type := mk {
  id : uuid;
  game_id : uuid;
  question_order : Z;
  prompt : string;
  explanation : option string;
  game_question_choices : list Choice.t
}.
End Question.

Record Db : Type := mkDb {
  games : list Game.t;
  game_questions : list Question.t;
  next_uuid : uuid
}.

(** [exists (select 1 from games where id = gid and host_id =
    auth.uid())], the condition of every policy on [game_questions]. *)
Definition owns (auth : option uuid) (db : Db) (gid : uuid) : bool :=
  match auth with
  | Some u =>
      existsb (fun g => (Game.id g =? gid)%nat && (Game.host_id g =? u)%nat)
        (games db)
  | None => false
  end.

(** Insert under "Hosts can insert own games" ([with check (auth.uid()
    = host_id)]); title, topic, age range and difficulty are text
    columns that take what they are given. *)
Definition insert_game (auth : option uuid) (host_id : uuid)
    (timer_seconds : Z) (speed_bonus : bool) (db : Db)
    : result (Game.t * Db) :=
  let row := Game.mk (next_uuid db) host_id timer_seconds speed_bonus in
  if negb (int4 timer_seconds) then Err invalid_value
  else
    match auth with
    | Some u =>
        if (u =? host_id)%nat
        then Ok (row, mkDb (games db ++ [row])%list (game_questions db)
                        (S (next_uuid db)))
        else Err rls_violation
    | None => Err rls_violation
    end.

(** Insert under "Hosts can insert own game questions". *)
Definition insert_question (auth : option uuid) (game_id : uuid)
    (question_order : Z) (prompt : string) (explanation : option string)
    (db : Db) : result (Question.t * Db) :=
  let row := Question.mk (next_uuid db) game_id question_order prompt
               explanation [] in
  if negb (int4 question_order) then Err invalid_value
  else if negb (owns auth db game_id) then Err rls_violation
  else Ok (row, mkDb (games db) (game_questions db ++ [row])%list
                  (S (next_uuid db))).

(** What one row of an insert into [game_question_choices] gives. *)
Record ChoiceSpec : Type := mkChoiceSpec {
  spec_text : string;
  spec_is_correct : bool;
  spec_order : Z
}.

Definition add_choices (qid : uuid) (rows : list Choice.t) (q : Question.t)
    : Question.t :=
  if (Question.id q =? qid)%nat
  then Question.mk (Question.id q) (Question.game_id q)
         (Question.question_order q) (Question.prompt q)
         (Question.explanation q)
         (Question.game_question_choices q ++ rows)%list
  else q.

(** Insert the choices of one question under "Hosts can insert own
    choices"; the statement returns the rows it has inserted. *)
Definition insert_choices (auth : option uuid) (qid : uuid)
    (specs : list ChoiceSpec) (db : Db) : result (list Choice.t * Db) :=
  let rows :=
    JsArray.mapi
      (fun s j => Choice.mk (next_uuid db + j)%nat qid (spec_text s)
                    (spec_is_correct s) (spec_order s)) specs in
  if negb (forallb (fun s => int4 (spec_order s)) specs) then Err invalid_value
  else if negb (existsb (fun q => (Question.id q =? qid)%nat
                                  && owns auth db (Question.game_id q))
                  (game_questions db))
  then Err rls_violation
  else Ok (rows, mkDb (games db) (map (add_choices qid rows) (game_questions db))
                   (next_uuid db + List.length specs)%nat).

Definition set_question_order (v : Z) (q : Question.t) : Question.t :=
  Question.mk (Question.id q) (Question.game_id q) v (Question.prompt q)
    (Question.explanation q) (Question.game_question_choices q).

(** [update game_questions set question_order = v where id = qid],
    under "Hosts can update own game questions". *)
Definition update_question_order (auth : option uuid) (qid : uuid) (v : Z)
    (db : Db) : result Db :=
  if negb (int4 v) then Err invalid_value
  else Ok (mkDb (games db)
             (map (fun q => if (Question.id q =? qid)%nat
                               && owns auth db (Question.game_id q)
                            then set_question_order v q else q)
                (game_questions db))
             (next_uuid db)).

(** [delete from game_questions where id = qid], under "Hosts can
    delete own game questions"; the choices go with the question. *)
Definition delete_question (auth : option uuid) (qid : uuid) (db : Db) : Db :=
  mkDb (games db)
    (filter (fun q => negb ((Question.id q =? qid)%nat
                            && owns auth db (Question.game_id q)))
       (game_questions db))
    (next_uuid db).

Definition ignore_error (r : result Db) (db : Db) : Db :=
  match r with
  | Ok db' => db'
  | Err _ => db
  end.

(** [order("question_order", { ascending: true })]: rows in ascending
    order; rows of equal order are kept here in table order, an order
    the store does not promise. *)
Fixpoint insert_question_row (q : Question.t) (l : list Question.t)
    : list Question.t :=
  match l with
  | [] => [q]
  | r :: l' =>
      if Question.question_order r <? Question.question_order q
      then r :: insert_question_row q l'
      else q :: r :: l'
  end.

Definition order_by_question_order (l : list Question.t) : list Question.t :=
  fold_right insert_question_row [] l.

(** [.sort((a, b) => a.choice_order - b.choice_order)]. *)
Fixpoint insert_choice (c : Choice.t) (l : list Choice.t) : list Choice.t :=
  match l with
  | [] => [c]
  | d :: l' =>
      if Choice.choice_order d <? Choice.choice_order c
      then d :: insert_choice c l'
      else c :: d :: l'
  end.

Definition sort_choices (l : list Choice.t) : list Choice.t :=
  fold_right insert_choice [] l.

Definition with_choices (cs : list Choice.t) (q : Question.t) : Question.t :=
  Question.mk (Question.id q) (Question.game_id q) (Question.question_order q)
    (Question.prompt q) (Question.explanation q) cs.

(** The questions [loadGame] puts on the page. *)
Definition select_questions (auth : option uuid) (gameId : uuid) (db : Db)
    : list Question.t :=
  map (fun q => with_choices (sort_choices (Question.game_question_choices q)) q)
    (order_by_question_order
       (filter (fun q => (Question.game_id q =? gameId)%nat
                         && owns auth db (Question.game_id q))
          (game_questions db))).

End Authoring.

(* ================================================================= *)
(** ** app/dashboard/games/[gameId]/page.tsx: editing the questions *)

Module GameEditor.
Import Pg Authoring JsArray.

(** [direction: -1 | 1]. *)
Inductive Direction : Type := up | down.

Definition offset (d : Direction) : Z :=
  match d with
  | up => -1
  | down => 1
  end.

Inductive PageError : Type :=
  | no_error
  | failed_to_add_question
  | failed_to_remove_question
  | failed_to_generate_questions.

Record t : Type := mk {
  user : option uuid;
  game : option Game.t;
  questions : list Question.t;
  dragIdx : option nat;
  error : PageError
}.

Definition setQuestions (qs : list Question.t) (st : t) : t :=
  mk (user st) (game st) qs (dragIdx st) (error st).

Definition setError (e : PageError) (st : t) : t :=
  mk (user st) (game st) (questions st) (dragIdx st) e.

(* ----------------------------------------------------------------- *)
(** *** Edits of the page's copy *)

Definition set_prompt (prompt : string) (q : Question.t) : Question.t :=
  Question.mk (Question.id q) (Question.game_id q) (Question.question_order q)
    prompt (Question.explanation q) (Question.game_question_choices q).

Definition set_choice_text (text : string) (c : Choice.t) : Choice.t :=
  Choice.mk (Choice.id c) (Choice.question_id c) text (Choice.is_correct c)
    (Choice.choice_order c).

Definition set_is_correct (b : bool) (c : Choice.t) : Choice.t :=
  Choice.mk (Choice.id c) (Choice.question_id c) (Choice.choice_text c) b
    (Choice.choice_order c).

Definition set_choice_order (j : nat) (c : Choice.t) : Choice.t :=
  Choice.mk (Choice.id c) (Choice.question_id c) (Choice.choice_text c)
    (Choice.is_correct c) (Z.of_nat j).

Definition updateQuestionPrompt (idx : nat) (prompt : string)
    (qs : list Question.t) : list Question.t :=
  mapi (fun q i => if (i =? idx)%nat then set_prompt prompt q else q) qs.

Definition updateChoiceText (qIdx cIdx : nat) (text : string)
    (qs : list Question.t) : list Question.t :=
  mapi (fun q i =>
          if (i =? qIdx)%nat
          then with_choices
                 (mapi (fun c j => if (j =? cIdx)%nat
                                   then set_choice_text text c else c)
                    (Question.game_question_choices q)) q
          else q) qs.

(** [moveChoice]; [None] when the swap reads [undefined]. *)
Definition moveChoice (qIdx cIdx : nat) (direction : Direction)
    (qs : list Question.t) : option (list Question.t) :=
  let target := Z.of_nat cIdx + offset direction in
  match nth_error qs qIdx with
  | None => Some qs
  | Some q =>
      if (target <? 0)
         || (Z.of_nat (List.length (Question.game_question_choices q)) <=? target)
      then Some qs
      else
        match swap cIdx (Z.to_nat target) (Question.game_question_choices q) with
        | None => None
        | Some _ =>
            Some (mapi (fun question i =>
                          if negb (i =? qIdx)%nat then question
                          else
                            match swap cIdx (Z.to_nat target)
                                    (Question.game_question_choices question) with
                            | Some choices =>
                                with_choices
                                  (mapi (fun c j => set_choice_order j c) choices)
                                  question
                            | None => question
                            end) qs)
        end
  end.

Definition setCorrectChoice (qIdx cIdx : nat) (qs : list Question.t)
    : list Question.t :=
  mapi (fun q i =>
          if (i =? qIdx)%nat
          then with_choices
                 (mapi (fun c j => set_is_correct (j =? cIdx)%nat c)
                    (Question.game_question_choices q)) q
          else q) qs.

(* ----------------------------------------------------------------- *)
(** *** Edits that write to the store *)

Definition defaultChoices : list ChoiceSpec :=
  [mkChoiceSpec "Correct answer" true 0;
   mkChoiceSpec "Wrong answer A" false 1;
   mkChoiceSpec "Wrong answer B" false 2;
   mkChoiceSpec "Wrong answer C" false 3].

Definition handleAddQuestion (st : t) (db : Db) : t * Db :=
  match game st with
  | None => (st, db)
  | Some g =>
      let newOrder := Z.of_nat (List.length (questions st)) in
      match insert_question (user st) (Game.id g) newOrder
              "New question — edit me" None db with
      | Err _ => (setError failed_to_add_question (setError no_error st), db)
      | Ok (newQuestion, db1) =>
          match insert_choices (user st) (Question.id newQuestion)
                  defaultChoices db1 with
          | Err _ =>
              (setError failed_to_add_question (setError no_error st), db1)
          | Ok (insertedChoices, db2) =>
              (setQuestions
                 (questions st
                  ++ [with_choices (sort_choices insertedChoices) newQuestion])%list
                 (setError no_error st),
               db2)
          end
      end
  end.

(** [handleRemoveQuestion]: without a question at the index the run
    is caught at [q.id], before the store or the list is touched. *)
Definition handleRemoveQuestion (qIdx : nat) (st : t) (db : Db) : t * Db :=
  match nth_error (questions st) qIdx with
  | None => (setError failed_to_remove_question (setError no_error st), db)
  | Some q =>
      (setQuestions (remove_at qIdx (questions st)) (setError no_error st),
       delete_question (user st) (Question.id q) db)
  end.

(** [handleMoveQuestion]; [None] when [questions[qIdx]] is
    [undefined], where the run stops at [a.id] with a hole in the
    page's list. *)
Definition handleMoveQuestion (qIdx : nat) (direction : Direction) (st : t)
    (db : Db) : option (t * Db) :=
  let target := Z.of_nat qIdx + offset direction in
  if (target <? 0) || (Z.of_nat (List.length (questions st)) <=? target)
  then Some (st, db)
  else
    match swap qIdx (Z.to_nat target) (questions st),
          nth_error (questions st) qIdx,
          nth_error (questions st) (Z.to_nat target) with
    | Some next, Some a, Some b =>
        let db1 :=
          ignore_error
            (update_question_order (user st) (Question.id a) target db) db in
        let db2 :=
          ignore_error
            (update_question_order (user st) (Question.id b) (Z.of_nat qIdx)
               db1) db1 in
        Some (setQuestions next st, db2)
    | _, _, _ => None
    end.

Definition handleDragStart (idx : nat) (st : t) : t :=
  mk (user st) (game st) (questions st) (Some idx) (error st).

(** The [for] loop of [handleDrop]: [question_order := i] for the
    question at each position [i], from [i] on. *)
Fixpoint persist_orders (auth : option uuid) (i : nat)
    (reordered : list Question.t) (db : Db) : Db :=
  match reordered with
  | [] => db
  | q :: rest =>
      persist_orders auth (S i) rest
        (ignore_error
           (update_question_order auth (Question.id q) (Z.of_nat i) db) db)
  end.

(** [handleDrop]; [None] when nothing is at [dragIdx], where the
    splice puts [undefined] into the list. *)
Definition handleDrop (dropIdx : nat) (st : t) (db : Db) : option (t * Db) :=
  let reset := mk (user st) (game st) (questions st) None (error st) in
  match dragIdx st with
  | None => Some (reset, db)
  | Some from =>
      if (from =? dropIdx)%nat then Some (reset, db)
      else
        match nth_error (questions st) from with
        | None => None
        | Some moved =>
            let reordered :=
              splice_in dropIdx moved (remove_at from (questions st)) in
            Some (mk (user st) (game st) reordered None (error st),
                  persist_orders (user st) 0 reordered db)
        end
  end.

Definition loadGame (gameId : uuid) (st : t) (db : Db) : t :=
  match find (fun g => (Game.id g =? gameId)%nat) (games db) with
  | Some g =>
      if owns (user st) db gameId
      then mk (user st) (Some g) (select_questions (user st) gameId db)
             (dragIdx st) (error st)
      else st
  | None => st
  end.

End GameEditor.

(** The editor and the store, side by side. *)
Module EditorState.
Import Pg Authoring GameEditor.

(** The page shows the questions the store holds for its game, which
    the signed-in user owns; primary keys are distinct and come from
    the store; positions fit the [int] column. *)
Definition in_step (st : t) (db : Db) (gid : uuid) : Prop :=
  option_map Game.id (game st) = Some gid
  /\ owns (user st) db gid = true
  /\ NoDup (map Question.id (game_questions db))
  /\ Forall (fun q => (Question.id q < next_uuid db)%nat) (game_questions db)
  /\ Permutation
       (map Question.id
          (filter (fun q => (Question.game_id q =? gid)%nat) (game_questions db)))
       (map Question.id (questions st))
  /\ Z.of_nat (List.length (questions st)) < 2147483647.

(** In the store, the [question_order] of every question on the page
    is its position on the page. *)
Definition numbered (st : t) (db : Db) : Prop :=
  forall i q row,
    nth_error (questions st) i = Some q ->
    In row (game_questions db) ->
    Question.id row = Question.id q ->
    Question.question_order row = Z.of_nat i.

(** A reload shows the questions in the order the page shows them. *)
Definition reload_agrees (st : t) (db : Db) (gid : uuid) : Prop :=
  map Question.id (select_questions (user st) gid db)
  = map Question.id (questions st).

End EditorState.

(** A game of three questions under edit. *)
Module EditorScenario.
Import Authoring GameEditor.

Definition question (id : uuid) (order : Z) : Question.t :=
  Question.mk id 1 order "Q" None
    [Choice.mk (id * 10) id "right" true 0;
     Choice.mk (id * 10 + 1) id "wrong" false 1].

(** The host, user 7, owns game 1; its questions were numbered 0, 1,
    2 when they were made. *)
Definition db0 : Db :=
  mkDb [Game.mk 1 7 30 true] [question 11 0; question 12 1; question 13 2] 200.

Definition page0 : t :=
  loadGame 1 (mk (Some 7%nat) None [] None no_error) db0.

End EditorScenario.

(* ================================================================= *)
(** ** app/host/session/[sessionId]/page.tsx: loading the remote *)

Module HostLoad.
Import Pg.

(** [unique(session_id, question_index)]. *)
Definition question_state_key (q : SessionQuestionState.t) : uuid * Z :=
  (SessionQuestionState.session_id q, SessionQuestionState.question_index q).

(** [select * from session_question_state where session_id = sid and
    question_index = idx], with [maybeSingle()]. *)
Definition question_state_at (db : Db) (sid : uuid) (idx : Z)
    : option SessionQuestionState.t :=
  maybeSingle
    (filter (fun q => (SessionQuestionState.session_id q =? sid)%nat
                      && (SessionQuestionState.question_index q =? idx))
       (session_question_state db)).

(** The first effect of the page, given what the authoring relations
    return for the session's game: its timer setting, when the game
    can be read, and the ids of its questions in question order.
    [None] when no session can be read, where the page leaves for the
    dashboard. Sessions are readable by anyone. *)
Definition load (sessionId : uuid) (gameData : option Z)
    (questionsData : list uuid) (st : HostRemotePage.t) (db : Db)
    : option HostRemotePage.t :=
  match maybeSingle
          (filter (fun s => (Session.id s =? sessionId)%nat) (sessions db)) with
  | None => None
  | Some sessionData =>
      Some (HostRemotePage.mk (HostRemotePage.user st) (Some sessionData)
              questionsData
              (if 0 <=? Session.current_question_index sessionData
               then match question_state_at db sessionId
                            (Session.current_question_index sessionData) with
                    | Some qsData => Some qsData
                    | None => HostRemotePage.questionState st
                    end
               else HostRemotePage.questionState st)
              match gameData with
              | Some t => t
              | None => HostRemotePage.timerSeconds st
              end)
  end.

End HostLoad.

(* ================================================================= *)
(** ** app/api/generate-questions/route.ts *)

Module GenerateQuestions.
Import JsString.

Record GeneratedChoice : Type := mkGeneratedChoice {
  text : string;
  isCorrect : bool
}.

Record GeneratedQuestion : Type := mkGeneratedQuestion {
  prompt : string;
  choices : list GeneratedChoice;
  explanation : option string
}.

(** [templates.default]. *)
Definition templates (topic : string) : list GeneratedQuestion :=
  [ mkGeneratedQuestion ("What is a key fact about " ++ topic ++ "?")
      [ mkGeneratedChoice "The most commonly known fact" true;
        mkGeneratedChoice "A popular misconception" false;
        mkGeneratedChoice "An unrelated statement" false;
        mkGeneratedChoice "A partially true claim" false ] None;
    mkGeneratedQuestion ("Which year is most associated with " ++ topic ++ "?")
      [ mkGeneratedChoice "1999" false;
        mkGeneratedChoice "2005" true;
        mkGeneratedChoice "2010" false;
        mkGeneratedChoice "1985" false ] None;
    mkGeneratedQuestion
      ("Who is best known for their contribution to " ++ topic ++ "?")
      [ mkGeneratedChoice "Person A" false;
        mkGeneratedChoice "Person B" false;
        mkGeneratedChoice "Person C" true;
        mkGeneratedChoice "Person D" false ] None;
    mkGeneratedQuestion
      ("What category does " ++ topic ++ " primarily belong to?")
      [ mkGeneratedChoice "Science" false;
        mkGeneratedChoice "History" false;
        mkGeneratedChoice "Entertainment" true;
        mkGeneratedChoice "Sports" false ] None;
    mkGeneratedQuestion ("Which of these is NOT related to " ++ topic ++ "?")
      [ mkGeneratedChoice "Related concept A" false;
        mkGeneratedChoice "Unrelated concept" true;
        mkGeneratedChoice "Related concept C" false;
        mkGeneratedChoice "Related concept D" false ] None ].

(** The question pushed in round [i] of the loop; [base[i %
    base.length]] is [undefined] on an empty [base] only. *)
Definition mock_question (topic : string) (i : nat) : GeneratedQuestion :=
  let base := templates topic in
  match nth_error base (i mod List.length base) with
  | Some template =>
      mkGeneratedQuestion (prompt template) (choices template)
        (Some ("This is a sample explanation for question "
               ++ of_nat (i + 1) ++ " about " ++ topic ++ "."))
  | None => mkGeneratedQuestion "" [] None
  end.

Definition generateMockQuestions (topic : string) (count : nat)
    : list GeneratedQuestion :=
  map (mock_question topic) (seq 0 count).

Inductive Response : Type :=
  | status_400
  | status_200 (questions : list GeneratedQuestion).

(** [POST] in its default mode with no [AI_API_KEY] configured, for a
    body with a string [topic] and an integer [count]. *)
Definition POST (topic : string) (count : Z) : Response :=
  if String.eqb topic "" || (count =? 0) || (count <? 1) || (20 <? count)
  then status_400
  else status_200 (generateMockQuestions topic (Z.to_nat count)).

End GenerateQuestions.

(* ================================================================= *)
(** ** app/dashboard/games/new/page.tsx: the new-game wizard *)

Module NewGamePage.
Import JsString JsArray Pg Authoring GenerateQuestions.

Inductive PageError : Type :=
  | no_error
  | please_enter_a_topic
  | failed_to_generate_questions
  | please_enter_a_title
  | generate_questions_first
  | not_authenticated
  | save_failed (e : pg_error).

Record t : Type := mk {
  title : string;
  topic : string;
  questionCount : Z;
  timerSeconds : Z;
  speedBonus : bool;
  questions : list GeneratedQuestion;
  error : PageError
}.

Definition setError (e : PageError) (st : t) : t :=
  mk (title st) (topic st) (questionCount st) (timerSeconds st)
    (speedBonus st) (questions st) e.

Section WithStringMethods.
Context {M : JsString.Methods}.

Definition handleGenerate (st : t) : t :=
  if String.eqb (trim (topic st)) "" then setError please_enter_a_topic st
  else
    match POST (trim (topic st)) (questionCount st) with
    | status_200 qs =>
        mk (if String.eqb (trim (title st)) "" then trim (topic st)
            else title st)
          (topic st) (questionCount st) (timerSeconds st) (speedBonus st)
          qs no_error
    | status_400 => setError failed_to_generate_questions st
    end.

End WithStringMethods.

(** [q.explanation || null]. *)
Definition or_null (e : option string) : option string :=
  match e with
  | Some s => if String.eqb s "" then None else Some s
  | None => None
  end.

Definition choice_specs (q : GeneratedQuestion) : list ChoiceSpec :=
  mapi (fun c j => mkChoiceSpec (text c) (isCorrect c) (Z.of_nat j))
    (choices q).

(** The [for] loop of [handleSave], from round [i] on; the first
    error ends it, with what was written before left in the store. *)
Fixpoint save_questions (auth : option uuid) (gameId : uuid) (i : nat)
    (qs : list GeneratedQuestion) (db : Db) : option pg_error * Db :=
  match qs with
  | [] => (None, db)
  | q :: rest =>
      match insert_question auth gameId (Z.of_nat i) (prompt q)
              (or_null (explanation q)) db with
      | Err e => (Some e, db)
      | Ok (question, db1) =>
          match insert_choices auth (Question.id question) (choice_specs q)
                  db1 with
          | Err e => (Some e, db1)
          | Ok (_, db2) => save_questions auth gameId (S i) rest db2
          end
      end
  end.

(** Where a run of [handleSave] leaves the browser. *)
Inductive Outcome : Type :=
  | stays (st : t)
  | pushed (gameId : uuid).

Section WithStringMethods.
Context {M : JsString.Methods}.

Definition handleSave (auth : option uuid) (st : t) (db : Db)
    : Outcome * Db :=
  if String.eqb (trim (title st)) ""
  then (stays (setError please_enter_a_title st), db)
  else
    match questions st with
    | [] => (stays (setError generate_questions_first st), db)
    | _ :: _ =>
        match auth with
        | None => (stays (setError not_authenticated st), db)
        | Some user =>
            match insert_game auth user (timerSeconds st) (speedBonus st)
                    db with
            | Err e => (stays (setError (save_failed e) st), db)
            | Ok (game, db1) =>
                match save_questions auth (Game.id game) 0 (questions st)
                        db1 with
                | (Some e, db2) => (stays (setError (save_failed e) st), db2)
                | (None, db2) => (pushed (Game.id game), db2)
                end
            end
        end
    end.

End WithStringMethods.

(** The rows the loop leaves in [game_questions] when no statement
    fails: one for each question from round [i] on, with the keys the
    store hands out from [next] on. *)
Fixpoint saved_rows (gameId : uuid) (i : nat) (next : uuid)
    (qs : list GeneratedQuestion) : list Question.t :=
  match qs with
  | [] => []
  | q :: rest =>
      Question.mk next gameId (Z.of_nat i) (prompt q)
        (or_null (explanation q))
        (mapi (fun s j => Choice.mk (S next + j)%nat next (spec_text s)
                            (spec_is_correct s) (spec_order s))
           (choice_specs q))
      :: saved_rows gameId (S i) (S next + List.length (choices q))%nat rest
  end.

(** The editor page that opens after the push. *)
Definition editor (auth : option uuid) (gameId : uuid) (db : Db)
    : GameEditor.t :=
  GameEditor.loadGame gameId
    (GameEditor.mk auth None [] None GameEditor.no_error) db.

End NewGamePage.

(** Keys of the authoring relations come from the store's generator;
    no question is without its game. *)
Module AuthoringState.
Import Pg Authoring.

Definition well_keyed (db : Db) : Prop :=
  NoDup (map Question.id (game_questions db))
  /\ Forall (fun q => (Question.id q < next_uuid db)%nat) (game_questions db)
  /\ Forall (fun q => (Question.game_id q < next_uuid db)%nat)
       (game_questions db)
  /\ Forall (fun g => (Game.id g < next_uuid db)%nat) (games db).

End AuthoringState.

(** A host types a topic, generates and saves. *)
Module WizardScenario.
Import NewGamePage.

#[local] Existing Instance JsString.ascii_methods.

Definition typed : t := mk "" " Volcanoes " 7 20 true [] no_error.

Definition generated : t := handleGenerate typed.

End WizardScenario.

(* ================================================================= *)
(** ** app/screen/[sessionCode]/page.tsx: the answer distribution *)

Module ScreenResults.

(** [distribution]: for each choice of the question on screen, the
    number of answers the page holds for it. *)
Definition distribution (choices : list GameQuestionChoice.t)
    (answers : list SessionAnswer.t) : list (GameQuestionChoice.t * nat) :=
  map (fun choice =>
         (choice,
          List.length
            (filter (fun a => (SessionAnswer.choice_id a
                               =? GameQuestionChoice.id choice)%nat)
               answers)))
    choices.

(** [Math.max(...distribution.map((d) => d.count), 1)]. *)
Definition maxCount (d : list (GameQuestionChoice.t * nat)) : nat :=
  fold_right Nat.max 1%nat (map snd d).

End ScreenResults.

(* ================================================================= *)
(** * Properties *)

(* ================================================================= *)
(** ** Scoring *)

Section ScoringFacts.
Import JsNumber Scoring.

(** The integer literals of the scoring rule, as binary64 values. *)
Lemma num_small_literals :
  num 0 = S754_zero false /\
  num 1000 = S754_finite false 8796093022208000 (-43) /\
  num 1500 = S754_finite false 6597069766656000 (-42) /\
  to_integer (num 1500) = Some 1500 /\
  to_integer (num 1000) = Some 1000.
Proof. repeat split; vm_compute; reflexivity. Qed.

(** An incorrect answer scores nothing, whatever the other inputs. *)
Lemma calculatePoints_incorrect (timeMs timerSeconds : number) (bonus : bool) :
  calculatePoints false timeMs timerSeconds bonus = num 0.
Proof. reflexivity. Qed.

(** Without the speed bonus a correct answer scores the base award. *)
Lemma calculatePoints_no_bonus (timeMs timerSeconds : number) :
  calculatePoints true timeMs timerSeconds false = num 1000.
Proof. reflexivity. Qed.

(** Binary64 rounding shows in the award: 1910 ms into a 10 s window
    the quotient [1910 / 10000] rounds up, the product lands just below
    404.5 and the bonus is 404, where exact arithmetic gives 404.5 and
    405. *)
Example calculatePoints_rounding :
  calculatePoints true (num 1910) (num 10) true = num 1404.
Proof. vm_compute. reflexivity. Qed.

(** A window of zero seconds and no elapsed time: [0 / 0] is NaN and
    so is the award. *)
Example calculatePoints_zero_window :
  calculatePoints true (num 0) (num 0) true = S754_nan.
Proof. vm_compute. reflexivity. Qed.


(** C9. The award is meant to stay within 1000 + 500, but the fraction
    is clamped from below only: an elapsed time of -3000 ms in a 30 s
    window gives a fraction of 1.1, a bonus of 550 and an award of
    1550, above 1500. [handleAnswer] reaches this input when the
    player's clock is behind the clock that stamped [started_at]: the
    answer is recorded with 1550 points and the player's score becomes
    1550. *)
Theorem calculatePoints_exceeds_cap :
  calculatePoints true (num (-3000)) (num 30) true = num 1550
  /\ js_lt (num 1500) (calculatePoints true (num (-3000)) (num 30) true) = true
  /\ to_integer (calculatePoints true (num (-3000)) (num 30) true) = Some 1550
  /\ option_map PlayerSessionPage.sub_time_ms
       (PlayerSessionPage.submission Scenario.alex2_page 102
          (Scenario.at_ 47000)) = Some (-3000)
  /\ map SessionAnswer.points_awarded (Pg.session_answers Scenario.db_skewed)
     = [1550]
  /\ map SessionPlayer.score (Pg.session_players Scenario.db_skewed)
     = [0; 1550; 0].
Proof. repeat split; vm_compute; reflexivity. Qed.

(** C10. The points [handleAnswer] computes in line equal
    [calculatePoints] on every input. *)
Theorem handleAnswer_points_eq_calculatePoints
    (isCorrect : bool) (timeMs timerSeconds : number) (speedBonus : bool) :
  PlayerSessionPage.handleAnswer_points isCorrect timeMs timerSeconds speedBonus
  = calculatePoints isCorrect timeMs timerSeconds speedBonus.
Proof. destruct isCorrect, speedBonus; reflexivity. Qed.

End ScoringFacts.

(* ================================================================= *)
(** ** Display names *)

Section NameFacts.
Import JsString PlayerSessionPage.
Context {M : JsString.Methods}.

Lemma includes_In (names : list string) (x : string) :
  includes names x = true <-> In x names.
Proof.
  unfold includes. rewrite existsb_exists. split.
  - intros [y [Hin Heq]]. apply String.eqb_eq in Heq. now subst.
  - intros Hin. exists x. split; [assumption | apply String.eqb_refl].
Qed.

Lemma includes_false (names : list string) (x : string) :
  includes names x = false <-> ~ In x names.
Proof.
  rewrite <- includes_In. destruct (includes names x); split; congruence.
Qed.

Lemma of_nat_inj (a b : nat) : of_nat a = of_nat b -> a = b.
Proof.
  unfold of_nat. intros H.
  apply Unsigned.to_uint_inj.
  assert (Some (Nat.to_uint a) = Some (Nat.to_uint b)) as E.
  { rewrite <- (NilEmpty.usu (Nat.to_uint a)), <- (NilEmpty.usu (Nat.to_uint b)).
    now rewrite H. }
  now injection E.
Qed.

Lemma append_inj_r (p a b : string) : (p ++ a = p ++ b)%string -> a = b.
Proof.
  induction p as [|c p IH]; simpl; intros H; [assumption|].
  injection H as H. now apply IH.
Qed.

Lemma suffixed_inj (p : string) (a b : nat) :
  (p ++ of_nat a = p ++ of_nat b)%string -> a = b.
Proof. intros H. now apply of_nat_inj, (append_inj_r p). Qed.

Lemma ascii_toLowerCase_append (a b : string) :
  ascii_toLowerCase (a ++ b)
  = (ascii_toLowerCase a ++ ascii_toLowerCase b)%string.
Proof. induction a as [|c a IH]; simpl; [reflexivity | now rewrite IH]. Qed.

Lemma ascii_toLowerCase_digits (d : Decimal.uint) :
  ascii_toLowerCase (NilEmpty.string_of_uint d) = NilEmpty.string_of_uint d.
Proof. induction d; simpl; try rewrite IHd; reflexivity. Qed.

Lemma is_ascii_append (a b : string) :
  is_ascii (a ++ b) = is_ascii a && is_ascii b.
Proof.
  unfold is_ascii. induction a as [|c a IH]; simpl; [reflexivity|].
  rewrite IH. now rewrite andb_assoc.
Qed.

Lemma is_ascii_digits (d : Decimal.uint) :
  is_ascii (NilEmpty.string_of_uint d) = true.
Proof. unfold is_ascii. induction d; simpl; try rewrite IHd; reflexivity. Qed.

(** On an ASCII name, appending a counter commutes with lower-casing:
    the name under test in the loop is then the lower-cased form of
    the name assigned. *)
Lemma toLowerCase_suffixed (name : string) (k : nat) :
  is_ascii name = true ->
  toLowerCase (name ++ of_nat k) = (toLowerCase name ++ of_nat k)%string.
Proof.
  intros H.
  rewrite toLowerCase_ascii
    by (rewrite is_ascii_append, H; apply is_ascii_digits).
  rewrite (toLowerCase_ascii name H), ascii_toLowerCase_append.
  unfold of_nat. now rewrite ascii_toLowerCase_digits.
Qed.

(** What the loop returns when it returns. *)
Lemma next_free_counter_Some (fuel : nat) (names : list string)
    (lowered : string) :
  forall counter k,
    next_free_counter fuel names lowered counter = Some k ->
    (counter <= k)%nat
    /\ includes names (lowered ++ of_nat k) = false
    /\ forall j, (counter <= j < k)%nat ->
                 includes names (lowered ++ of_nat j) = true.
Proof.
  induction fuel as [|fuel IH]; simpl; intros counter k H; [discriminate|].
  destruct (includes names (lowered ++ of_nat counter)) eqn:E.
  - apply IH in H. destruct H as (Hle & Hfree & Hbelow).
    split; [lia|]. split; [assumption|].
    intros j Hj. destruct (Nat.eq_dec j counter) as [->|Hne]; [assumption|].
    apply Hbelow. lia.
  - injection H as <-. split; [lia|]. split; [assumption|]. intros j Hj. lia.
Qed.

(** What running out of fuel means: every counter tried was taken. *)
Lemma next_free_counter_None (fuel : nat) (names : list string)
    (lowered : string) :
  forall counter,
    next_free_counter fuel names lowered counter = None ->
    forall j, (counter <= j < counter + fuel)%nat ->
              includes names (lowered ++ of_nat j) = true.
Proof.
  induction fuel as [|fuel IH]; simpl; intros counter H j Hj; [lia|].
  destruct (includes names (lowered ++ of_nat counter)) eqn:E; [|discriminate].
  destruct (Nat.eq_dec j counter) as [->|Hne]; [assumption|].
  apply (IH (S counter) H). lia.
Qed.

(** The names taken are finitely many and the suffixed names are
    pairwise different, so the loop ends within [length names + 1]
    tests. *)
Lemma next_free_counter_terminates (names : list string) (lowered : string)
    (counter : nat) :
  next_free_counter (S (List.length names)) names lowered counter <> None.
Proof.
  intros H.
  pose proof (next_free_counter_None _ _ _ _ H) as Hall.
  set (tried := map (fun j => (lowered ++ of_nat j)%string)
                  (seq counter (S (List.length names)))).
  assert (NoDup tried) as Hnd.
  { apply Injective_map_NoDup; [|apply seq_NoDup].
    intros a b. apply suffixed_inj. }
  assert (incl tried names) as Hincl.
  { intros x Hx. apply in_map_iff in Hx. destruct Hx as [j [<- Hj]].
    apply in_seq in Hj. apply includes_In, Hall. lia. }
  pose proof (NoDup_incl_length Hnd Hincl) as Hlen.
  unfold tried in Hlen. rewrite length_map, length_seq in Hlen. lia.
Qed.

(** The name settled on when the requested one is taken. *)
Lemma finalName_of_taken (existing : list string) (displayName : string) :
  let names := map toLowerCase existing in
  let requested := trim displayName in
  includes names (toLowerCase requested) = true ->
  exists k,
    finalName_of existing displayName = Some (requested ++ of_nat k)%string
    /\ (2 <= k)%nat
    /\ includes names (toLowerCase requested ++ of_nat k) = false
    /\ forall j, (2 <= j < k)%nat ->
                 includes names (toLowerCase requested ++ of_nat j) = true.
Proof.
  intros names requested Htaken.
  unfold finalName_of. fold names. fold requested. rewrite Htaken.
  destruct (next_free_counter (S (List.length names)) names
              (toLowerCase requested) 2) as [k|] eqn:E.
  - exists k. apply next_free_counter_Some in E.
    destruct E as (Hle & Hfree & Hbelow).
    split; [reflexivity|]. split; [assumption|].
    split; [assumption|].
    intros j Hj. now apply Hbelow.
  - exfalso. now apply (next_free_counter_terminates names (toLowerCase requested) 2).
Qed.

(** A name that is free is kept as typed, trimmed. *)
Lemma finalName_of_free (existing : list string) (displayName : string) :
  includes (map toLowerCase existing) (toLowerCase (trim displayName)) = false ->
  finalName_of existing displayName = Some (trim displayName).
Proof. intros H. unfold finalName_of. now rewrite H. Qed.

(** [handleJoin] always returns. *)
Lemma finalName_of_total (existing : list string) (displayName : string) :
  finalName_of existing displayName <> None.
Proof.
  destruct (includes (map toLowerCase existing)
              (toLowerCase (trim displayName))) eqn:E.
  - destruct (finalName_of_taken existing displayName E) as [k [-> _]].
    discriminate.
  - rewrite (finalName_of_free _ _ E). discriminate.
Qed.

End NameFacts.

Section NameExamples.
Import JsString PlayerSessionPage.
Local Existing Instance JsString.ascii_methods.

Example finalName_Alex :
  finalName_of ["Alex"; "Alex2"] "Alex" = Some "Alex3"
  /\ finalName_of ["ALEX"; "aLeX2"; "Sam"] " alex " = Some "alex3"
  /\ finalName_of ["Alex"; "Alex3"] "Alex" = Some "Alex2"
  /\ finalName_of ["Sam"] "Alex" = Some "Alex".
Proof. repeat split; vm_compute; reflexivity. Qed.

End NameExamples.

(* ================================================================= *)
(** ** The store: what each statement and each handler can change *)

(** Case analysis on every [match] and [if] of a goal, outermost
    first. *)
Ltac split_matches :=
  repeat match goal with
         | |- context [match ?x with _ => _ end] => destruct x eqn:?
         end.

Section StoreFacts.
Import Pg.

Lemma NoDup_snoc {A : Type} (l : list A) (x : A) :
  NoDup l -> ~ In x l -> NoDup (l ++ [x]).
Proof.
  induction l as [|a l IH]; simpl; intros Hnd Hx.
  - constructor; [intros [] | constructor].
  - inversion Hnd as [|? ? Ha Hl]; subst. constructor.
    + rewrite in_app_iff. simpl. intros [H|[H|[]]]; [now apply Ha|].
      apply Hx. now left.
    + apply IH; [assumption|]. intros H. apply Hx. now right.
Qed.

Lemma find_map_same_key {A : Type} (key : A -> bool) (f : A -> A) (l : list A) :
  (forall x, key (f x) = key x) ->
  find key (map f l) = option_map f (find key l).
Proof.
  intros Hkey. induction l as [|a l IH]; simpl; [reflexivity|].
  rewrite Hkey. destruct (key a); [reflexivity | exact IH].
Qed.


(** A failed statement leaves the store as it was. *)
Lemma ignore_error_Err (e : pg_error) (db : Db) : ignore_error (Err e) db = db.
Proof. reflexivity. Qed.

(* ----------------------------------------------------------------- *)
(** *** Statements *)

Lemma update_sessions_frame auth sid p db db' :
  update_sessions auth sid p db = Ok db' ->
  session_players db' = session_players db
  /\ session_question_state db' = session_question_state db
  /\ session_answers db' = session_answers db
  /\ sessions_active_code_idx (sessions db') = true.
Proof.
  unfold update_sessions. intros H.
  destruct (negb _); [discriminate|].
  destruct (negb _) eqn:E; [discriminate|].
  injection H as <-. simpl. apply negb_false_iff in E. auto.
Qed.

Lemma insert_session_frame auth now gid hid code status idx timer bonus db s db' :
  insert_session auth now gid hid code status idx timer bonus db = Ok (s, db') ->
  session_players db' = session_players db
  /\ session_question_state db' = session_question_state db
  /\ session_answers db' = session_answers db
  /\ sessions db' = (sessions db ++ [s])%list
  /\ Session.code s = code
  /\ Session.status s = status
  /\ (is_active s = true ->
      existsb (fun s' => String.eqb (Session.code s') code && is_active s')
        (sessions db) = false).
Proof.
  unfold insert_session. intros H.
  destruct (negb (int4 idx && int4 timer)); [discriminate|].
  destruct (negb (owned_by auth _)); [discriminate|].
  match type of H with (if ?c then _ else _) = _ => destruct c eqn:E end;
    [discriminate|].
  injection H as <- <-. simpl. repeat split.
  intros Hact. unfold is_active in E at 1. simpl in E.
  unfold is_active in Hact. simpl in Hact. rewrite Hact in E. exact E.
Qed.

Lemma insert_session_player_frame now sid name color db p db' :
  insert_session_player now sid name color db = Ok (p, db') ->
  sessions db' = sessions db
  /\ session_players db' = (session_players db ++ [p])%list
  /\ session_question_state db' = session_question_state db
  /\ session_answers db' = session_answers db
  /\ SessionPlayer.display_name p = name
  /\ SessionPlayer.session_id p = sid
  /\ session_exists db sid
       (fun s => SessionStatus_eqb (Session.status s) lobby) = true.
Proof.
  unfold insert_session_player. intros H.
  destruct (negb _) eqn:E; [discriminate|].
  injection H as <- <-. simpl. apply negb_false_iff in E. auto 10.
Qed.

Lemma update_session_player_removed_frame auth pid b db db' :
  update_session_player_removed auth pid b db = Ok db' ->
  sessions db' = sessions db
  /\ session_question_state db' = session_question_state db
  /\ session_answers db' = session_answers db.
Proof. unfold update_session_player_removed. intros H. injection H as <-. auto. Qed.

Lemma insert_session_question_state_frame
    auth sid idx qid started ends paused locked results db db' :
  insert_session_question_state auth sid idx qid started ends paused locked
    results db = Ok db' ->
  sessions db' = sessions db
  /\ session_players db' = session_players db
  /\ session_answers db' = session_answers db
  /\ exists row,
       session_question_state db' = (session_question_state db ++ [row])%list
       /\ SessionQuestionState.is_locked row = locked
       /\ SessionQuestionState.show_results row = results
       /\ SessionQuestionState.ends_at row = ends.
Proof.
  unfold insert_session_question_state. intros H.
  destruct (negb (int4 idx)); [discriminate|].
  destruct (negb (session_exists _ _ _)); [discriminate|].
  destruct (existsb _ _); [discriminate|].
  injection H as <-. simpl. repeat split. eexists. repeat split.
Qed.

Lemma update_session_question_state_frame auth qid p db db' :
  update_session_question_state auth qid p db = Ok db' ->
  sessions db' = sessions db
  /\ session_players db' = session_players db
  /\ session_answers db' = session_answers db
  /\ session_question_state db'
     = map (fun q => if (SessionQuestionState.id q =? qid)%nat
                        && session_exists db (SessionQuestionState.session_id q)
                             (owned_by auth)
                     then patch_question_state p q else q)
         (session_question_state db).
Proof.
  unfold update_session_question_state. intros H.
  destruct (negb _); [discriminate|].
  injection H as <-. simpl. auto.
Qed.

Lemma insert_session_answer_frame
    now sid pid qid cid correct time_ms points db db' :
  insert_session_answer now sid pid qid cid correct time_ms points db = Ok db' ->
  sessions db' = sessions db
  /\ session_question_state db' = session_question_state db
  /\ existsb (same_answer_key sid pid qid) (session_answers db) = false
  /\ exists row,
       session_answers db' = (session_answers db ++ [row])%list
       /\ SessionAnswer.session_id row = sid
       /\ SessionAnswer.player_id row = pid
       /\ SessionAnswer.question_id row = qid
       /\ int4_of_number points = Some (SessionAnswer.points_awarded row)
       /\ session_players db'
          = update_player_score row (session_answers db') (session_players db).
Proof.
  unfold insert_session_answer. intros H.
  destruct (int4_of_number points) as [pts|]; [|discriminate].
  destruct (negb (int4 time_ms)); [discriminate|].
  destruct (negb (session_exists _ _ _)); [discriminate|].
  destruct (negb (existsb _ (session_players db))); [discriminate|].
  destruct (existsb _ (session_answers db)) eqn:E; [discriminate|].
  destruct (negb (int4 _)); [discriminate|].
  injection H as <-. simpl. repeat split. eexists. repeat split.
Qed.

(** The uniqueness constraint: a key already on record makes the
    insert fail. *)
Lemma insert_session_answer_duplicate
    now sid pid qid cid correct time_ms points db :
  existsb (same_answer_key sid pid qid) (session_answers db) = true ->
  exists e,
    insert_session_answer now sid pid qid cid correct time_ms points db = Err e.
Proof.
  unfold insert_session_answer. intros H. rewrite H.
  split_matches; eexists; reflexivity.
Qed.

(** The join policy: outside the lobby the insert fails. *)
Lemma insert_session_player_outside_lobby now sid name color db :
  session_exists db sid
    (fun s => SessionStatus_eqb (Session.status s) lobby) = false ->
  insert_session_player now sid name color db = Err rls_violation.
Proof. unfold insert_session_player. intros ->. reflexivity. Qed.

(* ----------------------------------------------------------------- *)
(** *** Cascading deletes *)

Lemma filter_all_kept {A : Type} (f : A -> bool) (l : list A) :
  (forall x, In x l -> f x = true) -> filter f l = l.
Proof.
  induction l as [|a l IH]; simpl; intros H; [reflexivity|].
  rewrite (H a (or_introl eq_refl)), IH; [reflexivity|].
  intros x Hx. apply H. now right.
Qed.

(** A delete that removes nothing in the authoring relations removes
    nothing here. *)
Lemma cascade_nothing db : cascade [] [] [] db = db.
Proof.
  unfold cascade, mem. cbn [existsb].
  assert (forall sid,
             existsb (fun s => (Session.id s =? sid)%nat && false) (sessions db)
             = false) as Hs.
  { intros sid. induction (sessions db) as [|a l IH]; simpl; [reflexivity|].
    now rewrite andb_false_r. }
  assert (forall pid,
             existsb (fun p => (SessionPlayer.id p =? pid)%nat
                               && existsb (fun s => (Session.id s
                                                     =? SessionPlayer.session_id p)%nat
                                                    && false) (sessions db))
               (session_players db) = false) as Hp.
  { intros pid. induction (session_players db) as [|a l IH]; simpl;
      [reflexivity|]. now rewrite Hs, andb_false_r. }
  rewrite !filter_all_kept; [now destruct db | | | |]; intros x _;
    now rewrite ?Hs, ?Hp.
Qed.

Lemma NoDup_map_filter {A B : Type} (g : A -> B) (p : A -> bool) (l : list A) :
  NoDup (map g l) -> NoDup (map g (filter p l)).
Proof.
  induction l as [|a l IH]; simpl; intros H; [constructor|].
  inversion H as [|? ? Ha Hl]; subst.
  destruct (p a); simpl; [|now apply IH].
  constructor; [|now apply IH].
  intros Hin. apply Ha. apply in_map_iff in Hin.
  destruct Hin as (x & Hx & Hin). apply filter_In in Hin.
  apply in_map_iff. exists x. tauto.
Qed.

Lemma Forall_filter {A : Type} (P : A -> Prop) (p : A -> bool) (l : list A) :
  Forall P l -> Forall P (filter p l).
Proof.
  intros H. apply Forall_forall. intros x Hx. apply filter_In in Hx.
  rewrite Forall_forall in H. now apply H.
Qed.

End StoreFacts.

(* ================================================================= *)
(** ** Handlers: which relations a run can touch *)

Section HandlerFacts.
Import Pg System.
Context {M : JsString.Methods}.

(** The relations a write to [sessions] leaves alone. *)
Lemma ignore_update_sessions auth sid p db :
  let db' := ignore_error (update_sessions auth sid p db) db in
  session_players db' = session_players db
  /\ session_question_state db' = session_question_state db
  /\ session_answers db' = session_answers db.
Proof.
  simpl. destruct (update_sessions auth sid p db) as [db'|e] eqn:E; simpl; auto.
  apply update_sessions_frame in E. tauto.
Qed.

Lemma ignore_update_question_state auth qid p db :
  let db' := ignore_error (update_session_question_state auth qid p db) db in
  sessions db' = sessions db
  /\ session_players db' = session_players db
  /\ session_answers db' = session_answers db
  /\ (lock_safe p -> set_ends_at p <> Some None ->
      question_state_change (session_question_state db)
        (session_question_state db')).
Proof.
  simpl. destruct (update_session_question_state auth qid p db) as [db'|e] eqn:E;
    simpl.
  - apply update_session_question_state_frame in E.
    destruct E as (Hs & Hp & Ha & Hq). repeat split; try assumption.
    intros Hsafe Hends. rewrite Hq. now apply change_update.
  - repeat split. intros _ _. apply change_none.
Qed.

Lemma activate_frame st sid index qid now db :
  let db' := HostRemotePage.activate st sid index qid now db in
  sessions db' = sessions db
  /\ session_players db' = session_players db
  /\ session_answers db' = session_answers db
  /\ question_state_change (session_question_state db)
       (session_question_state db').
Proof.
  simpl. unfold HostRemotePage.activate.
  match goal with |- context [ignore_error ?r _] => destruct r as [db'|e] eqn:E end;
    simpl.
  - apply insert_session_question_state_frame in E.
    destruct E as (Hs & Hp & Ha & row & Hq & Hl & Hr & He).
    repeat split; try assumption. rewrite Hq.
    apply change_insert; [assumption | assumption | now rewrite He].
  - repeat split. apply change_none.
Qed.

Lemma lock_safe_endQuestionEarly : lock_safe HostRemotePage.endQuestionEarly_patch.
Proof. right. split; reflexivity. Qed.

Lemma lock_safe_showLeaderboard : lock_safe HostRemotePage.showLeaderboard_patch.
Proof. left. split; reflexivity. Qed.

Lemma lock_safe_pauseResume st clk qid p :
  HostRemotePage.pauseResume_update st clk = Some (qid, p) -> lock_safe p.
Proof.
  unfold HostRemotePage.pauseResume_update. intros H.
  destruct (HostRemotePage.questionState st) as [qs|]; [|discriminate].
  destruct (HostRemotePage.session st); [|discriminate].
  destruct (SessionQuestionState.is_paused qs);
    injection H as _ <-; left; split; reflexivity.
Qed.

Lemma ends_kept_pauseResume st clk qid p :
  HostRemotePage.pauseResume_update st clk = Some (qid, p) ->
  set_ends_at p <> Some None.
Proof.
  unfold HostRemotePage.pauseResume_update. intros H.
  destruct (HostRemotePage.questionState st) as [qs|]; [|discriminate].
  destruct (HostRemotePage.session st); [|discriminate].
  destruct (SessionQuestionState.is_paused qs);
    injection H as _ <-; discriminate.
Qed.

Lemma quiet_refl db : quiet db db.
Proof. split; [reflexivity | apply change_none]. Qed.

Lemma startGame_quiet st db clk : quiet db (HostRemotePage.startGame st db clk).
Proof.
  unfold HostRemotePage.startGame.
  destruct (HostRemotePage.session st) as [s|]; [|apply quiet_refl].
  destruct (HostRemotePage.questions st) as [|q0 qs]; [apply quiet_refl|].
  match goal with
  | |- quiet _ (HostRemotePage.activate _ _ _ _ _ ?d) => set (db1 := d)
  end.
  destruct (ignore_update_sessions (HostRemotePage.user st) (Session.id s)
              (mkSessionPatch (Some playing) (Some 0) None) db)
    as (_ & Hq & Ha).
  destruct (activate_frame st (Session.id s) 0 q0 (clk 0%nat) db1)
    as (_ & _ & Ha' & Hq').
  fold db1 in Hq, Ha. split.
  - now rewrite Ha', Ha.
  - rewrite <- Hq. exact Hq'.
Qed.

Lemma pauseResume_quiet st db clk : quiet db (HostRemotePage.pauseResume st db clk).
Proof.
  unfold HostRemotePage.pauseResume.
  destruct (HostRemotePage.pauseResume_update st clk) as [[qid p]|] eqn:E;
    [|apply quiet_refl].
  destruct (ignore_update_question_state (HostRemotePage.user st) qid p db)
    as (_ & _ & Ha & Hq).
  split; [exact Ha|].
  apply Hq; [eapply lock_safe_pauseResume | eapply ends_kept_pauseResume];
    exact E.
Qed.

Lemma endQuestionEarly_quiet st db :
  quiet db (HostRemotePage.endQuestionEarly st db).
Proof.
  unfold HostRemotePage.endQuestionEarly.
  destruct (HostRemotePage.questionState st) as [qs|]; [|apply quiet_refl].
  destruct (HostRemotePage.session st); [|apply quiet_refl].
  destruct (ignore_update_question_state (HostRemotePage.user st)
              (SessionQuestionState.id qs)
              HostRemotePage.endQuestionEarly_patch db)
    as (_ & _ & Ha & Hq).
  split; [exact Ha|].
  apply Hq; [apply lock_safe_endQuestionEarly | discriminate].
Qed.

Lemma showLeaderboard_quiet st db :
  quiet db (HostRemotePage.showLeaderboard st db).
Proof.
  unfold HostRemotePage.showLeaderboard.
  destruct (HostRemotePage.questionState st) as [qs|]; [|apply quiet_refl].
  destruct (HostRemotePage.session st); [|apply quiet_refl].
  destruct (ignore_update_question_state (HostRemotePage.user st)
              (SessionQuestionState.id qs)
              HostRemotePage.showLeaderboard_patch db)
    as (_ & _ & Ha & Hq).
  split; [exact Ha|].
  apply Hq; [apply lock_safe_showLeaderboard | discriminate].
Qed.

Lemma update_sessions_quiet auth sid p db :
  quiet db (ignore_error (update_sessions auth sid p db) db).
Proof.
  destruct (ignore_update_sessions auth sid p db) as (_ & Hq & Ha).
  split; [exact Ha | rewrite Hq; apply change_none].
Qed.

Lemma nextQuestion_quiet st db clk :
  quiet db (HostRemotePage.nextQuestion st db clk).
Proof.
  unfold HostRemotePage.nextQuestion.
  destruct (HostRemotePage.session st) as [s|]; [|apply quiet_refl].
  destruct (HostRemotePage.questions st) as [|q0 qs] eqn:Eqs; [apply quiet_refl|].
  destruct (_ <=? _); [apply update_sessions_quiet|].
  match goal with
  | |- quiet _ (match _ with Some _ => _ | None => ?d end) => set (db1 := d)
  end.
  assert (quiet db db1) as [Ha Hq] by apply update_sessions_quiet.
  destruct (HostRemotePage.question_at _ _) as [q|]; [|split; assumption].
  destruct (activate_frame st (Session.id s)
              (Session.current_question_index s + 1) q (clk 0%nat) db1)
    as (_ & _ & Ha' & Hq').
  assert (session_question_state db1 = session_question_state db) as Hsame.
  { unfold db1.
    now destruct (ignore_update_sessions (HostRemotePage.user st)
                    (Session.id s)
                    (mkSessionPatch None
                       (Some (Session.current_question_index s + 1)) None) db)
      as (_ & ? & _). }
  split.
  - now rewrite Ha', Ha.
  - rewrite <- Hsame. exact Hq'.
Qed.

Lemma kickPlayer_quiet playerId st db :
  quiet db (HostRemotePage.kickPlayer playerId st db).
Proof.
  unfold HostRemotePage.kickPlayer.
  destruct (HostRemotePage.session st); [|apply quiet_refl].
  unfold update_session_player_removed. simpl.
  split; [reflexivity | apply change_none].
Qed.

Lemma endGame_quiet st db clk : quiet db (HostRemotePage.endGame st db clk).
Proof.
  unfold HostRemotePage.endGame.
  destruct (HostRemotePage.session st); [|apply quiet_refl].
  apply update_sessions_quiet.
Qed.

Lemma handleStartSession_quiet st db g now :
  quiet db (snd (fst (GamePage.handleStartSession st db g now))).
Proof.
  unfold GamePage.handleStartSession.
  destruct (GamePage.game st) as [gm|]; [|apply quiet_refl].
  destruct (GamePage.questions st) as [|q0 qs]; [apply quiet_refl|].
  destruct (GamePage.user st) as [u|]; [|apply quiet_refl].
  destruct (GamePage.allocate_code db g) as [code g'].
  destruct (insert_session _ _ _ _ _ _ _ _ _ _) as [[s db']|e] eqn:E;
    simpl; [|apply quiet_refl].
  apply insert_session_frame in E. destruct E as (_ & Hq & Ha & _).
  split; [exact Ha | rewrite Hq; apply change_none].
Qed.

Lemma handleJoin_quiet st db now st' db' :
  PlayerSessionPage.handleJoin st db now = Some (st', db') -> quiet db db'.
Proof.
  unfold PlayerSessionPage.handleJoin. intros H.
  destruct (PlayerSessionPage.session st) as [s|];
    [|injection H as _ <-; apply quiet_refl].
  destruct (String.eqb _ _); [injection H as _ <-; apply quiet_refl|].
  destruct (PlayerSessionPage.finalName_of _ _) as [name|]; [|discriminate].
  destruct (insert_session_player _ _ _ _ _) as [[p db1]|e] eqn:E;
    injection H as _ <-; [|apply quiet_refl].
  apply insert_session_player_frame in E. destruct E as (_ & _ & Hq & Ha & _).
  split; [exact Ha | rewrite Hq; apply change_none].
Qed.

(** What [handleAnswer] does to the store: nothing, or one new answer
    under a key not yet on record, with the player's score recomputed
    from the log. *)
Lemma handleAnswer_store choiceId st db clk now :
  let db' := snd (PlayerSessionPage.handleAnswer choiceId st db clk now) in
  db' = db
  \/ exists sub row,
       PlayerSessionPage.submission st choiceId clk = Some sub
       /\ session_answers db' = (session_answers db ++ [row])%list
       /\ answer_key row
          = (PlayerSessionPage.sub_session_id sub,
             PlayerSessionPage.sub_player_id sub,
             PlayerSessionPage.sub_question_id sub)
       /\ ~ In (answer_key row) (map answer_key (session_answers db))
       /\ int4_of_number (PlayerSessionPage.sub_points sub)
          = Some (SessionAnswer.points_awarded row)
       /\ session_question_state db' = session_question_state db
       /\ sessions db' = sessions db
       /\ session_players db'
          = update_player_score row (session_answers db') (session_players db).
Proof.
  simpl. unfold PlayerSessionPage.handleAnswer.
  destruct (PlayerSessionPage.submission st choiceId clk) as [sub|] eqn:Esub;
    [|now left].
  simpl.
  destruct (insert_session_answer _ _ _ _ _ _ _ _ _) as [db'|e] eqn:E;
    simpl; [|now left].
  right. apply insert_session_answer_frame in E.
  destruct E as (Hs & Hq & Hfresh & row & Ha & Hsid & Hpid & Hqid & Hpts & Hpl).
  exists sub, row. repeat split; try assumption.
  - unfold answer_key. now rewrite Hsid, Hpid, Hqid.
  - intros Hin. apply in_map_iff in Hin. destruct Hin as [a [Hkey Hina]].
    assert (existsb (same_answer_key (PlayerSessionPage.sub_session_id sub)
                       (PlayerSessionPage.sub_player_id sub)
                       (PlayerSessionPage.sub_question_id sub))
              (session_answers db) = true) as Hex.
    { apply existsb_exists. exists a. split; [assumption|].
      unfold answer_key in Hkey. rewrite Hsid, Hpid, Hqid in Hkey.
      injection Hkey as H1 H2 H3.
      unfold same_answer_key. now rewrite H1, H2, H3, !Nat.eqb_refl. }
    congruence.
Qed.

Lemma handleAnswer_quiet_question_state choiceId st db clk now :
  question_state_change (session_question_state db)
    (session_question_state
       (snd (PlayerSessionPage.handleAnswer choiceId st db clk now))).
Proof.
  destruct (handleAnswer_store choiceId st db clk now)
    as [->|(sub & row & _ & _ & _ & _ & _ & Hq & _)].
  - apply change_none.
  - rewrite Hq. apply change_none.
Qed.

End HandlerFacts.

(* ================================================================= *)
(** ** Handlers as sequences of statements *)

Ltac invert_checks H :=
  repeat match type of H with
         | context [match ?c with _ => _ end] => destruct c eqn:?
         end;
  try discriminate H.

Section StatementFacts.
Import Pg System Statements.
Context {M : JsString.Methods}.

Lemma insert_session_inv auth now gid hid code status idx timer bonus db s db' :
  insert_session auth now gid hid code status idx timer bonus db = Ok (s, db') ->
  s = Session.mk (next_uuid db) gid hid code status idx timer bonus now None
  /\ db' = mk (sessions db ++ [s])%list (session_players db)
             (session_question_state db) (session_answers db)
             (S (next_uuid db)).
Proof.
  unfold insert_session. intros H. invert_checks H.
  injection H as <- <-. split; reflexivity.
Qed.

Lemma update_sessions_inv auth sid p db db' :
  update_sessions auth sid p db = Ok db' ->
  db' = mk (map (fun s => if (Session.id s =? sid)%nat && owned_by auth s
                          then patch_session p s else s) (sessions db))
           (session_players db) (session_question_state db)
           (session_answers db) (next_uuid db).
Proof.
  unfold update_sessions. intros H. invert_checks H.
  all: injection H as <-; reflexivity.
Qed.

Lemma insert_session_player_inv now sid name color db p db' :
  insert_session_player now sid name color db = Ok (p, db') ->
  p = SessionPlayer.mk (next_uuid db) sid name color 0 false now
  /\ db' = mk (sessions db) (session_players db ++ [p])%list
             (session_question_state db) (session_answers db)
             (S (next_uuid db))
  /\ session_exists db sid
       (fun s => SessionStatus_eqb (Session.status s) lobby) = true.
Proof.
  unfold insert_session_player. intros H.
  destruct (session_exists db sid _) eqn:E; simpl in H; [|discriminate].
  injection H as <- <-. repeat split.
Qed.

Lemma update_session_player_removed_inv auth pid b db db' :
  update_session_player_removed auth pid b db = Ok db' ->
  db' = mk (sessions db)
           (map (fun p => if (SessionPlayer.id p =? pid)%nat
                             && session_exists db (SessionPlayer.session_id p)
                                  (owned_by auth)
                          then set_is_removed b p else p) (session_players db))
           (session_question_state db) (session_answers db) (next_uuid db).
Proof. unfold update_session_player_removed. now intros [= <-]. Qed.

Lemma insert_session_question_state_inv
    auth sid idx qid started ends paused locked results db db' :
  insert_session_question_state auth sid idx qid started ends paused locked
    results db = Ok db' ->
  db' = mk (sessions db) (session_players db)
          (session_question_state db
           ++ [SessionQuestionState.mk (next_uuid db) sid idx qid started ends
                 paused None locked results false])%list
          (session_answers db) (S (next_uuid db))
  /\ session_exists db sid (owned_by auth) = true
  /\ existsb (fun q => (SessionQuestionState.session_id q =? sid)%nat
                       && (SessionQuestionState.question_index q =? idx))
       (session_question_state db) = false.
Proof.
  unfold insert_session_question_state. intros H. invert_checks H.
  injection H as <-.
  repeat split; try assumption.
  match goal with
  | E : negb (session_exists _ _ _) = false |- _ =>
      now apply negb_false_iff in E
  end.
Qed.

Lemma update_session_question_state_inv auth qid p db db' :
  update_session_question_state auth qid p db = Ok db' ->
  db' = mk (sessions db) (session_players db)
          (map (fun q => if (SessionQuestionState.id q =? qid)%nat
                            && session_exists db
                                 (SessionQuestionState.session_id q)
                                 (owned_by auth)
                         then patch_question_state p q else q)
             (session_question_state db))
          (session_answers db) (next_uuid db).
Proof.
  unfold update_session_question_state. intros H. invert_checks H.
  all: injection H as <-; reflexivity.
Qed.

Lemma insert_session_answer_inv
    now sid pid qid cid correct time_ms points db db' :
  insert_session_answer now sid pid qid cid correct time_ms points db = Ok db' ->
  exists pts,
    let row := SessionAnswer.mk (next_uuid db) sid pid qid cid now correct
                 time_ms pts in
    int4_of_number points = Some pts
    /\ db' = mk (sessions db)
               (update_player_score row (session_answers db ++ [row])%list
                  (session_players db))
               (session_question_state db)
               (session_answers db ++ [row])%list (S (next_uuid db))
    /\ session_exists db sid
         (fun s => SessionStatus_eqb (Session.status s) playing) = true
    /\ existsb (fun p => (SessionPlayer.id p =? pid)%nat) (session_players db)
       = true
    /\ existsb (same_answer_key sid pid qid) (session_answers db) = false.
Proof.
  unfold insert_session_answer. intros H.
  destruct (int4_of_number points) as [pts|]; [|discriminate].
  exists pts. cbv zeta in *.
  destruct (negb (int4 time_ms)); [discriminate|].
  destruct (session_exists db sid _) eqn:E1; simpl in H; [|discriminate].
  destruct (existsb (fun p => (SessionPlayer.id p =? pid)%nat) _) eqn:E2;
    simpl in H; [|discriminate].
  destruct (existsb (same_answer_key sid pid qid) _) eqn:E3; [discriminate|].
  destruct (negb (int4 _)); [discriminate|].
  injection H as <-. repeat split.
Qed.

Lemma statements_trans db1 db2 db3 :
  statements db1 db2 -> statements db2 db3 -> statements db1 db3.
Proof.
  intros H12 H23. revert H12. induction H23; intros H12; [assumption|].
  eapply statements_step; [apply IHstatements; assumption | eassumption].
Qed.

Lemma writes_trans db1 db2 db3 :
  writes db1 db2 -> writes db2 db3 -> writes db1 db3.
Proof.
  intros H12 H23. revert H12. induction H23; intros H12; [assumption|].
  eapply writes_step; [apply IHwrites; assumption | eassumption].
Qed.

Lemma writes_one db db' : write db db' -> writes db db'.
Proof. intros H. eapply writes_step; [apply writes_refl | exact H]. Qed.

Lemma writes_statements db db' : writes db db' -> statements db db'.
Proof.
  intros H. induction H; [apply statements_refl|].
  eapply statements_step; [eassumption | now apply written].
Qed.

(** A write whose outcome is not looked at is one statement or
    none. *)
Lemma ignore_writes (r : result Db) (db : Db) :
  (forall db', r = Ok db' -> write db db') ->
  writes db (ignore_error r db).
Proof.
  intros H. destruct r as [db'|e]; simpl.
  - apply writes_one. now apply H.
  - apply writes_refl.
Qed.

Lemma activate_writes st sid index qid now db :
  writes db (HostRemotePage.activate st sid index qid now db).
Proof.
  unfold HostRemotePage.activate. apply ignore_writes.
  intros db' H. eapply insert_session_question_state_ok; exact H.
Qed.

Lemma update_sessions_writes auth sid p db :
  page_session_patch p ->
  writes db (ignore_error (update_sessions auth sid p db) db).
Proof.
  intros Hp. apply ignore_writes. intros db' H.
  eapply update_sessions_ok; eassumption.
Qed.

Lemma update_question_state_writes auth qid p db :
  lock_safe p ->
  writes db (ignore_error (update_session_question_state auth qid p db) db).
Proof.
  intros Hp. apply ignore_writes. intros db' H.
  eapply update_session_question_state_ok; eassumption.
Qed.

(** The handlers of the live session are sequences of accepted
    inserts and updates. *)
Lemma handleStartSession_writes st db g now :
  writes db (snd (fst (GamePage.handleStartSession st db g now))).
Proof.
  unfold GamePage.handleStartSession.
  destruct (GamePage.game st) as [gm|]; [|apply writes_refl].
  destruct (GamePage.questions st) as [|q0 qs]; [apply writes_refl|].
  destruct (GamePage.user st) as [u|]; [|apply writes_refl].
  destruct (GamePage.allocate_code db g) as [code g'].
  destruct (insert_session _ _ _ _ _ _ _ _ _ _) as [[s db']|e] eqn:E; simpl.
  - apply writes_one. eapply insert_session_ok; exact E.
  - apply writes_refl.
Qed.

Lemma handleJoin_writes st db now st' db' :
  PlayerSessionPage.handleJoin st db now = Some (st', db') -> writes db db'.
Proof.
  unfold PlayerSessionPage.handleJoin. intros H.
  destruct (PlayerSessionPage.session st) as [s|];
    [|injection H as _ <-; apply writes_refl].
  destruct (String.eqb _ _); [injection H as _ <-; apply writes_refl|].
  destruct (PlayerSessionPage.finalName_of _ _) as [finalName|];
    [|discriminate].
  destruct (insert_session_player _ _ _ _ _) as [[p db1]|e] eqn:E.
  - injection H as _ <-. apply writes_one.
    eapply insert_session_player_ok; exact E.
  - injection H as _ <-. apply writes_refl.
Qed.

Lemma handleAnswer_writes choiceId st db clk now :
  writes db (snd (PlayerSessionPage.handleAnswer choiceId st db clk now)).
Proof.
  unfold PlayerSessionPage.handleAnswer.
  destruct (PlayerSessionPage.submission st choiceId clk) as [sub|]; simpl;
    [|apply writes_refl].
  apply ignore_writes. intros db' E.
  eapply insert_session_answer_ok; exact E.
Qed.

Lemma startGame_writes st db clk :
  writes db (HostRemotePage.startGame st db clk).
Proof.
  unfold HostRemotePage.startGame.
  destruct (HostRemotePage.session st) as [s|]; [|apply writes_refl].
  destruct (HostRemotePage.questions st) as [|q0 qs]; [apply writes_refl|].
  eapply writes_trans; [|apply activate_writes].
  apply update_sessions_writes. constructor.
Qed.

Lemma pauseResume_writes st db clk :
  writes db (HostRemotePage.pauseResume st db clk).
Proof.
  unfold HostRemotePage.pauseResume.
  destruct (HostRemotePage.pauseResume_update st clk) as [[qid p]|] eqn:E;
    [|apply writes_refl].
  apply update_question_state_writes.
  eapply lock_safe_pauseResume; exact E.
Qed.

Lemma endQuestionEarly_writes st db :
  writes db (HostRemotePage.endQuestionEarly st db).
Proof.
  unfold HostRemotePage.endQuestionEarly.
  destruct (HostRemotePage.questionState st); [|apply writes_refl].
  destruct (HostRemotePage.session st); [|apply writes_refl].
  apply update_question_state_writes, lock_safe_endQuestionEarly.
Qed.

Lemma showLeaderboard_writes st db :
  writes db (HostRemotePage.showLeaderboard st db).
Proof.
  unfold HostRemotePage.showLeaderboard.
  destruct (HostRemotePage.questionState st); [|apply writes_refl].
  destruct (HostRemotePage.session st); [|apply writes_refl].
  apply update_question_state_writes, lock_safe_showLeaderboard.
Qed.

Lemma nextQuestion_writes st db clk :
  writes db (HostRemotePage.nextQuestion st db clk).
Proof.
  unfold HostRemotePage.nextQuestion.
  destruct (HostRemotePage.session st) as [s|]; [|apply writes_refl].
  destruct (HostRemotePage.questions st) as [|q0 qs] eqn:Eq;
    [apply writes_refl|].
  destruct (_ <=? _).
  - apply update_sessions_writes. constructor.
  - destruct (HostRemotePage.question_at _ _).
    + eapply writes_trans; [|apply activate_writes].
      apply update_sessions_writes. constructor.
    + apply update_sessions_writes. constructor.
Qed.

Lemma kickPlayer_writes playerId st db :
  writes db (HostRemotePage.kickPlayer playerId st db).
Proof.
  unfold HostRemotePage.kickPlayer.
  destruct (HostRemotePage.session st); [|apply writes_refl].
  apply ignore_writes. intros db' E.
  eapply update_session_player_removed_ok; exact E.
Qed.

Lemma endGame_writes st db clk :
  writes db (HostRemotePage.endGame st db clk).
Proof.
  unfold HostRemotePage.endGame.
  destruct (HostRemotePage.session st); [|apply writes_refl].
  apply update_sessions_writes. constructor.
Qed.

(** The deletes of the game page are one delete statement or none. *)
Lemma handleDeleteGame_statements gameId own questions choices db :
  statements db (GamePage.handleDeleteGame gameId own questions choices db).
Proof.
  unfold GamePage.handleDeleteGame. destruct own; [|apply statements_refl].
  eapply statements_step; [apply statements_refl | apply deleted].
Qed.

Lemma handleRemoveQuestion_statements qIdx own choices st db :
  statements db (GamePage.handleRemoveQuestion qIdx own choices st db).
Proof.
  unfold GamePage.handleRemoveQuestion.
  destruct (nth_error _ _); [|apply statements_refl].
  destruct own; [|apply statements_refl].
  eapply statements_step; [apply statements_refl | apply deleted].
Qed.

Lemma handleRegenerateQuestion_statements qIdx generated own choices st db :
  statements db
    (GamePage.handleRegenerateQuestion qIdx generated own choices st db).
Proof.
  unfold GamePage.handleRegenerateQuestion.
  destruct (GamePage.game st); [|apply statements_refl].
  destruct generated; [|apply statements_refl].
  destruct (nth_error _ _); [|apply statements_refl].
  destruct own; [|apply statements_refl].
  eapply statements_step; [apply statements_refl | apply deleted].
Qed.

(** Every handler run is a sequence of accepted statements. *)
Lemma step_statements db db' : step db db' -> statements db db'.
Proof.
  intros H. destruct H.
  - apply writes_statements, handleStartSession_writes.
  - eapply writes_statements, handleJoin_writes; eassumption.
  - apply writes_statements, handleAnswer_writes.
  - apply writes_statements, startGame_writes.
  - apply writes_statements, pauseResume_writes.
  - apply writes_statements, endQuestionEarly_writes.
  - apply writes_statements, showLeaderboard_writes.
  - apply writes_statements, nextQuestion_writes.
  - apply writes_statements, kickPlayer_writes.
  - apply writes_statements, endGame_writes.
  - apply handleDeleteGame_statements.
  - apply handleRemoveQuestion_statements.
  - apply handleRegenerateQuestion_statements.
Qed.

Lemma steps_statements db db' : steps db db' -> statements db db'.
Proof.
  intros H. induction H; [apply statements_refl|].
  eapply statements_trans; [eassumption | now apply step_statements].
Qed.

End StatementFacts.

(* ================================================================= *)
(** ** Keys along a run *)

Section KeyInvariants.
Import Pg System Statements.
Context {M : JsString.Methods}.

Lemma map_key_cond {A K : Type} (key : A -> K) (sel : A -> bool) (f : A -> A)
    (l : list A) :
  (forall x, key (f x) = key x) ->
  map key (map (fun x => if sel x then f x else x) l) = map key l.
Proof.
  intros Hk. induction l as [|x l IH]; simpl; [reflexivity|].
  rewrite IH. destruct (sel x); [now rewrite Hk | reflexivity].
Qed.

Lemma Forall_map_cond {A : Type} (P : A -> Prop) (sel : A -> bool) (f : A -> A)
    (l : list A) :
  (forall x, P x -> P (f x)) ->
  Forall P l -> Forall P (map (fun x => if sel x then f x else x) l).
Proof.
  intros Hf H. induction H; simpl; constructor; [|assumption].
  destruct (sel x); auto.
Qed.

Lemma Forall_below_S {A : Type} (key : A -> nat) (n : nat) (l : list A) :
  Forall (fun x => (key x < n)%nat) l -> Forall (fun x => (key x < S n)%nat) l.
Proof. apply Forall_impl. intros; lia. Qed.

Lemma NoDup_snoc_fresh {A : Type} (key : A -> nat) (n : nat) (l : list A)
    (y : A) :
  Forall (fun x => (key x < n)%nat) l -> NoDup (map key l) -> key y = n ->
  NoDup (map key (l ++ [y])).
Proof.
  intros Hb Hn Hy. rewrite map_app. simpl. apply NoDup_snoc; [assumption|].
  intros Hin. apply in_map_iff in Hin. destruct Hin as (x & Hx & Hin).
  rewrite Forall_forall in Hb. specialize (Hb x Hin). lia.
Qed.

Lemma write_well_keyed db db' :
  write db db' -> well_keyed db -> well_keyed db'.
Proof.
  intros Hst (Hs & Hsn & Hp & Hpn & Ha & Hq & Hqn & Hai). destruct Hst as
    [auth now gid hid code timer bonus db s db' H
    |auth sid p db db' Hpatch H
    |now sid name color db p db' H
    |auth pid db db' H
    |auth sid idx qid started ends db db' H
    |auth qid p db db' Hsafe H
    |now sid pid qid cid correct time_ms points db db' H].
  - apply insert_session_inv in H. destruct H as [Es ->].
    unfold well_keyed; simpl. repeat split; try now apply Forall_below_S.
    + apply Forall_app. split; [now apply Forall_below_S|].
      constructor; [rewrite Es; simpl; lia | constructor].
    + apply (NoDup_snoc_fresh Session.id (next_uuid db)); try assumption.
      now rewrite Es.
    + assumption.
    + assumption.
  - apply update_sessions_inv in H. subst db'.
    unfold well_keyed; simpl. repeat split; try assumption.
    + apply Forall_map_cond; [|assumption]. intros x Hx. exact Hx.
    + rewrite map_key_cond; [assumption | reflexivity].
  - apply insert_session_player_inv in H. destruct H as (Ep & -> & _).
    unfold well_keyed; simpl. repeat split; try now apply Forall_below_S.
    + assumption.
    + apply Forall_app. split; [now apply Forall_below_S|].
      constructor; [rewrite Ep; simpl; lia | constructor].
    + apply (NoDup_snoc_fresh SessionPlayer.id (next_uuid db)); try assumption.
      now rewrite Ep.
    + assumption.
  - apply update_session_player_removed_inv in H. subst db'.
    unfold well_keyed; simpl. repeat split; try assumption.
    + apply Forall_map_cond; [|assumption]. intros x Hx. exact Hx.
    + rewrite map_key_cond; [assumption | reflexivity].
  - apply insert_session_question_state_inv in H. destruct H as (-> & _).
    unfold well_keyed; simpl. repeat split; try assumption;
      try now apply Forall_below_S.
    + apply Forall_app. split; [now apply Forall_below_S|].
      constructor; [simpl; lia | constructor].
    + now apply (NoDup_snoc_fresh SessionQuestionState.id (next_uuid db)).
  - apply update_session_question_state_inv in H. subst db'.
    unfold well_keyed; simpl. repeat split; try assumption.
    + apply Forall_map_cond; [|assumption]. intros x Hx.
      now destruct x.
    + rewrite map_key_cond; [assumption|]. intros x. now destruct x.
  - apply insert_session_answer_inv in H.
    destruct H as (pts & _ & -> & _ & Hfk & _).
    unfold well_keyed, update_player_score; simpl. repeat split;
      try now apply Forall_below_S.
    + assumption.
    + apply Forall_map_cond; [intros x Hx; exact Hx|].
      now apply Forall_below_S.
    + rewrite map_key_cond; [assumption | reflexivity].
    + apply Forall_app. split; [now apply Forall_below_S|].
      constructor; [|constructor]. simpl.
      apply existsb_exists in Hfk. destruct Hfk as (p & Hin & Hid).
      apply Nat.eqb_eq in Hid. rewrite Forall_forall in Hp.
      specialize (Hp p Hin). lia.
    + assumption.
    + apply Forall_app. split; [now apply Forall_below_S|].
      constructor; [simpl; lia | constructor].
Qed.

(** A delete takes rows away and hands out no key. *)
Lemma cascade_well_keyed games questions choices db :
  well_keyed db -> well_keyed (cascade games questions choices db).
Proof.
  intros (Hs & Hsn & Hp & Hpn & Ha & Hq & Hqn & Hai).
  unfold well_keyed, cascade; simpl.
  repeat split;
    first [ now apply Forall_filter | now apply NoDup_map_filter ].
Qed.

Lemma statement_well_keyed db db' :
  statement db db' -> well_keyed db -> well_keyed db'.
Proof.
  intros [d d' Hw|games questions choices d].
  - now apply write_well_keyed.
  - apply cascade_well_keyed.
Qed.

(** What every statement preserves, every run preserves. *)
Lemma statements_invariant (P : Db -> Prop) :
  (forall db db', statement db db' -> P db -> P db') ->
  forall db db', statements db db' -> P db -> P db'.
Proof.
  intros Hstep db db' H. induction H as [|db1 db2 db3 H12 IH H23]; [auto|].
  intros Hinit. eapply Hstep; [eassumption|]. now apply IH.
Qed.


Lemma well_keyed_empty : well_keyed Pg.empty.
Proof. unfold well_keyed; simpl. repeat split; constructor. Qed.

Lemma reachable_well_keyed db : reachable db -> well_keyed db.
Proof.
  intros H. apply steps_statements in H.
  exact (statements_invariant well_keyed statement_well_keyed _ _ H
           well_keyed_empty).
Qed.


Lemma write_next_uuid db db' :
  write db db' -> (next_uuid db <= next_uuid db')%nat.
Proof.
  intros Hst. destruct Hst as
    [auth now gid hid code timer bonus db s0 db' H
    |auth sid0 p db db' Hpatch H
    |now sid0 name color db p db' H
    |auth pid db db' H
    |auth sid0 idx qid started ends db db' H
    |auth qid p db db' Hsafe H
    |now sid0 pid qid cid correct time_ms points db db' H].
  - apply insert_session_inv in H. destruct H as [_ ->]. simpl. lia.
  - apply update_sessions_inv in H. subst db'. simpl. lia.
  - apply insert_session_player_inv in H. destruct H as (_ & -> & _).
    simpl. lia.
  - apply update_session_player_removed_inv in H. subst db'. simpl. lia.
  - apply insert_session_question_state_inv in H. destruct H as (-> & _).
    simpl. lia.
  - apply update_session_question_state_inv in H. subst db'. simpl. lia.
  - apply insert_session_answer_inv in H. destruct H as (pts & _ & -> & _).
    simpl. lia.
Qed.

Lemma statement_next_uuid db db' :
  statement db db' -> (next_uuid db <= next_uuid db')%nat.
Proof.
  intros [d d' Hw|games questions choices d];
    [now apply write_next_uuid | simpl; lia].
Qed.

Lemma statements_next_uuid db db' :
  statements db db' -> (next_uuid db <= next_uuid db')%nat.
Proof.
  intros H. induction H as [|db1 db2 db3 _ IH H23]; [lia|].
  apply statement_next_uuid in H23. lia.
Qed.

(** With distinct keys, the row [find] returns is the only row of
    that key. *)
Lemma NoDup_key_find {A : Type} (key : A -> nat) (l : list A) (k : nat)
    (x y : A) :
  NoDup (map key l) ->
  find (fun r => (key r =? k)%nat) l = Some x ->
  In y l -> key y = k -> y = x.
Proof.
  induction l as [|a l IH]; simpl; intros Hn Hf Hin Hk; [destruct Hin|].
  inversion Hn as [|? ? Hnotin Hn']; subst.
  destruct (key a =? key y)%nat eqn:E.
  - injection Hf as <-. destruct Hin as [->|Hin]; [reflexivity|].
    apply Nat.eqb_eq in E. exfalso. apply Hnotin. rewrite E.
    now apply in_map.
  - destruct Hin as [->|Hin]; [rewrite Nat.eqb_refl in E; discriminate|].
    now apply IH.
Qed.

(** With distinct keys, a row of the list is the row [find] returns
    for its key. *)
Lemma NoDup_key_found {A : Type} (key : A -> nat) (l : list A) (x : A) :
  NoDup (map key l) -> In x l ->
  find (fun r => (key r =? key x)%nat) l = Some x.
Proof.
  intros Hn Hin.
  destruct (find (fun r => (key r =? key x)%nat) l) as [y|] eqn:E.
  - f_equal. symmetry.
    exact (NoDup_key_find key l (key x) y x Hn E Hin eq_refl).
  - apply (find_none _ _ E) in Hin. rewrite Nat.eqb_refl in Hin.
    discriminate.
Qed.

(** Filtering a list of distinct keys: [find] returns the same row or
    none. *)
Lemma find_filter_key {A : Type} (key : A -> nat) (kept : A -> bool)
    (l : list A) (k : nat) (x : A) :
  NoDup (map key l) ->
  find (fun r => (key r =? k)%nat) (filter kept l) = Some x ->
  find (fun r => (key r =? k)%nat) l = Some x.
Proof.
  intros Hn Hf. apply find_some in Hf. destruct Hf as [Hin Hk].
  apply filter_In in Hin. destruct Hin as [Hin _].
  apply Nat.eqb_eq in Hk. subst k. now apply NoDup_key_found.
Qed.



End KeyInvariants.

(* ================================================================= *)
(** ** Invariants of the reachable stores *)

Section Invariants.
Import Pg System Statements.
Context {M : JsString.Methods}.

Lemma steps_trans db1 db2 db3 : steps db1 db2 -> steps db2 db3 -> steps db1 db3.
Proof.
  intros H12 H23. induction H23 as [|db2 db3 db4 _ IH Hstep]; [assumption|].
  eapply steps_step; [apply IH; assumption | exact Hstep].
Qed.

Lemma cascade_question_state games questions choices db :
  question_state_change (session_question_state db)
    (session_question_state (cascade games questions choices db)).
Proof. unfold cascade; simpl. apply change_delete. Qed.

(** Every handler run changes the question-state relation by one
    statement at most. *)
Lemma step_question_state db db' :
  step db db' ->
  question_state_change (session_question_state db) (session_question_state db').
Proof.
  intros H. destruct H.
  - apply handleStartSession_quiet.
  - eapply handleJoin_quiet; eassumption.
  - apply handleAnswer_quiet_question_state.
  - apply startGame_quiet.
  - apply pauseResume_quiet.
  - apply endQuestionEarly_quiet.
  - apply showLeaderboard_quiet.
  - apply nextQuestion_quiet.
  - apply kickPlayer_quiet.
  - apply endGame_quiet.
  - unfold GamePage.handleDeleteGame.
    destruct own; [apply cascade_question_state | apply change_none].
  - unfold GamePage.handleRemoveQuestion.
    destruct (nth_error _ _); [|apply change_none].
    destruct own; [apply cascade_question_state | apply change_none].
  - unfold GamePage.handleRegenerateQuestion.
    destruct (GamePage.game st); [|apply change_none].
    destruct generated; [|apply change_none].
    destruct (nth_error _ _); [|apply change_none].
    destruct own; [apply cascade_question_state | apply change_none].
Qed.

(** An answer of the store after a statement was there before it, as
    it is, or is the row the statement has inserted under the next
    key. *)
Lemma statement_answers db db' a :
  statement db db' ->
  In a (session_answers db') ->
  In a (session_answers db) \/ SessionAnswer.id a = next_uuid db.
Proof.
  intros Hst Hin. destruct Hst as [d d' Hw|games questions choices d].
  - destruct Hw as
      [auth now gid hid code timer bonus db s0 db' H
      |auth sid0 p db db' Hpatch H
      |now sid0 name color db p db' H
      |auth pid db db' H
      |auth sid0 idx qid started ends db db' H
      |auth qid p db db' Hsafe H
      |now sid0 pid qid cid correct time_ms points db db' H].
    + apply insert_session_inv in H. destruct H as [_ ->]. now left.
    + apply update_sessions_inv in H. subst db'. now left.
    + apply insert_session_player_inv in H. destruct H as (_ & -> & _).
      now left.
    + apply update_session_player_removed_inv in H. subst db'. now left.
    + apply insert_session_question_state_inv in H. destruct H as (-> & _).
      now left.
    + apply update_session_question_state_inv in H. subst db'. now left.
    + apply insert_session_answer_inv in H. destruct H as (pts & _ & -> & _).
      simpl in Hin. apply in_app_or in Hin.
      destruct Hin as [Hin|[<-|[]]]; [now left | now right].
  - unfold cascade in Hin; simpl in Hin. apply filter_In in Hin. tauto.
Qed.

(** No run rewrites a recorded answer: an answer of the later store is
    an answer of the earlier one, field by field, or was inserted in
    between. *)
Lemma steps_answers_kept db db' a :
  steps db db' ->
  In a (session_answers db') ->
  In a (session_answers db) \/ (next_uuid db <= SessionAnswer.id a)%nat.
Proof.
  intros H. apply steps_statements in H.
  induction H as [db|db1 db2 db3 H12 IH H23]; intros Hin; [now left|].
  destruct (statement_answers db2 db3 a H23 Hin) as [Hin2|Hid].
  - now apply IH.
  - right. apply statements_next_uuid in H12. lia.
Qed.

Lemma statement_answers_unique db db' :
  statement db db' -> answers_unique db -> answers_unique db'.
Proof.
  unfold answers_unique.
  intros Hst Hu. destruct Hst as [d d' Hw|games questions choices d].
  - destruct Hw as
      [auth now gid hid code timer bonus db s0 db' H
      |auth sid0 p db db' Hpatch H
      |now sid0 name color db p db' H
      |auth pid db db' H
      |auth sid0 idx qid started ends db db' H
      |auth qid p db db' Hsafe H
      |now sid0 pid qid cid correct time_ms points db db' H].
    + apply insert_session_inv in H. now destruct H as [_ ->].
    + apply update_sessions_inv in H. now subst db'.
    + apply insert_session_player_inv in H. now destruct H as (_ & -> & _).
    + apply update_session_player_removed_inv in H. now subst db'.
    + apply insert_session_question_state_inv in H. now destruct H as (-> & _).
    + apply update_session_question_state_inv in H. now subst db'.
    + apply insert_session_answer_inv in H.
      destruct H as (pts & _ & -> & _ & _ & Hfresh).
      simpl. rewrite map_app. simpl. apply NoDup_snoc; [assumption|].
      intros Hin. apply in_map_iff in Hin. destruct Hin as (a & Hkey & Hin).
      assert (existsb (same_answer_key sid0 pid qid) (session_answers db)
              = true) as Hex; [|congruence].
      apply existsb_exists. exists a. split; [assumption|].
      unfold answer_key in Hkey. simpl in Hkey. injection Hkey as H1 H2 H3.
      unfold same_answer_key. now rewrite H1, H2, H3, !Nat.eqb_refl.
  - unfold cascade; simpl. now apply NoDup_map_filter.
Qed.

Lemma reachable_answers_unique db : reachable db -> answers_unique db.
Proof.
  intros H. apply steps_statements in H.
  apply (statements_invariant answers_unique statement_answers_unique _ _ H).
  constructor.
Qed.

(** Under a duplicate-free key list, one key selects at most one
    answer. *)
Lemma unique_key_at_most_one (answers : list SessionAnswer.t) sid pid qid :
  NoDup (map answer_key answers) ->
  (List.length (filter (same_answer_key sid pid qid) answers) <= 1)%nat.
Proof.
  induction answers as [|a l IH]; simpl; intros Hnd; [lia|].
  inversion Hnd as [|? ? Hnotin Hl]; subst.
  destruct (same_answer_key sid pid qid a) eqn:Ea; [|now apply IH].
  simpl.
  assert (filter (same_answer_key sid pid qid) l = []) as ->; [|simpl; lia].
  destruct (filter (same_answer_key sid pid qid) l) as [|b l'] eqn:Ef;
    [reflexivity|].
  exfalso. apply Hnotin.
  assert (In b (filter (same_answer_key sid pid qid) l)) as Hb
    by (rewrite Ef; now left).
  apply filter_In in Hb. destruct Hb as [Hin Hb].
  apply in_map_iff. exists b. split; [|assumption].
  unfold same_answer_key in Ea, Hb.
  apply andb_prop in Ea. destruct Ea as [Ea Ea3].
  apply andb_prop in Ea. destruct Ea as [Ea1 Ea2].
  apply andb_prop in Hb. destruct Hb as [Hb Hb3].
  apply andb_prop in Hb. destruct Hb as [Hb1 Hb2].
  apply Nat.eqb_eq in Ea1, Ea2, Ea3, Hb1, Hb2, Hb3.
  unfold answer_key. congruence.
Qed.

Lemma filter_nonempty_existsb {A : Type} (f : A -> bool) (l : list A) :
  filter f l <> [] -> existsb f l = true.
Proof.
  induction l as [|a l IH]; simpl; [congruence|].
  destruct (f a); [reflexivity | exact IH].
Qed.

(** A player whose answer to the current question is on record cannot
    change the store by answering again, whatever the page believes it
    has selected. *)
Lemma handleAnswer_duplicate choiceId st db clk now s p qs :
  PlayerSessionPage.session st = Some s ->
  PlayerSessionPage.player st = Some p ->
  PlayerSessionPage.questionState st = Some qs ->
  answers_of db (Session.id s) (SessionPlayer.id p)
    (SessionQuestionState.question_id qs) <> [] ->
  snd (PlayerSessionPage.handleAnswer choiceId st db clk now) = db.
Proof.
  intros Hs Hp Hqs Hrec. apply filter_nonempty_existsb in Hrec.
  unfold PlayerSessionPage.handleAnswer.
  destruct (PlayerSessionPage.submission st choiceId clk) as [sub|] eqn:Esub;
    [|reflexivity].
  unfold PlayerSessionPage.submission in Esub. rewrite Hs, Hp, Hqs in Esub.
  destruct (PlayerSessionPage.currentQuestion st); [|discriminate].
  destruct (PlayerSessionPage.selectedChoiceId st); [discriminate|].
  injection Esub as <-. simpl.
  unfold insert_session_answer. rewrite Hrec.
  split_matches; reflexivity.
Qed.

(* ----------------------------------------------------------------- *)
(** *** Lock and reveal *)

Lemma patch_lock_safe p q :
  lock_safe p ->
  let q' := patch_question_state p q in
  SessionQuestionState.id q' = SessionQuestionState.id q
  /\ (SessionQuestionState.is_locked q = true ->
      SessionQuestionState.is_locked q' = true)
  /\ (SessionQuestionState.show_results q = true ->
      SessionQuestionState.show_results q' = true)
  /\ ((SessionQuestionState.is_locked q = true ->
       SessionQuestionState.show_results q = true) ->
      SessionQuestionState.is_locked q' = true ->
      SessionQuestionState.show_results q' = true).
Proof.
  intros [[Hl Hr]|[Hl Hr]]; simpl; rewrite Hl, Hr; simpl; auto.
Qed.

Lemma change_keeps_locked_shows_results l l' :
  question_state_change l l' ->
  Forall (fun q => SessionQuestionState.is_locked q = true ->
                   SessionQuestionState.show_results q = true) l ->
  Forall (fun q => SessionQuestionState.is_locked q = true ->
                   SessionQuestionState.show_results q = true) l'.
Proof.
  intros Hc Hinv.
  destruct Hc as [l|l row Hl Hr He|l selected p Hsafe He|l kept].
  - assumption.
  - apply Forall_app. split; [assumption|].
    constructor; [|constructor]. congruence.
  - rewrite Forall_forall in *. intros q' Hin.
    apply in_map_iff in Hin. destruct Hin as [q [<- Hin]].
    destruct (selected q); [|now apply Hinv].
    apply (patch_lock_safe p q Hsafe). now apply Hinv.
  - now apply Forall_filter.
Qed.

Lemma reachable_locked_shows_results db :
  reachable db -> locked_shows_results db.
Proof.
  unfold reachable. intros H.
  remember Pg.empty as db0 eqn:E0.
  induction H as [db|db1 db2 db3 _ IH Hstep]; subst.
  - constructor.
  - eapply change_keeps_locked_shows_results;
      [apply step_question_state; exact Hstep | now apply IH].
Qed.

(** Every question-state row of a reachable store has a scheduled
    end: it is written at the insert, and no update clears it. *)
Lemma change_keeps_ends_at l l' :
  question_state_change l l' ->
  Forall (fun q => SessionQuestionState.ends_at q <> None) l ->
  Forall (fun q => SessionQuestionState.ends_at q <> None) l'.
Proof.
  intros Hc Hinv.
  destruct Hc as [l|l row Hl Hr He|l selected p Hsafe He|l kept].
  - assumption.
  - apply Forall_app. split; [assumption|]. now constructor.
  - rewrite Forall_forall in *. intros q' Hin.
    apply in_map_iff in Hin. destruct Hin as [q [<- Hin]].
    destruct (selected q); [|now apply Hinv].
    specialize (Hinv q Hin). destruct q; simpl in *.
    unfold or_keep. destruct (set_ends_at p) as [v|]; [congruence | assumption].
  - now apply Forall_filter.
Qed.

Lemma reachable_ends_at db q :
  reachable db -> In q (session_question_state db) ->
  exists e, SessionQuestionState.ends_at q = Some e.
Proof.
  unfold reachable. intros H Hin.
  assert (Forall (fun q => SessionQuestionState.ends_at q <> None)
            (session_question_state db)) as Hall.
  { clear Hin. remember Pg.empty as db0 eqn:E0.
    induction H as [db|db1 db2 db3 _ IH Hstep]; subst.
    - constructor.
    - eapply change_keeps_ends_at;
        [apply step_question_state; exact Hstep | now apply IH]. }
  rewrite Forall_forall in Hall. specialize (Hall q Hin).
  destruct (SessionQuestionState.ends_at q) as [e|]; [now exists e|].
  now destruct Hall.
Qed.

Lemma find_snoc {A : Type} (f : A -> bool) (l : list A) (x : A) :
  find f (l ++ [x])
  = match find f l with
    | Some y => Some y
    | None => if f x then Some x else None
    end.
Proof.
  induction l as [|a l IH]; simpl; [reflexivity|].
  destruct (f a); [reflexivity | exact IH].
Qed.

(** A row the store holds after a statement, under a key handed out
    before it, was there before the statement, and the statement has
    lowered neither of its lock flags. *)
Lemma statement_question_state_row db db' qid q' :
  statement db db' ->
  well_keyed db ->
  (qid < next_uuid db)%nat ->
  question_state_row db' qid = Some q' ->
  exists q,
    question_state_row db qid = Some q
    /\ (SessionQuestionState.is_locked q = true ->
        SessionQuestionState.is_locked q' = true)
    /\ (SessionQuestionState.show_results q = true ->
        SessionQuestionState.show_results q' = true).
Proof.
  unfold question_state_row.
  intros Hst Hwk Hlt Hrow.
  destruct Hst as [d d' Hw|games questions choices d].
  - destruct Hw as
      [auth now gid hid code timer bonus db s0 db' H
      |auth sid0 p db db' Hpatch H
      |now sid0 name color db p db' H
      |auth pid db db' H
      |auth sid0 idx qid0 started ends db db' H
      |auth qid0 p db db' Hsafe H
      |now sid0 pid qid0 cid correct time_ms points db db' H].
    + apply insert_session_inv in H. destruct H as [_ ->]. exists q'. auto.
    + apply update_sessions_inv in H. subst db'. exists q'. auto.
    + apply insert_session_player_inv in H. destruct H as (_ & -> & _).
      exists q'. auto.
    + apply update_session_player_removed_inv in H. subst db'.
      exists q'. auto.
    + apply insert_session_question_state_inv in H. destruct H as (-> & _).
      simpl in Hrow. rewrite find_snoc in Hrow. simpl in Hrow.
      destruct (find _ (session_question_state db)) as [q|].
      * injection Hrow as <-. exists q. auto.
      * destruct (next_uuid db =? qid)%nat eqn:E; [|discriminate].
        apply Nat.eqb_eq in E. lia.
    + apply update_session_question_state_inv in H. subst db'.
      simpl in Hrow. rewrite find_map_same_key in Hrow.
      * destruct (find _ (session_question_state db)) as [q|];
          [|discriminate].
        simpl in Hrow. injection Hrow as <-. exists q.
        split; [reflexivity|].
        destruct (_ && _); [|auto].
        destruct (patch_lock_safe p q Hsafe) as (_ & H1 & H2 & _). auto.
      * intros x. destruct (_ && _); [now destruct x | reflexivity].
    + apply insert_session_answer_inv in H. destruct H as (pts & _ & -> & _).
      exists q'. auto.
  - exists q'. split; [|auto].
    unfold cascade in Hrow; simpl in Hrow.
    destruct Hwk as (_ & _ & _ & _ & _ & _ & Hn & _).
    exact (find_filter_key SessionQuestionState.id _ _ qid q' Hn Hrow).
Qed.

(** Within the lifetime of a row, neither lock flag is lowered. *)
Lemma steps_monotone db db' qid q q' :
  well_keyed db ->
  steps db db' ->
  question_state_row db qid = Some q ->
  question_state_row db' qid = Some q' ->
  (SessionQuestionState.is_locked q = true ->
   SessionQuestionState.is_locked q' = true)
  /\ (SessionQuestionState.show_results q = true ->
      SessionQuestionState.show_results q' = true).
Proof.
  intros Hwk Hsteps Hq. apply steps_statements in Hsteps.
  assert (qid < next_uuid db)%nat as Hlt.
  { destruct Hwk as (_ & _ & _ & _ & _ & Hb & _).
    rewrite Forall_forall in Hb. unfold question_state_row in Hq.
    apply find_some in Hq. destruct Hq as [Hin Hid].
    apply Nat.eqb_eq in Hid. specialize (Hb q Hin). lia. }
  revert q'. induction Hsteps as [db|db1 db2 db3 H12 IH H23]; intros q' Hq'.
  - assert (q' = q) as -> by congruence. auto.
  - pose proof (statements_invariant well_keyed statement_well_keyed _ _ H12 Hwk)
      as Hwk2.
    pose proof (statements_next_uuid _ _ H12) as Hle.
    destruct (statement_question_state_row db2 db3 qid q' H23 Hwk2) as
      (q2 & Hq2 & Hl & Hr); [lia | assumption |].
    destruct (IH Hwk Hq Hlt q2 Hq2) as [Hl2 Hr2]. auto.
Qed.

(** The lock is one update that raises both flags: a row it reaches is
    locked with its results shown, and every other row is as before. *)
Lemma endQuestionEarly_rows st db q' :
  In q' (session_question_state (HostRemotePage.endQuestionEarly st db)) ->
  In q' (session_question_state db)
  \/ (SessionQuestionState.is_locked q' = true
      /\ SessionQuestionState.show_results q' = true).
Proof.
  unfold HostRemotePage.endQuestionEarly.
  destruct (HostRemotePage.questionState st) as [qs|]; [|now left].
  destruct (HostRemotePage.session st); [|now left].
  destruct (update_session_question_state _ _ _ db) as [db'|e] eqn:E;
    simpl; [|now left].
  apply update_session_question_state_frame in E.
  destruct E as (_ & _ & _ & ->). intros Hin.
  apply in_map_iff in Hin. destruct Hin as [q [<- Hin]].
  destruct (_ && _); [right; split; reflexivity | now left].
Qed.

(** On the host's own session the lock does reach the row. *)
Lemma endQuestionEarly_locks st db s qs q :
  HostRemotePage.session st = Some s ->
  HostRemotePage.questionState st = Some qs ->
  question_state_row db (SessionQuestionState.id qs) = Some q ->
  session_exists db (SessionQuestionState.session_id q)
    (owned_by (HostRemotePage.user st)) = true ->
  exists q',
    question_state_row (HostRemotePage.endQuestionEarly st db)
      (SessionQuestionState.id qs) = Some q'
    /\ SessionQuestionState.is_locked q' = true
    /\ SessionQuestionState.show_results q' = true.
Proof.
  intros Hs Hqs Hrow Hown.
  unfold HostRemotePage.endQuestionEarly. rewrite Hqs, Hs.
  unfold update_session_question_state. simpl.
  unfold question_state_row in *. simpl.
  rewrite find_map_same_key.
  - rewrite Hrow. simpl.
    apply find_some in Hrow. destruct Hrow as [_ Hid].
    rewrite Hid, Hown. simpl. eexists. repeat split.
  - intros x. destruct (_ && _); reflexivity.
Qed.

(** The store applies the update of [pauseResume] to the row the page
    holds, when the page's user owns the session and the snapshot fits
    the column. *)
Lemma pauseResume_applies st db clk qid p q :
  HostRemotePage.pauseResume_update st clk = Some (qid, p) ->
  question_state_row db qid = Some q ->
  session_exists db (SessionQuestionState.session_id q)
    (owned_by (HostRemotePage.user st)) = true ->
  match set_paused_remaining_ms p with
  | Some (Some r) => int4 r = true
  | _ => True
  end ->
  question_state_row (HostRemotePage.pauseResume st db clk) qid
  = Some (patch_question_state p q).
Proof.
  intros Hupd Hrow Hown Hfit.
  unfold HostRemotePage.pauseResume. rewrite Hupd.
  unfold update_session_question_state.
  assert (negb match set_paused_remaining_ms p with
               | Some (Some r) => int4 r
               | _ => true
               end = false) as ->.
  { destruct (set_paused_remaining_ms p) as [[r|]|]; try reflexivity.
    now rewrite Hfit. }
  simpl. unfold question_state_row in *. simpl.
  rewrite find_map_same_key.
  - rewrite Hrow. simpl.
    apply find_some in Hrow. destruct Hrow as [_ Hid].
    now rewrite Hid, Hown.
  - intros x. destruct (_ && _); reflexivity.
Qed.

End Invariants.

(* ================================================================= *)
(** ** The session played through is a run of the system *)

Section ScenarioFacts.
Import Pg System Scenario.
Local Existing Instance JsString.ascii_methods.

Lemma join_steps name now db : steps db (join name now db).
Proof.
  unfold join.
  destruct (PlayerSessionPage.handleJoin (page_named name db) db now)
    as [[st' db']|] eqn:E.
  - eapply steps_step; [apply steps_refl | eapply step_handleJoin; exact E].
  - apply steps_refl.
Qed.

Lemma db_lobby_reachable : reachable db_lobby.
Proof.
  eapply steps_step; [apply steps_refl|].
  exact (step_handleStartSession
           (GamePage.mk (Some host) (Some game) questions) Pg.empty rng0 1000).
Qed.

Lemma db_joined_reachable : reachable db_joined.
Proof.
  unfold reachable, db_joined.
  eapply steps_trans; [exact db_lobby_reachable|].
  unfold db_two.
  eapply steps_trans; [apply join_steps|].
  eapply steps_trans; apply join_steps.
Qed.

Lemma db_playing_reachable : reachable db_playing.
Proof.
  eapply steps_step; [exact db_joined_reachable|].
  exact (step_startGame (host_page session_lobby None) db_joined (at_ 50000)).
Qed.

Lemma db_answered_reachable : reachable db_answered.
Proof.
  eapply steps_step; [exact db_playing_reachable|].
  exact (step_handleAnswer 102 alex_page db_playing (at_ 50000) 50001).
Qed.

Lemma db_locked_from_answered : steps db_answered db_locked.
Proof.
  eapply steps_step; [eapply steps_step; [eapply steps_step|]|].
  - apply steps_refl.
  - exact (step_pauseResume (host_page session_playing (Some question_running))
             db_answered (at_ 60000)).
  - exact (step_pauseResume (host_page session_playing (Some question_paused))
             db_paused (at_ 70000)).
  - exact (step_endQuestionEarly
             (host_page session_playing (Some question_resumed)) db_resumed).
Qed.

(** The rows the scenario names are the rows the store holds. *)
Lemma scenario_rows :
  sessions db_lobby = [session_lobby]
  /\ map SessionPlayer.display_name (session_players db_joined)
     = ["Alex"; "alex2"; "ALEX3"]
  /\ sessions db_playing = [session_playing]
  /\ session_question_state db_playing = [question_running]
  /\ session_question_state db_paused = [question_paused]
  /\ session_question_state db_resumed = [question_resumed]
  /\ map SessionAnswer.points_awarded (session_answers db_answered) = [1500]
  /\ map SessionPlayer.score (session_players db_answered) = [1500; 0; 0].
Proof. repeat split; vm_compute; reflexivity. Qed.

End ScenarioFacts.

(* ================================================================= *)
(** ** Answers *)

Section AnswerClaims.
Import Pg System Statements.
Context {M : JsString.Methods}.

(** A run of inserts and updates only appends to the answer log. *)
Lemma writes_answers_kept db db' :
  writes db db' ->
  exists later, session_answers db' = (session_answers db ++ later)%list.
Proof.
  intros H. induction H as [db|db1 db2 db3 _ [later IH] Hw].
  - exists []. now rewrite app_nil_r.
  - destruct Hw as
      [auth now gid hid code timer bonus db s0 db' H
      |auth sid0 p db db' Hpatch H
      |now sid0 name color db p db' H
      |auth pid db db' H
      |auth sid0 idx qid started ends db db' H
      |auth qid p db db' Hsafe H
      |now sid0 pid qid cid correct time_ms points db db' H].
    + apply insert_session_inv in H. destruct H as [_ ->]. now exists later.
    + apply update_sessions_inv in H. subst db'. now exists later.
    + apply insert_session_player_inv in H. destruct H as (_ & -> & _).
      now exists later.
    + apply update_session_player_removed_inv in H. subst db'.
      now exists later.
    + apply insert_session_question_state_inv in H. destruct H as (-> & _).
      now exists later.
    + apply update_session_question_state_inv in H. subst db'.
      now exists later.
    + apply insert_session_answer_inv in H. destruct H as (pts & _ & -> & _).
      simpl. rewrite IH. eexists. now rewrite <- app_assoc.
Qed.

(** C2. In every store the system can reach there is at most one
    answer per (session, player, question). A player whose answer to
    the page's current question is on record changes nothing by
    submitting again: the run is a no-op on the store, so the recorded
    answer keeps its points and the player's score stays as it was.
    No later run of any handler rewrites a recorded answer: an answer
    of a later store under a key the store had handed out is a row of
    this store, field by field; it can go only with a game, a question
    or a choice that is deleted, and a run of inserts and updates only
    appends to the log. *)
Theorem answer_at_most_once (db : Db) :
  reachable db ->
  answers_unique db
  /\ (forall sid pid qid,
         (List.length (answers_of db sid pid qid) <= 1)%nat)
  /\ (forall choiceId st clk now s p qs,
         PlayerSessionPage.session st = Some s ->
         PlayerSessionPage.player st = Some p ->
         PlayerSessionPage.questionState st = Some qs ->
         answers_of db (Session.id s) (SessionPlayer.id p)
           (SessionQuestionState.question_id qs) <> [] ->
         let db' := snd (PlayerSessionPage.handleAnswer choiceId st db clk now) in
         db' = db
         /\ session_answers db' = session_answers db
         /\ session_players db' = session_players db)
  /\ Forall (fun a => (SessionAnswer.id a < next_uuid db)%nat)
       (session_answers db)
  /\ (forall db' a,
         steps db db' ->
         In a (session_answers db') ->
         In a (session_answers db)
         \/ (next_uuid db <= SessionAnswer.id a)%nat)
  /\ (forall db',
         writes db db' ->
         exists later,
           session_answers db' = (session_answers db ++ later)%list).
Proof.
  intros Hreach.
  pose proof (reachable_answers_unique db Hreach) as Hu.
  split; [exact Hu|]. split; [|split; [|split; [|split]]].
  - intros sid pid qid. now apply unique_key_at_most_one.
  - intros choiceId st clk now s p qs Hs Hp Hqs Hrec. simpl.
    rewrite (handleAnswer_duplicate choiceId st db clk now s p qs Hs Hp Hqs Hrec).
    auto.
  - now destruct (reachable_well_keyed db Hreach)
      as (_ & _ & _ & _ & _ & _ & _ & Hai).
  - intros db' a. apply steps_answers_kept.
  - intros db'. apply writes_answers_kept.
Qed.

End AnswerClaims.

Section AnswerExamples.
Import Pg System Statements.
Local Existing Instance JsString.ascii_methods.

(** Alex has answered; a second submission from the same page state,
    three seconds later and for the other choice, leaves the store as
    it is. *)
Lemma answer_at_most_once_witness :
  reachable Scenario.db_answered
  /\ answers_of Scenario.db_answered 0 1 11 <> []
  /\ snd (PlayerSessionPage.handleAnswer 101 Scenario.alex_page
            Scenario.db_answered (Scenario.at_ 53000) 53001)
     = Scenario.db_answered.
Proof.
  split; [exact db_answered_reachable|].
  assert (answers_of Scenario.db_answered 0 1 11 <> []) as Hrec
    by (vm_compute; discriminate).
  split; [exact Hrec|].
  destruct (answer_at_most_once Scenario.db_answered db_answered_reachable)
    as (_ & _ & Hdup & _).
  exact (proj1 (Hdup 101%nat Scenario.alex_page (Scenario.at_ 53000) 53001
                  Scenario.session_playing Scenario.alex
                  Scenario.question_running
                  eq_refl eq_refl eq_refl Hrec)).
Defined.

(** A recorded answer goes with its question: once the host removes
    the question Alex has answered, the log is empty. *)
Example answer_goes_with_its_question :
  session_answers
    (GamePage.handleRemoveQuestion 0 true [101; 102]%nat
       (GamePage.mk (Some Scenario.host) (Some Scenario.game)
          Scenario.questions)
       Scenario.db_answered) = [].
Proof. vm_compute. reflexivity. Qed.

End AnswerExamples.

(* ================================================================= *)
(** ** Lock and reveal *)

Section LockClaims.
Import Pg System.
Context {M : JsString.Methods}.

(** C6. [endQuestionEarly] is one update that sets [is_locked] and
    [show_results] together: every row it leaves behind is a row that
    was there or is locked with its results shown, and on the host's
    own session the row the page holds does end up locked with its
    results shown. No store the system can reach holds a row with
    [is_locked] true and [show_results] false, and along any run, for
    as long as a row is in the store, each of its two flags, once
    true, is still true. *)
Theorem lock_and_reveal (db db' : Db) :
  reachable db ->
  steps db db' ->
  (forall st d q,
      In q (session_question_state (HostRemotePage.endQuestionEarly st d)) ->
      In q (session_question_state d)
      \/ (SessionQuestionState.is_locked q = true
          /\ SessionQuestionState.show_results q = true))
  /\ (forall st d s qs q,
         HostRemotePage.session st = Some s ->
         HostRemotePage.questionState st = Some qs ->
         question_state_row d (SessionQuestionState.id qs) = Some q ->
         session_exists d (SessionQuestionState.session_id q)
           (owned_by (HostRemotePage.user st)) = true ->
         exists q',
           question_state_row (HostRemotePage.endQuestionEarly st d)
             (SessionQuestionState.id qs) = Some q'
           /\ SessionQuestionState.is_locked q' = true
           /\ SessionQuestionState.show_results q' = true)
  /\ locked_shows_results db
  /\ locked_shows_results db'
  /\ (forall qid q q',
         question_state_row db qid = Some q ->
         question_state_row db' qid = Some q' ->
         (SessionQuestionState.is_locked q = true ->
          SessionQuestionState.is_locked q' = true)
         /\ (SessionQuestionState.show_results q = true ->
             SessionQuestionState.show_results q' = true)).
Proof.
  intros Hreach Hsteps.
  split; [intros st d q; apply endQuestionEarly_rows|].
  split; [intros st d s qs q; apply endQuestionEarly_locks|].
  split; [now apply reachable_locked_shows_results|].
  split.
  - apply reachable_locked_shows_results. unfold reachable in *.
    eapply steps_trans; eassumption.
  - intros qid q q'. apply steps_monotone; [|assumption].
    now apply reachable_well_keyed.
Qed.

End LockClaims.

Section LockExamples.
Import Pg System.
Local Existing Instance JsString.ascii_methods.

Lemma lock_and_reveal_witness :
  reachable Scenario.db_answered
  /\ steps Scenario.db_answered Scenario.db_locked
  /\ locked_shows_results Scenario.db_locked
  /\ exists q',
       question_state_row Scenario.db_locked 4 = Some q'
       /\ SessionQuestionState.is_locked q' = true
       /\ SessionQuestionState.show_results q' = true.
Proof.
  split; [exact db_answered_reachable|].
  split; [exact db_locked_from_answered|].
  destruct (lock_and_reveal Scenario.db_answered Scenario.db_locked
              db_answered_reachable db_locked_from_answered)
    as (_ & _ & _ & Hinv & _).
  split; [exact Hinv|].
  eexists. split; [vm_compute; reflexivity|]. split; reflexivity.
Defined.

End LockExamples.

(* ================================================================= *)
(** ** Joining *)

Section JoinClaims.
Import Pg System JsString.
Context {M : JsString.Methods}.

Lemma no_lobby_session_exists db sid :
  (forall s', In s' (sessions db) -> Session.id s' = sid ->
              Session.status s' <> lobby) ->
  session_exists db sid (fun s => SessionStatus_eqb (Session.status s) lobby)
  = false.
Proof.
  intros H. unfold session_exists.
  destruct (existsb _ (sessions db)) eqn:E; [|reflexivity].
  apply existsb_exists in E. destruct E as [s' [Hin Hs']].
  apply andb_prop in Hs'. destruct Hs' as [Hid Hst].
  apply Nat.eqb_eq in Hid. exfalso. apply (H s' Hin Hid).
  destruct (Session.status s'); try discriminate. reflexivity.
Qed.

(** A page opened on a code that only finished sessions carry loads no
    session at all. *)
Lemma findSession_finished sessionCode st db :
  (forall s', In s' (sessions db) ->
              Session.code s' = toUpperCase sessionCode ->
              Session.status s' = finished) ->
  let st' := PlayerSessionPage.findSession sessionCode st db in
  PlayerSessionPage.phase st' = PlayerPhase.error
  /\ PlayerSessionPage.session st' = PlayerSessionPage.session st
  /\ PlayerSessionPage.error st' = PlayerSessionPage.game_not_found.
Proof.
  intros H. simpl. unfold PlayerSessionPage.findSession.
  assert (active_sessions_with_code db (toUpperCase sessionCode) = []) as ->.
  { unfold active_sessions_with_code.
    destruct (filter _ (sessions db)) as [|s' l] eqn:E; [reflexivity|].
    assert (In s' (filter
                     (fun s => String.eqb (Session.code s) (toUpperCase sessionCode)
                               && is_active s) (sessions db))) as Hin
      by (rewrite E; now left).
    apply filter_In in Hin. destruct Hin as [Hin Hs'].
    apply andb_prop in Hs'. destruct Hs' as [Hc Ha].
    apply String.eqb_eq in Hc. unfold is_active in Ha.
    rewrite (H s' Hin Hc) in Ha. discriminate. }
  simpl. auto.
Qed.

(** C3. A join whose session is not in the lobby in the store, be it
    playing or finished, is rejected: [handleJoin] returns with an
    error on the page, the page has no player more than before, and the
    store, its player relation included, is as it was. *)
Theorem join_outside_lobby (st : PlayerSessionPage.t) (db : Db)
    (now : timestamp) :
  (forall s s',
      PlayerSessionPage.session st = Some s ->
      In s' (sessions db) -> Session.id s' = Session.id s ->
      Session.status s' = playing \/ Session.status s' = finished) ->
  exists st',
    PlayerSessionPage.handleJoin st db now = Some (st', db)
    /\ PlayerSessionPage.error st' <> PlayerSessionPage.no_error
    /\ PlayerSessionPage.player st' = PlayerSessionPage.player st
    /\ PlayerSessionPage.phase st' = PlayerSessionPage.phase st.
Proof.
  intros H. unfold PlayerSessionPage.handleJoin.
  destruct (PlayerSessionPage.session st) as [s|] eqn:Es;
    [|eexists; split; [reflexivity|]; simpl; repeat split; discriminate].
  destruct (String.eqb _ _);
    [eexists; split; [reflexivity|]; simpl; repeat split; discriminate|].
  destruct (PlayerSessionPage.finalName_of _ _) as [name|] eqn:En;
    [|exfalso; eapply finalName_of_total; exact En].
  rewrite insert_session_player_outside_lobby.
  - eexists. split; [reflexivity|]. simpl. repeat split. discriminate.
  - apply no_lobby_session_exists. intros s' Hin Hid.
    destruct (H s s' eq_refl Hin Hid) as [-> | ->]; discriminate.
Qed.

(** C8. When the requested name, trimmed, is not empty and is taken
    case-insensitively by a player on the roster of a session in the
    lobby, [handleJoin] creates a player named by the requested name
    with an integer [k >= 2] appended: the lower-cased requested name
    with [k] appended is the lower-cased name of no one on the roster,
    with every smaller suffix from 2 on it is, and the store gains
    exactly that player, whom the page takes as its own. For a
    requested name in ASCII the name under test is the lower-cased
    form of the name assigned. *)
Theorem join_name_collision (st : PlayerSessionPage.t) (db : Db)
    (now : timestamp) (s : Session.t) :
  PlayerSessionPage.session st = Some s ->
  session_exists db (Session.id s)
    (fun r => SessionStatus_eqb (Session.status r) lobby) = true ->
  let existing :=
    map SessionPlayer.display_name (roster db (Session.id s)) in
  let names := map toLowerCase existing in
  let requested := trim (PlayerSessionPage.displayName st) in
  requested <> ""%string ->
  includes names (toLowerCase requested) = true ->
  exists k,
    (2 <= k)%nat
    /\ includes names (toLowerCase requested ++ of_nat k) = false
    /\ (forall j, (2 <= j < k)%nat ->
                  includes names (toLowerCase requested ++ of_nat j) = true)
    /\ (is_ascii requested = true ->
        includes names (toLowerCase (requested ++ of_nat k)) = false
        /\ forall j, (2 <= j < k)%nat ->
                     includes names (toLowerCase (requested ++ of_nat j))
                     = true)
    /\ let p :=
         SessionPlayer.mk (next_uuid db) (Session.id s)
           (requested ++ of_nat k) (PlayerSessionPage.avatarColor st) 0 false
           now in
       exists st',
         PlayerSessionPage.handleJoin st db now
         = Some (st',
                 Pg.mk (sessions db) (session_players db ++ [p])
                   (session_question_state db) (session_answers db)
                   (S (next_uuid db)))
         /\ PlayerSessionPage.player st' = Some p
         /\ PlayerSessionPage.phase st' = PlayerPhase.lobby
         /\ PlayerSessionPage.error st' = PlayerSessionPage.no_error.
Proof.
  intros Hs Hlobby existing names requested Hne Htaken.
  destruct (finalName_of_taken existing (PlayerSessionPage.displayName st) Htaken)
    as (k & Hname & Hk & Hfree & Hbelow).
  exists k. repeat (split; [assumption|]). split.
  - intros Hascii. split.
    + now rewrite toLowerCase_suffixed.
    + intros j Hj. rewrite toLowerCase_suffixed by assumption.
      now apply Hbelow.
  - unfold PlayerSessionPage.handleJoin. rewrite Hs.
    fold requested.
    destruct (String.eqb requested "") eqn:E;
      [apply String.eqb_eq in E; contradiction|].
    fold existing. rewrite Hname.
    unfold insert_session_player. rewrite Hlobby. simpl.
    eexists. repeat split.
Qed.

End JoinClaims.

Section JoinExamples.
Import Pg System JsString.
Local Existing Instance JsString.ascii_methods.

(** Bob opens the page while the game is playing and tries to join. *)
Lemma join_outside_lobby_witness :
  exists st',
    PlayerSessionPage.handleJoin
      (Scenario.page_named "Bob" Scenario.db_playing) Scenario.db_playing 56000
    = Some (st', Scenario.db_playing)
    /\ PlayerSessionPage.error st' <> PlayerSessionPage.no_error
    /\ PlayerSessionPage.player st' = None
    /\ PlayerSessionPage.phase st' = PlayerPhase.joining.
Proof.
  apply (join_outside_lobby
           (Scenario.page_named "Bob" Scenario.db_playing)
           Scenario.db_playing 56000).
  intros s s' Hs Hin Hid. left.
  vm_compute in Hin. destruct Hin as [<-|[]]. reflexivity.
Defined.

(** With Alex and alex2 on the roster of the session in the lobby, a
    join as " ALEX " puts ALEX3 in the store. *)
Lemma join_name_collision_witness :
  map SessionPlayer.display_name (roster Scenario.db_two 0) = ["Alex"; "alex2"]
  /\ map SessionPlayer.display_name
       (session_players (Scenario.join " ALEX " 2300 Scenario.db_two))
     = ["Alex"; "alex2"; "ALEX3"]
  /\ exists k st',
       (2 <= k)%nat
       /\ PlayerSessionPage.handleJoin
            (Scenario.page_named " ALEX " Scenario.db_two) Scenario.db_two 2300
          = Some (st',
                  Pg.mk (sessions Scenario.db_two)
                    (session_players Scenario.db_two
                     ++ [SessionPlayer.mk (next_uuid Scenario.db_two) 0
                           ("ALEX" ++ of_nat k) "#6366f1" 0 false 2300])
                    (session_question_state Scenario.db_two)
                    (session_answers Scenario.db_two)
                    (S (next_uuid Scenario.db_two))).
Proof.
  split; [vm_compute; reflexivity|].
  split; [vm_compute; reflexivity|].
  destruct (join_name_collision
              (Scenario.page_named " ALEX " Scenario.db_two)
              Scenario.db_two 2300 Scenario.session_lobby eq_refl eq_refl)
    as (k & Hk & _ & _ & _ & st' & Hrun & _).
  - vm_compute. discriminate.
  - vm_compute. reflexivity.
  - exists k, st'. split; [exact Hk | exact Hrun].
Defined.

(** Only the roster counts: once the host has removed Alex, the name
    is free again and a join as Alex keeps it. *)
Example removed_name_is_free :
  map SessionPlayer.display_name (session_players Scenario.db_kicked)
  = ["Alex"; "alex2"]
  /\ map SessionPlayer.display_name (roster Scenario.db_kicked 0) = ["alex2"]
  /\ map SessionPlayer.display_name
       (session_players (Scenario.join "Alex" 2400 Scenario.db_kicked))
     = ["Alex"; "alex2"; "Alex"].
Proof. repeat split; vm_compute; reflexivity. Qed.

End JoinExamples.

(* ================================================================= *)
(** ** Pause and resume *)

Section PauseClaims.
Import Pg System.
Context {M : JsString.Methods}.

(** The scheduled end a row is read to have: [new Date(null)] is the
    epoch. *)
Lemma pause_update st clk s qs :
  HostRemotePage.session st = Some s ->
  HostRemotePage.questionState st = Some qs ->
  SessionQuestionState.is_paused qs = false ->
  HostRemotePage.pauseResume_update st clk
  = Some (SessionQuestionState.id qs,
          mkQuestionStatePatch None None (Some true)
            (Some (Some (Z.max 0
                           (match SessionQuestionState.ends_at qs with
                            | Some e => e
                            | None => 0
                            end - clk 0%nat))))
            None None None).
Proof.
  intros Hs Hqs Hp. unfold HostRemotePage.pauseResume_update.
  now rewrite Hqs, Hs, Hp.
Qed.


(** An update through [pauseResume] leaves every other row of the
    relation as it was. *)
Lemma update_question_state_others auth qid p db db' other :
  update_session_question_state auth qid p db = Ok db' ->
  other <> qid ->
  question_state_row db' other = question_state_row db other.
Proof.
  intros H Hne. apply update_session_question_state_frame in H.
  destruct H as (_ & _ & _ & Hq). unfold question_state_row. rewrite Hq.
  rewrite find_map_same_key.
  - destruct (find _ (session_question_state db)) as [x|] eqn:E;
      [|reflexivity].
    simpl. apply find_some in E. destruct E as [_ Hid].
    apply Nat.eqb_eq in Hid.
    destruct (SessionQuestionState.id x =? qid)%nat eqn:E2;
      [apply Nat.eqb_eq in E2; congruence | reflexivity].
  - intros x. destruct (_ && _); [now destruct x | reflexivity].
Qed.

Lemma pauseResume_frame st db clk :
  let db' := HostRemotePage.pauseResume st db clk in
  sessions db' = sessions db
  /\ session_players db' = session_players db
  /\ session_answers db' = session_answers db
  /\ next_uuid db' = next_uuid db.
Proof.
  simpl. unfold HostRemotePage.pauseResume.
  destruct (HostRemotePage.pauseResume_update st clk) as [[qid p]|];
    [|auto].
  destruct (update_session_question_state _ _ _ db) as [db'|e] eqn:E;
    simpl; [|auto].
  apply update_session_question_state_inv in E. subst db'. simpl. auto.
Qed.

Lemma pauseResume_others st db clk qs other :
  HostRemotePage.questionState st = Some qs ->
  other <> SessionQuestionState.id qs ->
  question_state_row (HostRemotePage.pauseResume st db clk) other
  = question_state_row db other.
Proof.
  intros Hqs Hne. unfold HostRemotePage.pauseResume.
  destruct (HostRemotePage.pauseResume_update st clk) as [[qid p]|] eqn:Eu;
    [|reflexivity].
  assert (qid = SessionQuestionState.id qs) as ->.
  { unfold HostRemotePage.pauseResume_update in Eu. rewrite Hqs in Eu.
    destruct (HostRemotePage.session st); [|discriminate].
    destruct (SessionQuestionState.is_paused qs); now injection Eu as <- _. }
  destruct (update_session_question_state _ _ _ db) as [db'|e] eqn:E;
    simpl; [|reflexivity].
  eapply update_question_state_others; eassumption.
Qed.

(** C4, as the code has it. On a question state the page holds as not
    paused, [pauseResume] changes the store in one row: the row of
    that id, on a session of the page's user, is left paused, with
    [max(0, ends_at - now)] of the page's copy as its
    [paused_remaining_ms] and every other column as stored, the
    scheduled end, the start and the lock flags among them; in a store
    the system can reach that scheduled end is a time, not null. Every
    other row and every other relation is as before. *)
Theorem pause_stores_remaining (st : HostRemotePage.t) (db : Db)
    (clk : clock) (s : Session.t) (qs q : SessionQuestionState.t) :
  HostRemotePage.session st = Some s ->
  HostRemotePage.questionState st = Some qs ->
  SessionQuestionState.is_paused qs = false ->
  question_state_row db (SessionQuestionState.id qs) = Some q ->
  session_exists db (SessionQuestionState.session_id q)
    (owned_by (HostRemotePage.user st)) = true ->
  let remaining :=
    Z.max 0 (match SessionQuestionState.ends_at qs with
             | Some e => e
             | None => 0
             end - clk 0%nat) in
  int4 remaining = true ->
  let db' := HostRemotePage.pauseResume st db clk in
  question_state_row db' (SessionQuestionState.id qs)
  = Some (SessionQuestionState.mk
            (SessionQuestionState.id q) (SessionQuestionState.session_id q)
            (SessionQuestionState.question_index q)
            (SessionQuestionState.question_id q)
            (SessionQuestionState.started_at q)
            (SessionQuestionState.ends_at q)
            true (Some remaining)
            (SessionQuestionState.is_locked q)
            (SessionQuestionState.show_results q)
            (SessionQuestionState.show_leaderboard q))
  /\ (reachable db -> exists e, SessionQuestionState.ends_at q = Some e)
  /\ (forall other, other <> SessionQuestionState.id qs ->
                    question_state_row db' other = question_state_row db other)
  /\ sessions db' = sessions db
  /\ session_players db' = session_players db
  /\ session_answers db' = session_answers db.
Proof.
  intros Hs Hqs Hp Hrow Hown remaining Hfit db'.
  split; [|split; [|split]].
  - unfold db'.
    rewrite (pauseResume_applies st db clk _ _ q
               (pause_update st clk s qs Hs Hqs Hp) Hrow Hown Hfit).
    now destruct q.
  - intros Hreach. apply (reachable_ends_at db q Hreach).
    unfold question_state_row in Hrow. now apply find_some in Hrow.
  - intros other Hne. now apply (pauseResume_others st db clk qs).
  - destruct (pauseResume_frame st db clk) as (H1 & H2 & H3 & _). auto.
Qed.


End PauseClaims.

Section PauseExamples.
Import Pg System.
Local Existing Instance JsString.ascii_methods.

(** The host pauses question 11 at 60000, 20 s before its end: the
    store then holds the row paused, with 20000 ms remaining and its
    scheduled end still 80000. *)
Lemma pause_stores_remaining_witness :
  question_state_row
    (HostRemotePage.pauseResume
       (Scenario.host_page Scenario.session_playing
          (Some Scenario.question_running))
       Scenario.db_answered (Scenario.at_ 60000)) 4
  = Some Scenario.question_paused
  /\ SessionQuestionState.paused_remaining_ms Scenario.question_paused
     = Some 20000
  /\ exists e, SessionQuestionState.ends_at Scenario.question_running = Some e.
Proof.
  destruct (pause_stores_remaining
              (Scenario.host_page Scenario.session_playing
                 (Some Scenario.question_running))
              Scenario.db_answered
              (Scenario.at_ 60000) Scenario.session_playing
              Scenario.question_running Scenario.question_running
              eq_refl eq_refl eq_refl)
    as (Hrow & Hends & _).
  - vm_compute. reflexivity.
  - vm_compute. reflexivity.
  - vm_compute. reflexivity.
  - split; [exact Hrow|]. split; [reflexivity|].
    apply Hends. exact db_answered_reachable.
Defined.

(** C4, as stated, fails: question 11 is running, neither paused nor
    locked; after the host pauses it at 60000 the store holds the row
    paused with 20000 ms remaining and with its scheduled end still
    80000, not null. *)
Lemma pause_keeps_scheduled_end :
  SessionQuestionState.is_paused Scenario.question_running = false
  /\ SessionQuestionState.is_locked Scenario.question_running = false
  /\ session_question_state Scenario.db_answered = [Scenario.question_running]
  /\ session_question_state
       (HostRemotePage.pauseResume
          (Scenario.host_page Scenario.session_playing
             (Some Scenario.question_running))
          Scenario.db_answered (Scenario.at_ 60000))
     = [Scenario.question_paused]
  /\ SessionQuestionState.is_paused Scenario.question_paused = true
  /\ SessionQuestionState.paused_remaining_ms Scenario.question_paused
     = Some 20000
  /\ SessionQuestionState.ends_at Scenario.question_paused = Some 80000
  /\ SessionQuestionState.ends_at Scenario.question_paused <> None.
Proof. repeat split; try (vm_compute; reflexivity). discriminate. Qed.


End PauseExamples.

(* ================================================================= *)
(** ** Join codes *)

Section CodeClaims.
Import Pg System GamePage.
Context {M : JsString.Methods}.

(** Under the code index at most one live session carries a code. *)
Lemma active_code_at_most_one (l : list Session.t) (c : string) :
  sessions_active_code_idx l = true ->
  (List.length
     (filter (fun s => String.eqb (Session.code s) c && is_active s) l) <= 1)%nat.
Proof.
  unfold sessions_active_code_idx.
  induction l as [|a l IH]; simpl; intros Hd; [lia|].
  destruct (is_active a) eqn:Ea; simpl in Hd.
  - apply andb_prop in Hd. destruct Hd as [Hfresh Hd].
    destruct (String.eqb (Session.code a) c) eqn:Ec; simpl; [|now apply IH].
    assert (filter (fun s => String.eqb (Session.code s) c && is_active s) l = [])
      as ->; [|simpl; lia].
    destruct (filter (fun s => String.eqb (Session.code s) c && is_active s) l)
      as [|b l'] eqn:Ef; [reflexivity|]. exfalso.
    assert (In b (filter
                    (fun s => String.eqb (Session.code s) c && is_active s) l))
      as Hb by (rewrite Ef; now left).
    apply filter_In in Hb. destruct Hb as [Hin Hb].
    apply andb_prop in Hb. destruct Hb as [Hbc Hba].
    apply String.eqb_eq in Ec, Hbc.
    apply negb_true_iff in Hfresh.
    assert (existsb (String.eqb (Session.code a))
              (map Session.code (filter is_active l)) = true) as Hex; [|congruence].
    apply existsb_exists. exists (Session.code b). split.
    + apply in_map, filter_In. now split.
    + apply String.eqb_eq. congruence.
  - rewrite andb_false_r. now apply IH.
Qed.









End CodeClaims.

Section CodeExamples.
Import Pg System GamePage.
Local Existing Instance JsString.ascii_methods.


(** The residual case: when the sixth candidate collides as well, the
    allocator still returns it, and it is the code index that turns the
    insert down. *)
Example allocate_code_sixth_collides :
  fst (allocate_code Scenario.db_aaaaaa Scenario.rng_stuck) = "AAAAAA"
  /\ code_is_live Scenario.db_aaaaaa "AAAAAA" = true
  /\ fst (fst (handleStartSession
                 (GamePage.mk (Some Scenario.host) (Some Scenario.game)
                    Scenario.questions)
                 Scenario.db_aaaaaa Scenario.rng_stuck 1000))
     = failed_to_start unique_violation.
Proof. repeat split; vm_compute; reflexivity. Qed.

End CodeExamples.


(* ================================================================= *)
(** * Further properties *)

(* ================================================================= *)
(** ** Join codes: alphabet, entry and lookup *)

Section CodeEntry.
Import Pg JsString CodeText.
Context {M : JsString.Methods}.

Lemma CHARS_get (i : nat) :
  (i < 32)%nat ->
  exists c, String.get i GameCode.CHARS = Some c /\ code_char c = true.
Proof.
  intros Hi.
  do 32 (destruct i as [|i]; [eexists; split; reflexivity|]).
  lia.
Qed.

Lemma code_char_facts (c : ascii) :
  code_char c = true ->
  ambiguous c = false
  /\ is_space c = false
  /\ is_space (lower_ascii c) = false
  /\ upper_ascii c = c
  /\ upper_ascii (lower_ascii c) = c.
Proof.
  unfold code_char. intros H. apply existsb_exists in H.
  destruct H as [x [Hin Hx]]. apply Ascii.eqb_eq in Hx. subst x.
  simpl in Hin.
  repeat (destruct Hin as [<-|Hin]; [repeat split; reflexivity|]).
  destruct Hin.
Qed.

Lemma over_alphabet_app (a b : string) :
  over_alphabet (a ++ b) = over_alphabet a && over_alphabet b.
Proof.
  unfold over_alphabet. induction a as [|c a IH]; simpl; [reflexivity|].
  rewrite IH. now rewrite andb_assoc.
Qed.

Lemma string_length_app (a b : string) :
  String.length (a ++ b) = (String.length a + String.length b)%nat.
Proof. induction a as [|c a IH]; simpl; [reflexivity | now rewrite IH]. Qed.

Lemma append_char_alphabet (code : string) (i : nat) :
  (i < 32)%nat ->
  over_alphabet code = true ->
  over_alphabet (GameCode.append_char code i) = true
  /\ String.length (GameCode.append_char code i) = S (String.length code).
Proof.
  intros Hi Hcode. unfold GameCode.append_char.
  destruct (CHARS_get i Hi) as (c & -> & Hc). split.
  - rewrite over_alphabet_app, Hcode. unfold over_alphabet. simpl.
    now rewrite Hc.
  - rewrite string_length_app. simpl. lia.
Qed.

Lemma generate_loop_alphabet (n : nat) :
  forall code g,
    over_alphabet code = true ->
    let r := GameCode.generate_loop n code g in
    over_alphabet (fst r) = true
    /\ String.length (fst r) = (String.length code + n)%nat
    /\ Rng.tape (snd r) = Rng.tape g
    /\ Rng.cursor (snd r) = (Rng.cursor g + n)%nat.
Proof.
  induction n as [|n IH]; intros code g Hcode; simpl.
  - repeat split; [assumption | lia | lia].
  - assert (Rng.tape g (Rng.cursor g) mod 32 < 32)%nat as Hi
      by (apply Nat.mod_upper_bound; discriminate).
    destruct (append_char_alphabet code _ Hi Hcode) as [Ha Hl].
    match goal with
    | |- context [GameCode.generate_loop n ?c ?g'] =>
        destruct (IH c g' Ha) as (H1 & H2 & H3 & H4)
    end.
    simpl in *. repeat split; try assumption; [rewrite H2, Hl|rewrite H4]; lia.
Qed.

Lemma generateGameCode_len_alphabet (n : nat) (g : Rng.t) :
  over_alphabet (fst (GameCode.generateGameCode_len n g)) = true
  /\ String.length (fst (GameCode.generateGameCode_len n g)) = n
  /\ Rng.cursor (snd (GameCode.generateGameCode_len n g))
     = (Rng.cursor g + n)%nat.
Proof.
  unfold GameCode.generateGameCode_len.
  destruct (generate_loop_alphabet n EmptyString g eq_refl)
    as (H1 & H2 & _ & H4).
  simpl in *. auto.
Qed.

(** X1. Whatever the random draws, [generateGameCode] returns a code
    of exactly the length asked for (6 by default), every character of
    which is one of the 32 of [CHARS] and so none of I, O, 0 and 1;
    it reads the random source once per character. *)
Theorem generateGameCode_alphabet (len : nat) (g : Rng.t) :
  let code := fst (GameCode.generateGameCode_len len g) in
  String.length code = len
  /\ over_alphabet code = true
  /\ (forall c, In c (list_ascii_of_string code) -> ambiguous c = false)
  /\ Rng.cursor (snd (GameCode.generateGameCode_len len g))
     = (Rng.cursor g + len)%nat
  /\ String.length (fst (GameCode.generateGameCode g)) = 6%nat.
Proof.
  destruct (generateGameCode_len_alphabet len g) as (Ha & Hl & Hc). simpl.
  split; [exact Hl|]. split; [exact Ha|]. split; [|split; [exact Hc|]].
  - intros c Hin. apply code_char_facts.
    unfold over_alphabet in Ha. rewrite forallb_forall in Ha. now apply Ha.
  - apply (generateGameCode_len_alphabet 6 g).
Qed.












Lemma findSession_of_single sessionCode st db s :
  active_sessions_with_code db (toUpperCase sessionCode) = [s] ->
  PlayerSessionPage.session (PlayerSessionPage.findSession sessionCode st db)
  = Some s
  /\ PlayerSessionPage.players (PlayerSessionPage.findSession sessionCode st db)
     = roster db (Session.id s)
  /\ PlayerSessionPage.error (PlayerSessionPage.findSession sessionCode st db)
     = PlayerSessionPage.error st.
Proof.
  intros H. unfold PlayerSessionPage.findSession. rewrite H. simpl.
  destruct (PlayerSessionPage.getItem _ _) as [pid|]; [|now repeat split].
  destruct (maybeSingle _) as [p|]; [|now repeat split].
  destruct (SessionPlayer.is_removed p); now repeat split.
Qed.


(** X3. On a store that satisfies the code index, the player page
    loads a session exactly when a session that is not finished
    carries the upper-cased code of the route: it then holds that
    session and its roster of players not removed; when no such
    session exists, finished ones included, the page shows "Game not
    found" and holds no session it did not hold before. *)
Theorem findSession_live_only (sessionCode : string)
    (st : PlayerSessionPage.t) (db : Db) :
  sessions_active_code_idx (sessions db) = true ->
  let st' := PlayerSessionPage.findSession sessionCode st db in
  (forall s,
      In s (sessions db) -> is_active s = true ->
      Session.code s = toUpperCase sessionCode ->
      PlayerSessionPage.session st' = Some s
      /\ PlayerSessionPage.players st' = roster db (Session.id s))
  /\ ((forall s,
          In s (sessions db) -> Session.code s = toUpperCase sessionCode ->
          Session.status s = finished) ->
      PlayerSessionPage.phase st' = PlayerPhase.error
      /\ PlayerSessionPage.error st' = PlayerSessionPage.game_not_found
      /\ PlayerSessionPage.session st' = PlayerSessionPage.session st
      /\ PlayerSessionPage.player st' = PlayerSessionPage.player st).
Proof.
  intros Hidx st'. split.
  - intros s Hin Hact Hcode.
    assert (active_sessions_with_code db (toUpperCase sessionCode) = [s]) as H1.
    { pose proof (active_code_at_most_one (sessions db)
                    (toUpperCase sessionCode) Hidx) as Hlen.
      unfold active_sessions_with_code.
      assert (In s (filter (fun s0 => String.eqb (Session.code s0)
                                        (toUpperCase sessionCode)
                                      && is_active s0) (sessions db))) as Hs.
      { apply filter_In. split; [assumption|].
        rewrite Hcode, String.eqb_refl, Hact. reflexivity. }
      destruct (filter _ (sessions db)) as [|a [|b l]]; simpl in *.
      - destruct Hs.
      - destruct Hs as [->|[]]. reflexivity.
      - lia. }
    destruct (findSession_of_single sessionCode st db s H1) as (Ha & Hb & _).
    split; assumption.
  - intros Hfin.
    destruct (findSession_finished sessionCode st db Hfin) as (Hp & Hs & He).
    repeat split; try assumption.
    unfold st', PlayerSessionPage.findSession.
    destruct (maybeSingle _) eqn:E; [|reflexivity].
    fold (PlayerSessionPage.findSession sessionCode st db) in Hp.
    unfold PlayerSessionPage.findSession in Hp. rewrite E in Hp.
    exfalso. clear - Hp E Hfin.
    unfold maybeSingle in E.
    destruct (active_sessions_with_code db (toUpperCase sessionCode))
      as [|a [|b l]] eqn:Ef; try discriminate.
    assert (In a (active_sessions_with_code db (toUpperCase sessionCode)))
      as Ha by (rewrite Ef; now left).
    unfold active_sessions_with_code in Ha. apply filter_In in Ha.
    destruct Ha as [Hin Ha]. apply andb_prop in Ha. destruct Ha as [Hc Hact].
    apply String.eqb_eq in Hc. unfold is_active in Hact.
    rewrite (Hfin a Hin Hc) in Hact. discriminate.
Qed.

End CodeEntry.

Section CodeEntryExamples.
Import Pg JsString CodeText.
Local Existing Instance JsString.ascii_methods.


(** What the form turns down and what it lets through: four
    characters are refused, and a blank with five characters after it
    passes the length test and routes to a five-character code. *)
Example handleJoin_short_codes :
  PlayJoinPage.handleJoin (PlayJoinPage.onChange "abcd" PlayJoinPage.initial)
  = PlayJoinPage.stays
      (PlayJoinPage.mk "ABCD" PlayJoinPage.enter_a_valid_game_code)
  /\ PlayJoinPage.handleJoin
       (PlayJoinPage.onChange " abcde" PlayJoinPage.initial)
     = PlayJoinPage.push "ABCDE".
Proof. split; vm_compute; reflexivity. Qed.

(** While the game is playing the page still loads the session of
    code ABCDEF, with the three players on its roster. *)
Lemma findSession_live_only_witness :
  sessions_active_code_idx (sessions Scenario.db_playing) = true
  /\ PlayerSessionPage.session
       (PlayerSessionPage.findSession "abcdef"
          (PlayerSessionPage.initial "#6366f1" []) Scenario.db_playing)
     = Some Scenario.session_playing
  /\ List.length
       (PlayerSessionPage.players
          (PlayerSessionPage.findSession "abcdef"
             (PlayerSessionPage.initial "#6366f1" []) Scenario.db_playing))
     = 3%nat.
Proof.
  assert (sessions_active_code_idx (sessions Scenario.db_playing) = true)
    as Hidx by (vm_compute; reflexivity).
  split; [exact Hidx|].
  destruct (findSession_live_only "abcdef"
              (PlayerSessionPage.initial "#6366f1" []) Scenario.db_playing Hidx)
    as [Hlive _].
  destruct (Hlive Scenario.session_playing) as [Hs Hp];
    [vm_compute; now left | reflexivity | reflexivity |].
  split; [exact Hs|]. rewrite Hp. vm_compute. reflexivity.
Defined.

End CodeEntryExamples.

(* ================================================================= *)
(** ** Status, players and scores along a run *)

Section LifecycleInvariants.
Import Pg System Statements.
Context {M : JsString.Methods}.
















Lemma times_consistent_patch p s :
  page_session_patch p -> times_consistent s ->
  times_consistent (patch_session p s).
Proof.
  intros Hp [Hl Hf]. unfold times_consistent.
  destruct Hp; simpl; split; try discriminate; try assumption.
  intros _. eexists; reflexivity.
Qed.

Lemma statement_times_consistent db db' :
  statement db db' ->
  Forall times_consistent (sessions db) ->
  Forall times_consistent (sessions db').
Proof.
  intros Hst Hall. destruct Hst as [d d' Hw|games questions choices d];
    [|unfold cascade; simpl; now apply Forall_filter].
  destruct Hw as
    [auth now gid hid code timer bonus db s0 db' H
    |auth sid0 p db db' Hpatch H
    |now sid0 name color db p db' H
    |auth pid db db' H
    |auth sid0 idx qid started ends db db' H
    |auth qid p db db' Hsafe H
    |now sid0 pid qid cid correct time_ms points db db' H].
  - apply insert_session_inv in H. destruct H as [Es ->]. simpl.
    apply Forall_app. split; [assumption|]. constructor; [|constructor].
    rewrite Es. split; simpl; [reflexivity | discriminate].
  - apply update_sessions_inv in H. subst db'. simpl.
    apply Forall_map_cond; [|assumption].
    intros x. now apply times_consistent_patch.
  - apply insert_session_player_inv in H. now destruct H as (_ & -> & _).
  - apply update_session_player_removed_inv in H. now subst db'.
  - apply insert_session_question_state_inv in H. now destruct H as (-> & _).
  - apply update_session_question_state_inv in H. now subst db'.
  - apply insert_session_answer_inv in H. now destruct H as (pts & _ & -> & _).
Qed.

(** X6. In every store the system can reach, a session in the lobby
    has no end time and a finished session has one: [endGame] and the
    last [nextQuestion] write status and end time together, and no
    other handler writes either of them except [startGame], which
    writes the status only. *)
Theorem finished_has_end_time (db : Db) (s : Session.t) :
  reachable db ->
  In s (sessions db) ->
  (Session.status s = lobby -> Session.ended_at s = None)
  /\ (Session.status s = finished -> exists t, Session.ended_at s = Some t).
Proof.
  intros Hreach Hin. apply steps_statements in Hreach.
  assert (Forall times_consistent (sessions db)) as Hall.
  { apply (statements_invariant
             (fun d => Forall times_consistent (sessions d))
             statement_times_consistent _ _ Hreach).
    constructor. }
  rewrite Forall_forall in Hall. exact (Hall s Hin).
Qed.

(* ----------------------------------------------------------------- *)
(** *** Scores *)









(* ----------------------------------------------------------------- *)
(** *** When the store takes an answer *)

(** X8. A run of [handleAnswer] changes the store only when the page
    holds a session, a player, a question state and a question with
    nothing selected yet, the session's row is playing and the player
    is on record: outside a playing session, and for a player the
    store does not know, the answer is dropped. *)
Theorem answers_only_while_playing (choiceId : uuid)
    (st : PlayerSessionPage.t) (db : Db) (clk : clock) (now : timestamp) :
  snd (PlayerSessionPage.handleAnswer choiceId st db clk now) <> db ->
  exists s p,
    PlayerSessionPage.session st = Some s
    /\ PlayerSessionPage.player st = Some p
    /\ PlayerSessionPage.questionState st <> None
    /\ PlayerSessionPage.currentQuestion st <> None
    /\ PlayerSessionPage.selectedChoiceId st = None
    /\ session_exists db (Session.id s)
         (fun r => SessionStatus_eqb (Session.status r) playing) = true
    /\ existsb (fun r => (SessionPlayer.id r =? SessionPlayer.id p)%nat)
         (session_players db) = true.
Proof.
  unfold PlayerSessionPage.handleAnswer, PlayerSessionPage.submission.
  destruct (PlayerSessionPage.session st) as [s|]; [|intros H; now destruct H].
  destruct (PlayerSessionPage.player st) as [p|]; [|intros H; now destruct H].
  destruct (PlayerSessionPage.questionState st) as [qs|];
    [|intros H; now destruct H].
  destruct (PlayerSessionPage.currentQuestion st) as [cq|];
    [|intros H; now destruct H].
  destruct (PlayerSessionPage.selectedChoiceId st) as [c|];
    [intros H; now destruct H|].
  cbn [snd PlayerSessionPage.sub_session_id PlayerSessionPage.sub_player_id
       PlayerSessionPage.sub_question_id PlayerSessionPage.sub_is_correct
       PlayerSessionPage.sub_time_ms PlayerSessionPage.sub_points].
  intros H.
  destruct (insert_session_answer _ _ _ _ _ _ _ _ _) as [db'|e] eqn:E;
    [|now destruct H].
  apply insert_session_answer_inv in E.
  destruct E as (pts & _ & _ & Hplaying & Hfk & _).
  exists s, p. repeat split; try assumption; discriminate.
Qed.

End LifecycleInvariants.

Section LifecycleExamples.
Import Pg System Statements.
Local Existing Instance JsString.ascii_methods.




Lemma db_locked_reachable : reachable Scenario.db_locked.
Proof.
  eapply steps_trans; [exact db_answered_reachable|].
  exact db_locked_from_answered.
Qed.

Lemma db_finished_reachable : reachable Finale.db_finished.
Proof.
  eapply steps_step; [exact db_locked_reachable|].
  exact (step_endGame
           (Scenario.host_page Scenario.session_playing
              (Some Scenario.question_resumed))
           Scenario.db_locked (Scenario.at_ 95000)).
Qed.

(** The game ended at 95000 carries that end time. *)
Lemma finished_has_end_time_witness :
  sessions Finale.db_finished = [Finale.session_finished]
  /\ exists t, Session.ended_at Finale.session_finished = Some t.
Proof.
  assert (sessions Finale.db_finished = [Finale.session_finished]) as Hrows
    by (vm_compute; reflexivity).
  split; [exact Hrows|].
  apply (finished_has_end_time Finale.db_finished Finale.session_finished
           db_finished_reachable);
    [rewrite Hrows; now left | reflexivity].
Defined.




(** After the host removes the question Alex has answered, the answer
    is gone and Alex's score is still 1500. *)
Example score_outlives_deleted_answer :
  let db := GamePage.handleRemoveQuestion 0 true [101; 102]%nat
              (GamePage.mk (Some Scenario.host) (Some Scenario.game)
                 Scenario.questions)
              Scenario.db_answered in
  session_answers db = []
  /\ map SessionPlayer.score (session_players db) = [1500; 0; 0]
  /\ map (fun p => score_from_log (session_answers db) (SessionPlayer.id p))
       (session_players db) = [0; 0; 0].
Proof. repeat split; vm_compute; reflexivity. Qed.

(** Alex's answer, taken while the session is playing. *)
Lemma answers_only_while_playing_witness :
  session_exists Scenario.db_playing 0
    (fun r => SessionStatus_eqb (Session.status r) playing) = true.
Proof.
  destruct (answers_only_while_playing 102 Scenario.alex_page
              Scenario.db_playing (Scenario.at_ 50000) 50001)
    as (s & p & Hs & _ & _ & _ & _ & Hplaying & _).
  - intros H. apply (f_equal session_answers) in H.
    vm_compute in H. discriminate.
  - injection Hs as <-. exact Hplaying.
Defined.

End LifecycleExamples.

(* ================================================================= *)
(** ** The host remote: start, end and repeated clicks *)

Section HostRemote.
Import Pg System Statements.
Context {M : JsString.Methods}.

Lemma patch_session_idem p s :
  patch_session p (patch_session p s) = patch_session p s.
Proof.
  destruct p as [[st|] [i|] [e|]]; reflexivity.
Qed.

Lemma patch_question_state_idem p q :
  patch_question_state p (patch_question_state p q) = patch_question_state p q.
Proof.
  destruct p as [[a|] [b|] [c|] [d|] [e|] [f|] [g|]]; reflexivity.
Qed.

Lemma map_cond_idem {A : Type} (sel : A -> bool) (f : A -> A) (l : list A) :
  (forall x, sel (f x) = sel x) ->
  (forall x, f (f x) = f x) ->
  map (fun x => if sel x then f x else x)
    (map (fun x => if sel x then f x else x) l)
  = map (fun x => if sel x then f x else x) l.
Proof.
  intros Hs Hf. rewrite map_map. apply map_ext. intros x.
  destruct (sel x) eqn:E; [now rewrite Hs, E, Hf | now rewrite E].
Qed.

(** A second run of the same update of [sessions], on a store whose
    sessions are as the first run left them, changes nothing. *)
Lemma update_sessions_again auth sid p db db2 :
  sessions db2 = sessions (ignore_error (update_sessions auth sid p db) db) ->
  ignore_error (update_sessions auth sid p db2) db2 = db2.
Proof.
  unfold update_sessions.
  destruct (negb match set_current_question_index p with
                 | Some i => int4 i
                 | None => true
                 end) eqn:Eint; [reflexivity|].
  destruct (negb (sessions_active_code_idx _)) eqn:Eidx at 1; simpl.
  - intros H. rewrite H, Eidx. reflexivity.
  - intros H. rewrite H.
    rewrite (map_cond_idem
               (fun s => (Session.id s =? sid)%nat && owned_by auth s)
               (patch_session p)).
    + rewrite Eidx. simpl. destruct db2; simpl in *. now rewrite H.
    + intros x. reflexivity.
    + intros x. apply patch_session_idem.
Qed.

(** The outcome of opening a question does not depend on the clock. *)
Lemma insert_question_state_refused
    auth sid idx qid started ends started' ends' db e :
  insert_session_question_state auth sid idx qid started ends
    false false false db = Err e ->
  insert_session_question_state auth sid idx qid started' ends'
    false false false db = Err e.
Proof.
  unfold insert_session_question_state.
  destruct (negb (int4 idx)); [trivial|].
  destruct (negb (session_exists db sid (owned_by auth))); [trivial|].
  destruct (existsb _ (session_question_state db)); [trivial|discriminate].
Qed.

Lemma activate_again st sid idx qid now now' db :
  HostRemotePage.activate st sid idx qid now'
    (HostRemotePage.activate st sid idx qid now db)
  = HostRemotePage.activate st sid idx qid now db.
Proof.
  unfold HostRemotePage.activate.
  destruct (insert_session_question_state (HostRemotePage.user st) sid idx qid
              (Some now) _ false false false db) as [db'|e] eqn:E; simpl.
  - apply insert_session_question_state_inv in E. destruct E as (-> & _).
    unfold insert_session_question_state. simpl.
    destruct (negb (int4 idx)); [reflexivity|].
    destruct (negb (session_exists _ sid _)); [reflexivity|].
    rewrite existsb_app. simpl.
    rewrite Nat.eqb_refl, Z.eqb_refl. simpl.
    now rewrite orb_true_r.
  - now rewrite (insert_question_state_refused _ _ _ _ _ _
                   (Some now') (Some (now' + HostRemotePage.timerSeconds st * 1000))
                   _ _ E).
Qed.

Lemma activate_sessions st sid idx qid now db :
  sessions (HostRemotePage.activate st sid idx qid now db) = sessions db.
Proof. apply activate_frame. Qed.

(** X9. A second click on Start Game from the same page state changes
    nothing, whatever the store and the clocks: the session is not
    written twice, no second question state appears and the timer of
    the first question is not restarted. *)
Theorem startGame_double_click (st : HostRemotePage.t) (db : Db)
    (clk clk' : clock) :
  HostRemotePage.startGame st (HostRemotePage.startGame st db clk) clk'
  = HostRemotePage.startGame st db clk.
Proof.
  unfold HostRemotePage.startGame.
  destruct (HostRemotePage.session st) as [s|]; [|reflexivity].
  destruct (HostRemotePage.questions st) as [|q0 qs]; [reflexivity|].
  rewrite (update_sessions_again _ _ _ db) by apply activate_sessions.
  apply activate_again.
Qed.

(** X10. A second click on Next from the same page state, while a
    question is left to open, changes nothing: the index is not
    advanced twice and the question opened by the first click keeps
    its timer. *)
Theorem nextQuestion_double_click (st : HostRemotePage.t) (db : Db)
    (clk clk' : clock) (s : Session.t) :
  HostRemotePage.session st = Some s ->
  Session.current_question_index s + 1
  < Z.of_nat (List.length (HostRemotePage.questions st)) ->
  HostRemotePage.nextQuestion st (HostRemotePage.nextQuestion st db clk) clk'
  = HostRemotePage.nextQuestion st db clk.
Proof.
  intros Hs Hlt. unfold HostRemotePage.nextQuestion. rewrite Hs.
  destruct (HostRemotePage.questions st) as [|q0 qs] eqn:Eq; [reflexivity|].
  destruct (_ <=? _) eqn:E; [apply Z.leb_le in E; lia|].
  destruct (HostRemotePage.question_at _ _) as [q|].
  - rewrite (update_sessions_again _ _ _ db) by apply activate_sessions.
    apply activate_again.
  - now apply (update_sessions_again _ _ _ db).
Qed.

Lemma update_question_state_again auth qid p db :
  let db1 := ignore_error (update_session_question_state auth qid p db) db in
  ignore_error (update_session_question_state auth qid p db1) db1 = db1.
Proof.
  unfold update_session_question_state.
  destruct (negb match set_paused_remaining_ms p with
                 | Some (Some r) => int4 r
                 | _ => true
                 end) eqn:Eint; simpl; [reflexivity|].
  unfold session_exists. simpl.
  rewrite (map_cond_idem
             (fun q => (SessionQuestionState.id q =? qid)%nat
                       && existsb
                            (fun s => (Session.id s
                                       =? SessionQuestionState.session_id q)%nat
                                      && owned_by auth s) (sessions db))
             (patch_question_state p)).
  - reflexivity.
  - intros x. reflexivity.
  - intros x. apply patch_question_state_idem.
Qed.

Lemma update_removed_again auth pid db :
  let db1 := ignore_error (update_session_player_removed auth pid true db) db in
  ignore_error (update_session_player_removed auth pid true db1) db1 = db1.
Proof.
  unfold update_session_player_removed, session_exists. simpl.
  rewrite (map_cond_idem
             (fun p => (SessionPlayer.id p =? pid)%nat
                       && existsb
                            (fun s => (Session.id s
                                       =? SessionPlayer.session_id p)%nat
                                      && owned_by auth s) (sessions db))
             (set_is_removed true)).
  - reflexivity.
  - intros x. reflexivity.
  - intros x. reflexivity.
Qed.

(** X11. Ending a question, showing the leaderboard and removing a
    player are idempotent: run again from the same page state, on any
    store, each leaves the store as its first run left it. *)
Theorem host_flag_writes_idempotent (st : HostRemotePage.t) (db : Db) :
  HostRemotePage.endQuestionEarly st (HostRemotePage.endQuestionEarly st db)
  = HostRemotePage.endQuestionEarly st db
  /\ HostRemotePage.showLeaderboard st (HostRemotePage.showLeaderboard st db)
     = HostRemotePage.showLeaderboard st db
  /\ forall playerId,
       HostRemotePage.kickPlayer playerId st
         (HostRemotePage.kickPlayer playerId st db)
       = HostRemotePage.kickPlayer playerId st db.
Proof.
  unfold HostRemotePage.endQuestionEarly, HostRemotePage.showLeaderboard,
    HostRemotePage.kickPlayer.
  destruct (HostRemotePage.questionState st) as [qs|];
    destruct (HostRemotePage.session st) as [s|];
    repeat split; try reflexivity; intros;
    first [apply update_question_state_again | apply update_removed_again].
Qed.


(* ----------------------------------------------------------------- *)
(** *** Ending the game *)





(* ----------------------------------------------------------------- *)
(** *** Starting the game *)



End HostRemote.

(* ================================================================= *)
(** ** Reloading the host remote *)

Section HostReload.
Import Pg System Statements HostLoad.
Context {M : JsString.Methods}.

Lemma statement_question_state_keys db db' :
  statement db db' ->
  NoDup (map question_state_key (session_question_state db)) ->
  NoDup (map question_state_key (session_question_state db')).
Proof.
  intros Hst Hn. destruct Hst as [d d' Hw|games questions choices d];
    [|unfold cascade; simpl; now apply NoDup_map_filter].
  destruct Hw as
    [auth now gid hid code timer bonus db s0 db' H
    |auth sid0 p db db' Hpatch H
    |now sid0 name color db p db' H
    |auth pid db db' H
    |auth sid0 idx qid started ends db db' H
    |auth qid p db db' Hsafe H
    |now sid0 pid qid cid correct time_ms points db db' H].
  - apply insert_session_inv in H. now destruct H as [_ ->].
  - apply update_sessions_inv in H. now subst db'.
  - apply insert_session_player_inv in H. now destruct H as (_ & -> & _).
  - apply update_session_player_removed_inv in H. now subst db'.
  - apply insert_session_question_state_inv in H.
    destruct H as (-> & _ & Hnone). cbn [session_question_state].
    rewrite map_app. cbn [map]. apply NoDup_snoc; [assumption|].
    intros Hin. apply in_map_iff in Hin. destruct Hin as (q & Hkey & Hin).
    unfold question_state_key in Hkey. cbn in Hkey. injection Hkey as E1 E2.
    assert (existsb
              (fun q => (SessionQuestionState.session_id q =? sid0)%nat
                        && (SessionQuestionState.question_index q =? idx))
              (session_question_state db) = true) as Hex.
    { apply existsb_exists. exists q. split; [assumption|].
      now rewrite E1, E2, Nat.eqb_refl, Z.eqb_refl. }
    congruence.
  - apply update_session_question_state_inv in H. subst db'.
    cbn [session_question_state].
    rewrite map_key_cond; [assumption|]. intros x. reflexivity.
  - apply insert_session_answer_inv in H. now destruct H as (pts & _ & -> & _).
Qed.

Lemma reachable_question_state_keys db :
  reachable db -> NoDup (map question_state_key (session_question_state db)).
Proof.
  intros H. apply steps_statements in H.
  apply (statements_invariant
           (fun d => NoDup (map question_state_key (session_question_state d)))
           statement_question_state_keys _ _ H).
  constructor.
Qed.

Lemma single_by_key {A K : Type} (key : A -> K) (sel : A -> bool) (l : list A)
    (x : A) :
  NoDup (map key l) ->
  (forall a b, sel a = true -> sel b = true -> key a = key b) ->
  In x l -> sel x = true ->
  filter sel l = [x].
Proof.
  intros Hn Hsel Hin Hx.
  induction l as [|a l IH]; [destruct Hin|].
  inversion Hn as [|? ? Ha Hl]; subst. cbn [filter].
  destruct Hin as [->|Hin].
  - rewrite Hx. f_equal.
    destruct (filter sel l) as [|y l'] eqn:Ef; [reflexivity|].
    exfalso. assert (In y (filter sel l)) as Hy by (rewrite Ef; now left).
    apply filter_In in Hy. destruct Hy as [Hy Hsy].
    apply Ha. rewrite (Hsel x y Hx Hsy). now apply in_map.
  - destruct (sel a) eqn:E.
    + exfalso. apply Ha. rewrite (Hsel a x E Hx). now apply in_map.
    + now apply IH.
Qed.

(** X26. The host remote can be reloaded at any time. In a store the
    system can reach there is at most one question state per session
    and question index, and one session per id; so a reload of the
    remote on a session whose current index is not negative shows
    that session and, when the store holds a state for the current
    index, exactly that state, with the timer setting and questions
    of the game it was handed. *)
Theorem host_reload_finds_question (db : Db) (sessionId : uuid)
    (s : Session.t) (qs : SessionQuestionState.t) :
  reachable db ->
  session_row db sessionId = Some s ->
  0 <= Session.current_question_index s ->
  In qs (session_question_state db) ->
  SessionQuestionState.session_id qs = sessionId ->
  SessionQuestionState.question_index qs = Session.current_question_index s ->
  NoDup (map question_state_key (session_question_state db))
  /\ question_state_at db sessionId (Session.current_question_index s)
     = Some qs
  /\ forall gameData questionsData st,
       load sessionId (Some gameData) questionsData st db
       = Some (HostRemotePage.mk (HostRemotePage.user st) (Some s)
                 questionsData (Some qs) gameData).
Proof.
  intros Hreach Hrow Hidx Hin Hsid Hqi.
  pose proof (reachable_question_state_keys db Hreach) as Hkeys.
  pose proof (reachable_well_keyed db Hreach) as (_ & Hnodup & _).
  assert (question_state_at db sessionId (Session.current_question_index s)
          = Some qs) as Hat.
  { unfold question_state_at.
    rewrite (single_by_key question_state_key _ _ qs Hkeys); try assumption.
    - reflexivity.
    - intros a b Ha Hb. apply andb_prop in Ha, Hb.
      destruct Ha as [Ha1 Ha2], Hb as [Hb1 Hb2].
      apply Nat.eqb_eq in Ha1, Hb1. apply Z.eqb_eq in Ha2, Hb2.
      unfold question_state_key. congruence.
    - now rewrite Hsid, Hqi, Nat.eqb_refl, Z.eqb_refl. }
  split; [exact Hkeys|]. split; [exact Hat|].
  intros gameData questionsData st. unfold load.
  pose proof (find_some _ _ Hrow) as [Hs_in Hs_id].
  rewrite (single_by_key Session.id _ _ s Hnodup); try assumption.
  - cbn [maybeSingle]. rewrite Hat.
    apply Z.leb_le in Hidx. now rewrite Hidx.
  - intros a b Ha Hb. apply Nat.eqb_eq in Ha, Hb. congruence.
Qed.

End HostReload.

Section HostExamples.
Import Pg System Statements HostLoad.
Local Existing Instance JsString.ascii_methods.

(** The host, on question 1 of 2, clicks Next twice. *)
Lemma nextQuestion_double_click_witness :
  let st := Scenario.host_page Scenario.session_playing
              (Some Scenario.question_resumed) in
  HostRemotePage.nextQuestion st
    (HostRemotePage.nextQuestion st Scenario.db_locked (Scenario.at_ 96000))
    (Scenario.at_ 97000)
  = HostRemotePage.nextQuestion st Scenario.db_locked (Scenario.at_ 96000).
Proof.
  apply (nextQuestion_double_click _ _ _ _ Scenario.session_playing);
    [reflexivity | simpl; lia].
Defined.




(** The end is not final: the remote that still holds the session in
    the lobby, clicked on Start Game after the end, sets the finished
    session playing again. *)
Example finished_session_restarts :
  option_map Session.status (session_row Finale.db_finished 0) = Some finished
  /\ option_map Session.status
       (session_row
          (HostRemotePage.startGame
             (Scenario.host_page Scenario.session_lobby None)
             Finale.db_finished (Scenario.at_ 99000)) 0)
     = Some playing.
Proof. split; vm_compute; reflexivity. Qed.


(** The remote, reloaded while the first question is paused, shows
    the paused state. *)
Lemma host_reload_finds_question_witness :
  load 0 (Some 30) Scenario.questions
    (HostRemotePage.mk (Some Scenario.host) None [] None 30) Scenario.db_paused
  = Some (Scenario.host_page Scenario.session_playing
            (Some Scenario.question_paused)).
Proof.
  assert (reachable Scenario.db_paused) as Hreach.
  { eapply steps_step; [exact db_answered_reachable|].
    exact (step_pauseResume
             (Scenario.host_page Scenario.session_playing
                (Some Scenario.question_running))
             Scenario.db_answered (Scenario.at_ 60000)). }
  assert (In Scenario.question_paused
            (session_question_state Scenario.db_paused)) as Hin
    by (vm_compute; now left).
  assert (session_row Scenario.db_paused 0 = Some Scenario.session_playing)
    as Hrow by (vm_compute; reflexivity).
  assert (0 <= Session.current_question_index Scenario.session_playing)
    as Hidx by (simpl; lia).
  destruct (host_reload_finds_question Scenario.db_paused 0
              Scenario.session_playing Scenario.question_paused Hreach Hrow
              Hidx Hin eq_refl eq_refl)
    as (_ & _ & Hload).
  apply Hload.
Defined.

End HostExamples.

(* ================================================================= *)
(** ** The realtime feed: rosters kept by events *)

Section RosterFeed.
Import Pg System Statements Realtime.
Context {M : JsString.Methods}.










(* ----------------------------------------------------------------- *)
(** *** Question states and answers on the player page *)

(** X15. A player page never stays on a locked question: when the
    feed delivers the update of a question-state row that is locked
    in a store the system can reach, the page moves to the
    leaderboard if the row shows it and to the results otherwise,
    whatever phase it was in; the page keeps the row as its question
    state and its selection and answer result as they were. *)
Theorem locked_update_reveals (db : Db) (qs : SessionQuestionState.t)
    (st : PlayerSessionPage.t) :
  reachable db ->
  In qs (session_question_state db) ->
  SessionQuestionState.is_locked qs = true ->
  let st' := PlayerFeed.onQuestionStateChange (mkPayload UPDATE qs) st in
  PlayerSessionPage.phase st'
  = (if SessionQuestionState.show_leaderboard qs
     then PlayerPhase.leaderboard else PlayerPhase.results)
  /\ PlayerSessionPage.questionState st' = Some qs
  /\ PlayerSessionPage.selectedChoiceId st'
     = PlayerSessionPage.selectedChoiceId st
  /\ PlayerSessionPage.answerResult st' = PlayerSessionPage.answerResult st.
Proof.
  intros Hreach Hin Hlocked st'.
  pose proof (reachable_locked_shows_results db Hreach) as Hinv.
  unfold locked_shows_results in Hinv. rewrite Forall_forall in Hinv.
  pose proof (Hinv qs Hin Hlocked) as Hres.
  unfold st', PlayerFeed.onQuestionStateChange. cbn. rewrite Hres.
  repeat split.
Qed.

(** X16. An accepted answer survives a reload. When a run of
    [handleAnswer] has changed the store, a page that holds the same
    session, player and question and then looks for an existing
    answer finds exactly that answer: it shows the choice made, the
    correctness and the points on record, in its answered phase; and
    on that page a further [handleAnswer] changes neither page nor
    store. *)
Theorem reload_restores_answer (choiceId : uuid) (st : PlayerSessionPage.t)
    (db : Db) (clk : clock) (now : timestamp) (pg : PlayerSessionPage.t) :
  let db' := snd (PlayerSessionPage.handleAnswer choiceId st db clk now) in
  db' <> db ->
  PlayerSessionPage.session pg = PlayerSessionPage.session st ->
  PlayerSessionPage.player pg = PlayerSessionPage.player st ->
  PlayerSessionPage.questionState pg = PlayerSessionPage.questionState st ->
  PlayerSessionPage.currentQuestion pg = PlayerSessionPage.currentQuestion st ->
  let pg' := PlayerFeed.checkExistingAnswer pg db' in
  PlayerSessionPage.phase pg' = PlayerPhase.answered
  /\ PlayerSessionPage.selectedChoiceId pg' = Some choiceId
  /\ (exists sub pts,
         PlayerSessionPage.submission st choiceId clk = Some sub
         /\ int4_of_number (PlayerSessionPage.sub_points sub) = Some pts
         /\ PlayerSessionPage.answerResult pg'
            = Some (PlayerSessionPage.sub_is_correct sub, JsNumber.num pts))
  /\ (forall choiceId' clk' now',
         PlayerSessionPage.handleAnswer choiceId' pg' db' clk' now'
         = (pg', db')).
Proof.
  intros db' Hchanged Hs Hp Hq Hc pg'.
  assert (exists sub pts row,
             PlayerSessionPage.submission st choiceId clk = Some sub
             /\ int4_of_number (PlayerSessionPage.sub_points sub) = Some pts
             /\ row = SessionAnswer.mk (next_uuid db)
                        (PlayerSessionPage.sub_session_id sub)
                        (PlayerSessionPage.sub_player_id sub)
                        (PlayerSessionPage.sub_question_id sub) choiceId now
                        (PlayerSessionPage.sub_is_correct sub)
                        (PlayerSessionPage.sub_time_ms sub) pts
             /\ session_answers db' = (session_answers db ++ [row])%list
             /\ existsb (same_answer_key
                           (PlayerSessionPage.sub_session_id sub)
                           (PlayerSessionPage.sub_player_id sub)
                           (PlayerSessionPage.sub_question_id sub))
                  (session_answers db) = false)
    as (sub & pts & row & Hsub & Hpts & Hrow & Hanswers & Hnone).
  { unfold db', PlayerSessionPage.handleAnswer in *.
    destruct (PlayerSessionPage.submission st choiceId clk) as [sub|];
      [|now destruct Hchanged].
    cbn [snd] in *.
    destruct (insert_session_answer _ _ _ _ _ _ _ _ _) as [d|e] eqn:E;
      [|now destruct Hchanged].
    apply insert_session_answer_inv in E.
    destruct E as (pts & Hpts & -> & _ & _ & Hnone).
    exists sub, pts. eexists. repeat split; try eassumption; reflexivity. }
  assert (exists s p qs cq,
             PlayerSessionPage.session st = Some s
             /\ PlayerSessionPage.player st = Some p
             /\ PlayerSessionPage.questionState st = Some qs
             /\ PlayerSessionPage.currentQuestion st = Some cq
             /\ PlayerSessionPage.sub_session_id sub = Session.id s
             /\ PlayerSessionPage.sub_player_id sub = SessionPlayer.id p
             /\ PlayerSessionPage.sub_question_id sub
                = SessionQuestionState.question_id qs)
    as (s & p & qs & cq & Es & Ep & Eq & Ec & Hsid & Hpid & Hqid).
  { unfold PlayerSessionPage.submission in Hsub.
    destruct (PlayerSessionPage.session st) as [s|]; [|discriminate].
    destruct (PlayerSessionPage.player st) as [p|]; [|discriminate].
    destruct (PlayerSessionPage.questionState st) as [qs|]; [|discriminate].
    destruct (PlayerSessionPage.currentQuestion st) as [cq|]; [|discriminate].
    destruct (PlayerSessionPage.selectedChoiceId st); [discriminate|].
    injection Hsub as <-. exists s, p, qs, cq. repeat split. }
  assert (filter (same_answer_key (Session.id s) (SessionPlayer.id p)
                    (SessionQuestionState.question_id qs))
            (session_answers db') = [row]) as Hfound.
  { rewrite Hanswers, filter_app. rewrite <- Hsid, <- Hpid, <- Hqid.
    assert (filter (same_answer_key (PlayerSessionPage.sub_session_id sub)
                      (PlayerSessionPage.sub_player_id sub)
                      (PlayerSessionPage.sub_question_id sub))
              (session_answers db) = []) as ->.
    { destruct (filter _ (session_answers db)) as [|a l] eqn:Ef;
        [reflexivity|].
      assert (filter (same_answer_key (PlayerSessionPage.sub_session_id sub)
                        (PlayerSessionPage.sub_player_id sub)
                        (PlayerSessionPage.sub_question_id sub))
                (session_answers db) <> []) as Hne
        by (rewrite Ef; discriminate).
      apply filter_nonempty_existsb in Hne. congruence. }
    simpl. rewrite Hrow. unfold same_answer_key. simpl.
    now rewrite !Nat.eqb_refl. }
  assert (pg' = PlayerSessionPage.mk PlayerPhase.answered
                  (PlayerSessionPage.session pg) (PlayerSessionPage.player pg)
                  (PlayerSessionPage.players pg)
                  (PlayerSessionPage.questionState pg)
                  (PlayerSessionPage.currentQuestion pg)
                  (Some choiceId) (PlayerSessionPage.displayName pg)
                  (PlayerSessionPage.avatarColor pg)
                  (PlayerSessionPage.error pg)
                  (Some (PlayerSessionPage.sub_is_correct sub, JsNumber.num pts))
                  (PlayerSessionPage.localStorage pg)) as Hpg'.
  { unfold pg', PlayerFeed.checkExistingAnswer.
    rewrite Hs, Hp, Hq, Hc, Es, Ep, Eq, Ec, Hfound. cbn [maybeSingle].
    rewrite Hrow. reflexivity. }
  rewrite Hpg'. cbn. repeat split.
  - exists sub, pts. repeat split; assumption.
  - intros choiceId' clk' now'.
    unfold PlayerSessionPage.handleAnswer, PlayerSessionPage.submission. cbn.
    now destruct (PlayerSessionPage.session pg), (PlayerSessionPage.player pg),
      (PlayerSessionPage.questionState pg),
      (PlayerSessionPage.currentQuestion pg).
Qed.

End RosterFeed.

Section RosterFeedExamples.
Import Pg System Statements Realtime.
Local Existing Instance JsString.ascii_methods.



(** The host deletes the game while two players sit in the lobby: the
    store holds no player of the session any more, and no INSERT or
    UPDATE event tells the pages. *)
Example delete_empties_roster :
  map SessionPlayer.display_name (roster Scenario.db_two 0) = ["Alex"; "alex2"]
  /\ roster (GamePage.handleDeleteGame 1 true Scenario.questions
               [101; 102]%nat Scenario.db_two) 0 = [].
Proof. split; vm_compute; reflexivity. Qed.

(** The lock of the scenario's first question sends Alex's page, in
    its answered phase, to the results. *)
Lemma locked_update_reveals_witness :
  exists qs,
    session_question_state Scenario.db_locked = [qs]
    /\ PlayerSessionPage.phase
         (PlayerFeed.onQuestionStateChange (mkPayload UPDATE qs)
            (fst (PlayerSessionPage.handleAnswer 102 Scenario.alex_page
                    Scenario.db_playing (Scenario.at_ 50000) 50001)))
       = PlayerPhase.results.
Proof.
  eexists. split; [vm_compute; reflexivity|].
  refine (proj1 (locked_update_reveals Scenario.db_locked _ _
                   db_locked_reachable _ _)).
  - vm_compute. left. reflexivity.
  - reflexivity.
Defined.

(** Alex reloads after answering: the page is back on choice 102,
    answered. *)
Lemma reload_restores_answer_witness :
  PlayerSessionPage.selectedChoiceId
    (PlayerFeed.checkExistingAnswer Scenario.alex_page Scenario.db_answered)
  = Some 102%nat.
Proof.
  refine (proj1 (proj2 (reload_restores_answer 102 Scenario.alex_page
                          Scenario.db_playing (Scenario.at_ 50000) 50001
                          Scenario.alex_page _ eq_refl eq_refl eq_refl
                          eq_refl))).
  intros H. apply (f_equal session_answers) in H. vm_compute in H.
  discriminate.
Defined.

End RosterFeedExamples.

(* ================================================================= *)
(** ** Leaderboards and ranks *)

Ltac z_tests :=
  repeat match goal with
         | H : (_ <? _) = true |- _ => apply Z.ltb_lt in H
         | H : (_ <? _) = false |- _ => apply Z.ltb_ge in H
         | H : (_ =? _) = true |- _ => apply Z.eqb_eq in H
         | H : (_ =? _) = false |- _ => apply Z.eqb_neq in H
         | H : (_ <=? _) = true |- _ => apply Z.leb_le in H
         | H : (_ <=? _) = false |- _ => apply Z.leb_gt in H
         end.

Section LeaderboardFacts.
Import Pg Leaderboard.
Context {M : JsString.Methods}.

Lemma insert_perm (p : SessionPlayer.t) (l : list SessionPlayer.t) :
  Permutation (insert p l) (p :: l).
Proof.
  induction l as [|q l IH]; simpl; [apply Permutation_refl|].
  destruct (SessionPlayer.score p <? SessionPlayer.score q).
  - eapply Permutation_trans; [apply perm_skip, IH | apply perm_swap].
  - apply Permutation_refl.
Qed.

Lemma sorted_perm (players : list SessionPlayer.t) :
  Permutation (sorted players) players.
Proof.
  induction players as [|p l IH]; simpl; [constructor|].
  eapply Permutation_trans; [apply insert_perm | now apply perm_skip].
Qed.

Lemma insert_desc (p : SessionPlayer.t) (l : list SessionPlayer.t) :
  StronglySorted desc l -> StronglySorted desc (insert p l).
Proof.
  induction l as [|q l IH]; simpl; intros H.
  - constructor; constructor.
  - inversion H as [|? ? Hl Hq]; subst.
    destruct (SessionPlayer.score p <? SessionPlayer.score q) eqn:E.
    + constructor; [now apply IH|].
      apply Forall_forall. intros x Hx.
      apply (Permutation_in _ (insert_perm p l)) in Hx.
      destruct Hx as [<-|Hx].
      * unfold desc. apply Z.ltb_lt in E. lia.
      * rewrite Forall_forall in Hq. now apply Hq.
    + apply Z.ltb_ge in E. constructor; [assumption|].
      constructor; [exact E|].
      rewrite Forall_forall in *. intros x Hx. specialize (Hq x Hx).
      unfold desc in *. lia.
Qed.

Lemma sorted_desc (players : list SessionPlayer.t) :
  StronglySorted desc (sorted players).
Proof.
  induction players as [|p l IH]; simpl; [constructor | now apply insert_desc].
Qed.

Lemma insert_stable (v : Z) (p : SessionPlayer.t) (l : list SessionPlayer.t) :
  filter (fun a => SessionPlayer.score a =? v) (insert p l)
  = filter (fun a => SessionPlayer.score a =? v) (p :: l).
Proof.
  induction l as [|q l IH]; [reflexivity|]. cbn [insert].
  destruct (SessionPlayer.score p <? SessionPlayer.score q) eqn:E;
    [|reflexivity].
  cbn [filter] in *. rewrite IH.
  destruct (SessionPlayer.score p =? v) eqn:Ep; [|reflexivity].
  assert ((SessionPlayer.score q =? v) = false) as ->; [|reflexivity].
  apply Z.eqb_eq in Ep. apply Z.ltb_lt in E. apply Z.eqb_neq. lia.
Qed.

Lemma sorted_stable (v : Z) (players : list SessionPlayer.t) :
  filter (fun a => SessionPlayer.score a =? v) (sorted players)
  = filter (fun a => SessionPlayer.score a =? v) players.
Proof.
  induction players as [|p l IH]; [reflexivity|].
  cbn [sorted fold_right]. fold (sorted l). rewrite insert_stable.
  cbn [filter]. now rewrite IH.
Qed.

(** Nobody left off the first [n] rows outscores somebody on them. *)
Lemma cut_desc (n : nat) (l : list SessionPlayer.t) (a b : SessionPlayer.t) :
  StronglySorted desc l ->
  In a (firstn n l) -> In b (skipn n l) ->
  SessionPlayer.score b <= SessionPlayer.score a.
Proof.
  revert l. induction n as [|n IH]; intros l Hs Ha Hb; [destruct Ha|].
  destruct l as [|q l]; [destruct Ha|]. simpl in Ha, Hb.
  inversion Hs as [|? ? Hl Hq]; subst.
  destruct Ha as [<-|Ha].
  - rewrite Forall_forall in Hq. apply Hq.
    rewrite <- (firstn_skipn n l). apply in_or_app. now right.
  - now apply (IH l).
Qed.

(** X17. Every leaderboard lists the roster it was given, each player
    once, by score from high to low, with players of equal score in
    roster order. The rows shown are the first of that list (ten on
    the player page, five in the host's preview, eight on the big
    screen, three on the podium with the rest below), so nobody left
    off a list has a higher score than somebody on it. *)
Theorem leaderboard_order (players : list SessionPlayer.t) :
  Permutation (sorted players) players
  /\ StronglySorted
       (fun a b => SessionPlayer.score b <= SessionPlayer.score a)
       (sorted players)
  /\ (forall v,
         filter (fun a => SessionPlayer.score a =? v) (sorted players)
         = filter (fun a => SessionPlayer.score a =? v) players)
  /\ (podium players ++ rest players)%list = sorted players
  /\ (forall a b,
         In a (podium players) -> In b (rest players) ->
         SessionPlayer.score b <= SessionPlayer.score a)
  /\ (forall a b,
         In a (player_top players) -> In b (skipn 10 (sorted players)) ->
         SessionPlayer.score b <= SessionPlayer.score a)
  /\ (forall a b,
         In a (host_preview players) -> In b (skipn 5 (sorted players)) ->
         SessionPlayer.score b <= SessionPlayer.score a)
  /\ (forall a b,
         In a (screen_top players) -> In b (skipn 8 (sorted players)) ->
         SessionPlayer.score b <= SessionPlayer.score a).
Proof.
  pose proof (sorted_desc players) as Hs.
  split; [apply sorted_perm|]. split; [exact Hs|].
  split; [intros v; apply sorted_stable|].
  split; [apply firstn_skipn|].
  repeat split; intros a b; now apply cut_desc.
Qed.

(* ----------------------------------------------------------------- *)
(** *** The rank of the page's own player *)

Lemma findIndex_range {A : Type} (f : A -> bool) (l : list A) :
  (existsb f l = false /\ findIndex f l = -1)
  \/ (existsb f l = true
      /\ 0 <= findIndex f l < Z.of_nat (List.length l)).
Proof.
  induction l as [|x l IH]; [now left|]. cbn [findIndex existsb List.length].
  destruct (f x); [right; split; [reflexivity | lia]|].
  destruct IH as [[-> ->]|[-> Hi]]; [now left|]. right.
  split; [reflexivity|].
  destruct (findIndex f l <? 0) eqn:E; [apply Z.ltb_lt in E|]; lia.
Qed.

Lemma findIndex_insert_other (f : SessionPlayer.t -> bool) (m : Z)
    (p : SessionPlayer.t) (l : list SessionPlayer.t) :
  f p = false ->
  StronglySorted desc l ->
  (forall a, In a l -> f a = true -> SessionPlayer.score a = m) ->
  existsb f l = true ->
  findIndex f (insert p l)
  = findIndex f l + (if m <=? SessionPlayer.score p then 1 else 0).
Proof.
  intros Hp. induction l as [|q l IH]; intros Hs Hm Hex; [discriminate|].
  inversion Hs as [|? ? Hl Hq]; subst. cbn [insert].
  destruct (SessionPlayer.score p <? SessionPlayer.score q) eqn:E.
  - apply Z.ltb_lt in E. cbn [findIndex]. destruct (f q) eqn:Fq.
    + rewrite <- (Hm q (or_introl eq_refl) Fq).
      destruct (SessionPlayer.score q <=? SessionPlayer.score p) eqn:E';
        [apply Z.leb_le in E'; lia | reflexivity].
    + cbn [existsb] in Hex. rewrite Fq in Hex. simpl in Hex.
      rewrite (IH Hl (fun a Ha => Hm a (or_intror Ha)) Hex).
      destruct (findIndex_range f l) as [[Hno _]|[_ Hi]]; [congruence|].
      destruct (m <=? SessionPlayer.score p);
        repeat match goal with
               | |- context [?x <? 0] =>
                   destruct (x <? 0) eqn:?
               end;
        repeat match goal with
               | H : (_ <? 0) = true |- _ => apply Z.ltb_lt in H
               | H : (_ <? 0) = false |- _ => apply Z.ltb_ge in H
               end; lia.
  - apply Z.ltb_ge in E.
    assert (m <= SessionPlayer.score p) as Hle.
    { apply existsb_exists in Hex. destruct Hex as (a & Ha & Fa).
      rewrite <- (Hm a Ha Fa). destruct Ha as [<-|Ha]; [assumption|].
      rewrite Forall_forall in Hq. specialize (Hq a Ha). unfold desc in Hq.
      lia. }
    apply Z.leb_le in Hle. rewrite Hle.
    change (findIndex f (p :: q :: l))
      with (if f p then 0
            else let i := findIndex f (q :: l) in
                 if i <? 0 then -1 else i + 1).
    rewrite Hp. cbv zeta.
    destruct (findIndex_range f (q :: l)) as [[Hno _]|[_ Hi]]; [congruence|].
    destruct (findIndex f (q :: l) <? 0) eqn:E';
      [apply Z.ltb_lt in E'; lia | reflexivity].
Qed.

Lemma filter_above_empty (p q : SessionPlayer.t) (l : list SessionPlayer.t) :
  Forall (desc q) l ->
  SessionPlayer.score q <= SessionPlayer.score p ->
  filter (fun a => SessionPlayer.score p <? SessionPlayer.score a) l = [].
Proof.
  intros Hq Hle. induction Hq as [|a l Ha Hq IH]; [reflexivity|].
  cbn [filter]. unfold desc in Ha.
  assert ((SessionPlayer.score p <? SessionPlayer.score a) = false) as ->
    by (apply Z.ltb_ge; lia).
  exact IH.
Qed.

Lemma findIndex_insert_own (f : SessionPlayer.t -> bool) (p : SessionPlayer.t)
    (l : list SessionPlayer.t) :
  f p = true ->
  (forall a, In a l -> f a = false) ->
  StronglySorted desc l ->
  findIndex f (insert p l)
  = Z.of_nat
      (List.length
         (filter (fun a => SessionPlayer.score p <? SessionPlayer.score a) l)).
Proof.
  intros Hp. induction l as [|q l IH]; intros Hno Hs.
  - simpl. now rewrite Hp.
  - inversion Hs as [|? ? Hl Hq]; subst. cbn [insert filter].
    destruct (SessionPlayer.score p <? SessionPlayer.score q) eqn:E.
    + cbn [findIndex List.length].
      rewrite (Hno q (or_introl eq_refl)).
      rewrite (IH (fun a Ha => Hno a (or_intror Ha)) Hl).
      destruct (Z.of_nat _ <? 0) eqn:E'; [apply Z.ltb_lt in E'|]; lia.
    + cbn [findIndex]. rewrite Hp. apply Z.ltb_ge in E.
      now rewrite (filter_above_empty p q l Hq E).
Qed.

Lemma perm_filter_length {A : Type} (f : A -> bool) (l l' : list A) :
  Permutation l l' ->
  List.length (filter f l) = List.length (filter f l').
Proof.
  intros H. induction H as [|x l l' H IH|x y l|l l' l'' H IH H' IH'];
    simpl; try reflexivity.
  - destruct (f x); simpl; now rewrite IH.
  - destruct (f x), (f y); reflexivity.
  - now rewrite IH.
Qed.

Lemma NoDup_map_eq {A B : Type} (g : A -> B) (l : list A) (a b : A) :
  NoDup (map g l) -> In a l -> In b l -> g a = g b -> a = b.
Proof.
  induction l as [|x l IH]; simpl; intros Hn Ha Hb Hg; [destruct Ha|].
  inversion Hn as [|? ? Hx Hn']; subst.
  destruct Ha as [->|Ha], Hb as [->|Hb]; try reflexivity.
  - exfalso. apply Hx. rewrite Hg. now apply in_map.
  - exfalso. apply Hx. rewrite <- Hg. now apply in_map.
  - now apply IH.
Qed.

Lemma rank_index (before : list SessionPlayer.t) (me : SessionPlayer.t)
    (after : list SessionPlayer.t) :
  NoDup (map SessionPlayer.id (before ++ me :: after)) ->
  findIndex (fun a => (SessionPlayer.id a =? SessionPlayer.id me)%nat)
    (sorted (before ++ me :: after))
  = Z.of_nat
      (List.length
         (filter (fun a => SessionPlayer.score me <? SessionPlayer.score a)
            (before ++ after)))
    + Z.of_nat
        (List.length
           (filter (fun a => SessionPlayer.score a =? SessionPlayer.score me)
              before)).
Proof.
  induction before as [|b before IH]; intros Hn.
  - cbn [app sorted fold_right filter List.length]. fold (sorted after).
    rewrite findIndex_insert_own.
    + rewrite (perm_filter_length _ _ _ (sorted_perm after)). simpl. lia.
    + apply Nat.eqb_refl.
    + intros a Ha. apply (Permutation_in _ (sorted_perm after)) in Ha.
      apply Nat.eqb_neq. intros Hid. simpl in Hn.
      inversion Hn as [|? ? Hme _]; subst. apply Hme. rewrite <- Hid.
      now apply in_map.
    + apply sorted_desc.
  - cbn [app map] in Hn. inversion Hn as [|? ? Hb Hn']; subst.
    cbn [app sorted fold_right]. fold (sorted (before ++ me :: after)).
    rewrite (findIndex_insert_other _ (SessionPlayer.score me)).
    + rewrite (IH Hn'). cbn [filter].
      destruct (SessionPlayer.score me <? SessionPlayer.score b) eqn:E1;
        destruct (SessionPlayer.score b =? SessionPlayer.score me) eqn:E2;
        destruct (SessionPlayer.score me <=? SessionPlayer.score b) eqn:E3;
        cbn [List.length]; z_tests; lia.
    + apply Nat.eqb_neq. intros Hid. apply Hb. rewrite Hid.
      apply in_map, in_or_app. right. now left.
    + apply sorted_desc.
    + intros a Ha Hid. apply Nat.eqb_eq in Hid.
      apply (Permutation_in _ (sorted_perm _)) in Ha.
      f_equal.
      apply (NoDup_map_eq SessionPlayer.id (before ++ me :: after));
        try assumption.
      apply in_or_app. right. now left.
    + apply existsb_exists. exists me. split; [|apply Nat.eqb_refl].
      apply (Permutation_in _ (Permutation_sym (sorted_perm _))).
      apply in_or_app. right. now left.
Qed.

(** X18. The rank on the player's Game Over screen. With the page's
    own player on a roster of distinct ids, [myRank] is one more than
    the number of players with a strictly higher score plus the number
    of players with the same score who stand before the player in the
    roster: ties are ranked in roster order. The rank lies between 1
    and the size of the roster. A page whose player is on no row of
    its roster shows rank 0. *)
Theorem myRank_counts_those_ahead (st : PlayerSessionPage.t)
    (before : list SessionPlayer.t) (me : SessionPlayer.t)
    (after : list SessionPlayer.t) (p : SessionPlayer.t) :
  PlayerSessionPage.players st = (before ++ me :: after)%list ->
  NoDup (map SessionPlayer.id (PlayerSessionPage.players st)) ->
  PlayerSessionPage.player st = Some p ->
  SessionPlayer.id p = SessionPlayer.id me ->
  myRank st
  = 1
    + Z.of_nat
        (List.length
           (filter (fun a => SessionPlayer.score me <? SessionPlayer.score a)
              (before ++ after)))
    + Z.of_nat
        (List.length
           (filter (fun a => SessionPlayer.score a =? SessionPlayer.score me)
              before))
  /\ 1 <= myRank st <= Z.of_nat (List.length (PlayerSessionPage.players st))
  /\ forall st',
       (forall a, In a (PlayerSessionPage.players st') ->
                  is_player (PlayerSessionPage.player st') a = false) ->
       myRank st' = 0.
Proof.
  intros Hplayers Hn Hp Hid.
  assert (myRank st
          = findIndex (fun a => (SessionPlayer.id a =? SessionPlayer.id me)%nat)
              (sorted (before ++ me :: after)) + 1) as Hrank.
  { unfold myRank, is_player. rewrite Hp, Hplayers, Hid. reflexivity. }
  split; [|split].
  - rewrite Hrank, rank_index by (rewrite <- Hplayers; exact Hn). lia.
  - rewrite Hrank.
    destruct (findIndex_range
                (fun a => (SessionPlayer.id a =? SessionPlayer.id me)%nat)
                (sorted (before ++ me :: after))) as [[Hno _]|[_ Hi]].
    + exfalso.
      assert (existsb (fun a => (SessionPlayer.id a =? SessionPlayer.id me)%nat)
                (sorted (before ++ me :: after)) = true) as Hex.
      { apply existsb_exists. exists me. split; [|apply Nat.eqb_refl].
        apply (Permutation_in _ (Permutation_sym (sorted_perm _))).
        apply in_or_app. right. now left. }
      congruence.
    + rewrite (Permutation_length (sorted_perm _)) in Hi.
      rewrite Hplayers. lia.
  - intros st' Hnone. unfold myRank.
    destruct (findIndex_range (is_player (PlayerSessionPage.player st'))
                (sorted (PlayerSessionPage.players st')))
      as [[_ ->]|[Hex _]]; [reflexivity|].
    apply existsb_exists in Hex. destruct Hex as (a & Ha & Fa).
    apply (Permutation_in _ (sorted_perm _)) in Ha.
    rewrite (Hnone a Ha) in Fa. discriminate.
Qed.

(* ----------------------------------------------------------------- *)
(** *** The points under the rank *)

Lemma page_step_player st st' :
  PlayerPageRun.page_step st st' ->
  PlayerSessionPage.player st' = PlayerSessionPage.player st
  /\ PlayerSessionPage.localStorage st' = PlayerSessionPage.localStorage st.
Proof.
  intros H. destruct H.
  - split; reflexivity.
  - unfold PlayerFeed.onPlayerChange.
    destruct (Realtime.eventType ev); [split; reflexivity|].
    destruct (match PlayerSessionPage.player st with
              | Some me => _
              | None => false
              end); split; reflexivity.
  - unfold PlayerFeed.onQuestionStateChange.
    destruct (Realtime.eventType ev); split; reflexivity.
  - unfold PlayerPageRun.loadQuestion.
    destruct (PlayerSessionPage.questionState st), data; split; reflexivity.
  - unfold PlayerFeed.checkExistingAnswer.
    destruct st as [ph se pl ps qs cq sel dn ac er ar ls].
    cbn [PlayerSessionPage.questionState PlayerSessionPage.player
         PlayerSessionPage.currentQuestion PlayerSessionPage.session].
    destruct qs, pl, cq, se; try (split; reflexivity).
    destruct (maybeSingle _); split; reflexivity.
  - unfold PlayerSessionPage.handleAnswer.
    destruct (PlayerSessionPage.submission st choiceId clk); split; reflexivity.
Qed.

Lemma page_steps_player st st' :
  PlayerPageRun.page_steps st st' ->
  PlayerSessionPage.player st' = PlayerSessionPage.player st.
Proof.
  intros H. induction H as [|st1 st2 st3 H12 IH H23]; [reflexivity|].
  rewrite <- IH. now apply page_step_player.
Qed.

(** X19. The points under "You placed" are never refreshed. No
    realtime event, no load of a question, no look-up of an existing
    answer and no tap on a choice changes the page's own player row:
    it stays the row stored when the page joined. A page that joined
    its player shows 0 points on its Game Over screen, whatever the
    player scored and whatever score the roster beside it lists. *)
Theorem own_points_never_refreshed (pg pg1 st' : PlayerSessionPage.t)
    (db db1 : Db) (now : timestamp) :
  PlayerSessionPage.handleJoin pg db now = Some (pg1, db1) ->
  db1 <> db ->
  PlayerPageRun.page_steps pg1 st' ->
  myPoints st' = Some 0
  /\ PlayerSessionPage.player st' = PlayerSessionPage.player pg1
  /\ forall st1 st2,
       PlayerPageRun.page_steps st1 st2 ->
       PlayerSessionPage.player st2 = PlayerSessionPage.player st1.
Proof.
  intros Hjoin Hchanged Hsteps.
  pose proof (page_steps_player pg1 st' Hsteps) as Hplayer.
  split; [|split; [exact Hplayer | exact page_steps_player]].
  unfold myPoints. rewrite Hplayer.
  unfold PlayerSessionPage.handleJoin in Hjoin.
  destruct (PlayerSessionPage.session pg) as [s|];
    [|injection Hjoin as _ <-; now destruct Hchanged].
  destruct (String.eqb _ _);
    [injection Hjoin as _ <-; now destruct Hchanged|].
  destruct (PlayerSessionPage.finalName_of _ _) as [finalName|];
    [|discriminate].
  destruct (insert_session_player _ _ _ _ _) as [[p d]|e] eqn:E;
    [|injection Hjoin as _ <-; now destruct Hchanged].
  apply insert_session_player_inv in E. destruct E as (-> & _).
  injection Hjoin as <- _. reflexivity.
Qed.

End LeaderboardFacts.

Section LeaderboardExamples.
Import Pg Leaderboard.
Local Existing Instance JsString.ascii_methods.

(** ALEX3, level on 0 points with alex2 who joined earlier, places
    third behind Alex (1500) and alex2. *)
Lemma myRank_counts_those_ahead_witness :
  myRank AlexPage.alex3_game_over = 3.
Proof.
  assert (PlayerSessionPage.players AlexPage.alex3_game_over
          = ([set_score 1500 Scenario.alex; Scenario.alex2]
             ++ AlexPage.alex3 :: [])%list) as Hplayers
    by (vm_compute; reflexivity).
  assert (NoDup (map SessionPlayer.id
                   (PlayerSessionPage.players AlexPage.alex3_game_over)))
    as Hn.
  { rewrite Hplayers. simpl. repeat constructor; simpl; intuition discriminate. }
  rewrite (proj1 (myRank_counts_those_ahead AlexPage.alex3_game_over
                    [set_score 1500 Scenario.alex; Scenario.alex2]
                    AlexPage.alex3 [] AlexPage.alex3 Hplayers Hn eq_refl
                    eq_refl)).
  reflexivity.
Defined.

(** Alex, first with 1500 points on the roster, is shown 0 points. *)
Lemma own_points_never_refreshed_witness :
  myPoints AlexPage.game_over = Some 0
  /\ map SessionPlayer.score (PlayerSessionPage.players AlexPage.game_over)
     = [1500]
  /\ myRank AlexPage.game_over = 1.
Proof.
  assert (PlayerSessionPage.handleJoin AlexPage.opened Scenario.db_lobby 2100
          = Some (AlexPage.joined, Scenario.join "Alex" 2100 Scenario.db_lobby))
    as Hjoin by (vm_compute; reflexivity).
  assert (Scenario.join "Alex" 2100 Scenario.db_lobby <> Scenario.db_lobby)
    as Hchanged.
  { intros H. apply (f_equal session_players) in H. vm_compute in H.
    discriminate. }
  assert (PlayerPageRun.page_steps AlexPage.joined AlexPage.game_over)
    as Hsteps.
  { eapply PlayerPageRun.page_steps_step;
      [eapply PlayerPageRun.page_steps_step;
       [eapply PlayerPageRun.page_steps_step;
        [eapply PlayerPageRun.page_steps_step;
         [eapply PlayerPageRun.page_steps_step;
          [eapply PlayerPageRun.page_steps_step;
           [apply PlayerPageRun.page_steps_refl|]|]|]|]|]|].
    - exact (PlayerPageRun.on_player_change
               (Realtime.mkPayload Realtime.INSERT Scenario.alex)
               AlexPage.joined).
    - exact (PlayerPageRun.on_question_state_change
               (Realtime.mkPayload Realtime.INSERT Scenario.question_running)
               AlexPage.listed).
    - exact (PlayerPageRun.on_loadQuestion (Some Scenario.question11)
               (PlayerFeed.onQuestionStateChange
                  (Realtime.mkPayload Realtime.INSERT Scenario.question_running)
                  AlexPage.listed)).
    - exact (PlayerPageRun.on_handleAnswer 102 Scenario.db_playing
               (Scenario.at_ 50000) 50001 AlexPage.asked).
    - exact (PlayerPageRun.on_player_change
               (Realtime.mkPayload Realtime.UPDATE
                  (set_score 1500 Scenario.alex))
               AlexPage.answered).
    - exact (PlayerPageRun.on_session_change
               (Realtime.mkPayload Realtime.UPDATE Finale.session_finished)
               AlexPage.scored). }
  split; [|split; vm_compute; reflexivity].
  exact (proj1 (own_points_never_refreshed _ _ _ _ _ _ Hjoin Hchanged Hsteps)).
Defined.

End LeaderboardExamples.

(* ================================================================= *)
(** ** The question editor *)

Ltac nat_tests :=
  repeat match goal with
         | H : (_ <? _)%nat = true |- _ => apply Nat.ltb_lt in H
         | H : (_ <? _)%nat = false |- _ => apply Nat.ltb_ge in H
         | H : (_ =? _)%nat = true |- _ => apply Nat.eqb_eq in H
         | H : (_ =? _)%nat = false |- _ => apply Nat.eqb_neq in H
         | H : (_ <=? _)%nat = true |- _ => apply Nat.leb_le in H
         | H : (_ <=? _)%nat = false |- _ => apply Nat.leb_gt in H
         end.

Section ArrayFacts.
Import JsArray.
Context {M : JsString.Methods}.

Lemma mapi_from_length {A B : Type} (f : A -> nat -> B) (l : list A) :
  forall i, List.length (mapi_from i f l) = List.length l.
Proof. induction l as [|x l IH]; intros i; simpl; [reflexivity | now rewrite IH]. Qed.

Lemma mapi_from_nth_error {A B : Type} (f : A -> nat -> B) (l : list A) :
  forall i k,
    nth_error (mapi_from i f l) k
    = option_map (fun x => f x (i + k)%nat) (nth_error l k).
Proof.
  induction l as [|x l IH]; intros i k; [now destruct k|].
  destruct k as [|k]; simpl.
  - now rewrite Nat.add_0_r.
  - rewrite IH. now rewrite Nat.add_succ_r.
Qed.

Lemma mapi_nth_error {A B : Type} (f : A -> nat -> B) (l : list A) (k : nat) :
  nth_error (mapi f l) k = option_map (fun x => f x k) (nth_error l k).
Proof. unfold mapi. now rewrite mapi_from_nth_error. Qed.

Lemma mapi_length {A B : Type} (f : A -> nat -> B) (l : list A) :
  List.length (mapi f l) = List.length l.
Proof. apply mapi_from_length. Qed.

Lemma map_mapi_from {A B C : Type} (g : B -> C) (f : A -> nat -> B)
    (l : list A) :
  forall i, map g (mapi_from i f l) = mapi_from i (fun x j => g (f x j)) l.
Proof. induction l as [|x l IH]; intros i; simpl; [reflexivity | now rewrite IH]. Qed.

Lemma mapi_from_const {A B : Type} (h : A -> B) (l : list A) :
  forall i, mapi_from i (fun x _ => h x) l = map h l.
Proof. induction l as [|x l IH]; intros i; simpl; [reflexivity | now rewrite IH]. Qed.

Lemma mapi_from_index {A : Type} (l : list A) :
  forall i, mapi_from i (fun _ j => j) l = seq i (List.length l).
Proof. induction l as [|x l IH]; intros i; simpl; [reflexivity | now rewrite IH]. Qed.

Lemma set_nth_adjacent {A : Type} (l : list A) :
  forall i a b,
    nth_error l i = Some a ->
    nth_error l (S i) = Some b ->
    set_nth (S i) a (set_nth i b l)
    = (firstn i l ++ b :: a :: skipn (S (S i)) l)%list
    /\ set_nth i b (set_nth (S i) a l)
       = (firstn i l ++ b :: a :: skipn (S (S i)) l)%list.
Proof.
  induction l as [|x l IH]; intros i a b Ha Hb; [now destruct i|].
  destruct i as [|i].
  - destruct l as [|y l]; [discriminate|]. split; reflexivity.
  - simpl in Ha, Hb. destruct (IH i a b Ha Hb) as [H1 H2].
    split; cbn [set_nth firstn skipn app]; f_equal; assumption.
Qed.

(** Swapping neighbours, in either direction. *)
Lemma swap_adjacent {A : Type} (l : list A) (i : nat) (a b : A) :
  nth_error l i = Some a ->
  nth_error l (S i) = Some b ->
  swap i (S i) l = Some (firstn i l ++ b :: a :: skipn (S (S i)) l)%list
  /\ swap (S i) i l = Some (firstn i l ++ b :: a :: skipn (S (S i)) l)%list.
Proof.
  intros Ha Hb. destruct (set_nth_adjacent l i a b Ha Hb) as [H1 H2].
  unfold swap. rewrite Ha, Hb. split; f_equal; assumption.
Qed.

Lemma swapped_perm {A : Type} (l : list A) (i : nat) (a b : A) :
  nth_error l i = Some a ->
  nth_error l (S i) = Some b ->
  Permutation (firstn i l ++ b :: a :: skipn (S (S i)) l)%list l.
Proof.
  revert i. induction l as [|x l IH]; intros i Ha Hb; [now destruct i|].
  destruct i as [|i].
  - simpl in Ha, Hb. injection Ha as ->. destruct l as [|y l]; [discriminate|].
    simpl in Hb. injection Hb as ->. simpl. apply perm_swap.
  - simpl. apply perm_skip. now apply IH.
Qed.

End ArrayFacts.

Section ChoiceEdits.
Import JsArray Authoring GameEditor.
Context {M : JsString.Methods}.

Lemma one_hot_count (n cIdx : nat) :
  forall i,
    List.length (filter (fun j => (j =? cIdx)%nat) (seq i n))
    = if ((i <=? cIdx) && (cIdx <? i + n))%nat then 1%nat else 0%nat.
Proof.
  induction n as [|n IH]; intros i.
  - simpl. destruct (i <=? cIdx)%nat eqn:E1, (cIdx <? i + 0)%nat eqn:E2;
      nat_tests; simpl; lia.
  - cbn [seq filter]. specialize (IH (S i)).
    destruct (i =? cIdx)%nat eqn:E0, (S i <=? cIdx)%nat eqn:E1,
      (cIdx <? S i + n)%nat eqn:E2, (i <=? cIdx)%nat eqn:E3,
      (cIdx <? i + S n)%nat eqn:E4;
      cbn [List.length andb] in *; nat_tests; lia.
Qed.

(** X20. After [setCorrectChoice(qIdx, cIdx)] on a question that has
    a choice at [cIdx], exactly one choice of the question is marked
    correct, the one at [cIdx]; ids, texts and orders of its choices
    are untouched, and so is every other question. *)
Theorem setCorrectChoice_exactly_one (qs : list Question.t) (qIdx cIdx : nat)
    (q : Question.t) :
  nth_error qs qIdx = Some q ->
  (cIdx < List.length (Question.game_question_choices q))%nat ->
  let qs' := setCorrectChoice qIdx cIdx qs in
  exists q',
    nth_error qs' qIdx = Some q'
    /\ map Choice.is_correct (Question.game_question_choices q')
       = map (fun j => (j =? cIdx)%nat)
           (seq 0 (List.length (Question.game_question_choices q)))
    /\ List.length (filter Choice.is_correct (Question.game_question_choices q'))
       = 1%nat
    /\ map Choice.id (Question.game_question_choices q')
       = map Choice.id (Question.game_question_choices q)
    /\ map Choice.choice_text (Question.game_question_choices q')
       = map Choice.choice_text (Question.game_question_choices q)
    /\ map Choice.choice_order (Question.game_question_choices q')
       = map Choice.choice_order (Question.game_question_choices q)
    /\ Question.id q' = Question.id q
    /\ Question.prompt q' = Question.prompt q
    /\ Question.question_order q' = Question.question_order q
    /\ List.length qs' = List.length qs
    /\ forall i, i <> qIdx -> nth_error qs' i = nth_error qs i.
Proof.
  intros Hq Hc qs'. unfold qs', setCorrectChoice.
  eexists. split.
  { rewrite mapi_nth_error, Hq. simpl. now rewrite Nat.eqb_refl. }
  cbn [with_choices Question.game_question_choices Question.id
       Question.prompt Question.question_order].
  assert (map Choice.is_correct
            (mapi (fun c j => set_is_correct (j =? cIdx)%nat c)
               (Question.game_question_choices q))
          = map (fun j => (j =? cIdx)%nat)
              (seq 0 (List.length (Question.game_question_choices q))))
    as Hflags.
  { unfold mapi. rewrite map_mapi_from. cbn [set_is_correct Choice.is_correct].
    rewrite <- (mapi_from_index (Question.game_question_choices q) 0).
    now rewrite map_mapi_from. }
  split; [exact Hflags|]. split.
  { rewrite <- (length_map Choice.is_correct).
    assert (forall l : list Choice.t,
               map Choice.is_correct (filter Choice.is_correct l)
               = filter (fun b => b) (map Choice.is_correct l)) as Hcomm.
    { induction l as [|c l IH]; simpl; [reflexivity|].
      destruct (Choice.is_correct c) eqn:E; simpl; rewrite ?E, IH;
        reflexivity. }
    rewrite Hcomm, Hflags.
    assert (forall l : list nat,
               List.length (filter (fun b => b)
                              (map (fun j => (j =? cIdx)%nat) l))
               = List.length (filter (fun j => (j =? cIdx)%nat) l)) as Hlen.
    { induction l as [|j l IH]; simpl; [reflexivity|].
      destruct (j =? cIdx)%nat; simpl; now rewrite IH. }
    rewrite Hlen, one_hot_count. simpl.
    assert ((cIdx <? List.length (Question.game_question_choices q))%nat = true)
      as -> by now apply Nat.ltb_lt.
    reflexivity. }
  unfold mapi at 1 2 3. rewrite !map_mapi_from.
  cbn [set_is_correct Choice.id Choice.choice_text Choice.choice_order].
  rewrite !mapi_from_const. repeat split.
  - apply mapi_length.
  - intros i Hi. rewrite mapi_nth_error.
    destruct (nth_error qs i); [|reflexivity]. simpl.
    apply Nat.eqb_neq in Hi. now rewrite Hi.
Qed.

(** X21. [moveChoice] on a choice that has a neighbour in the
    direction asked swaps the two: id, text and correctness travel
    with each choice, and every choice of the question is renumbered
    so that its [choice_order] is its position; the question keeps its
    own fields and every other question is untouched. At the top
    going up, and at the bottom going down, nothing changes. *)
Theorem moveChoice_swaps_neighbours (qs : list Question.t) (qIdx cIdx : nat)
    (d : Direction) (q : Question.t) (lo : nat) (a b : Choice.t) :
  nth_error qs qIdx = Some q ->
  cIdx = match d with up => S lo | down => lo end ->
  nth_error (Question.game_question_choices q) lo = Some a ->
  nth_error (Question.game_question_choices q) (S lo) = Some b ->
  let content c := (Choice.id c, Choice.choice_text c, Choice.is_correct c) in
  let cs := Question.game_question_choices q in
  (exists qs' q',
      moveChoice qIdx cIdx d qs = Some qs'
      /\ nth_error qs' qIdx = Some q'
      /\ map content (Question.game_question_choices q')
         = (firstn lo (map content cs)
            ++ content b :: content a :: skipn (S (S lo)) (map content cs))%list
      /\ map Choice.choice_order (Question.game_question_choices q')
         = map Z.of_nat (seq 0 (List.length cs))
      /\ Permutation (map content (Question.game_question_choices q'))
           (map content cs)
      /\ Question.id q' = Question.id q
      /\ Question.prompt q' = Question.prompt q
      /\ Question.question_order q' = Question.question_order q
      /\ List.length qs' = List.length qs
      /\ forall i, i <> qIdx -> nth_error qs' i = nth_error qs i)
  /\ moveChoice qIdx 0 up qs = Some qs
  /\ moveChoice qIdx (Nat.pred (List.length cs)) down qs = Some qs.
Proof.
  intros Hq Hc Ha Hb content cs.
  assert (S lo < List.length cs)%nat as Hlen
    by (apply nth_error_Some; unfold cs; congruence).
  split; [|split].
  - set (swapped := (firstn lo cs ++ b :: a :: skipn (S (S lo)) cs)%list).
    assert (swap cIdx
              (Z.to_nat (Z.of_nat cIdx + offset d)) cs = Some swapped) as Hswap.
    { destruct (swap_adjacent cs lo a b Ha Hb) as [H1 H2].
      destruct d; subst cIdx; simpl offset.
      - replace (Z.to_nat (Z.of_nat (S lo) + -1)) with lo by lia. exact H2.
      - replace (Z.to_nat (Z.of_nat lo + 1)) with (S lo) by lia. exact H1. }
    assert (((Z.of_nat cIdx + offset d <? 0)
             || (Z.of_nat (List.length cs) <=? Z.of_nat cIdx + offset d))
            = false) as Hguard.
    { apply orb_false_iff. split; [apply Z.ltb_ge | apply Z.leb_gt];
        destruct d; subst cIdx; simpl offset; lia. }
    exists (mapi (fun question i =>
                    if negb (i =? qIdx)%nat then question
                    else
                      match swap cIdx (Z.to_nat (Z.of_nat cIdx + offset d))
                              (Question.game_question_choices question) with
                      | Some choices =>
                          with_choices
                            (mapi (fun c j => set_choice_order j c) choices)
                            question
                      | None => question
                      end) qs).
    exists (with_choices (mapi (fun c j => set_choice_order j c) swapped) q).
    split.
    { unfold moveChoice. rewrite Hq. fold cs. rewrite Hguard, Hswap.
      reflexivity. }
    split.
    { rewrite mapi_nth_error, Hq. simpl. rewrite Nat.eqb_refl. simpl.
      fold cs. now rewrite Hswap. }
    cbn [with_choices Question.game_question_choices Question.id
         Question.prompt Question.question_order].
    assert (map content (mapi (fun c j => set_choice_order j c) swapped)
            = map content swapped) as Hcontent.
    { unfold mapi. rewrite map_mapi_from. unfold content.
      cbn [set_choice_order Choice.id Choice.choice_text Choice.is_correct].
      apply mapi_from_const. }
    assert (map content swapped
            = (firstn lo (map content cs)
               ++ content b :: content a :: skipn (S (S lo)) (map content cs))%list)
      as Hmove.
    { unfold swapped. rewrite map_app. cbn [map].
      now rewrite firstn_map, skipn_map. }
    split; [now rewrite Hcontent, Hmove|]. split.
    { unfold mapi. rewrite map_mapi_from.
      cbn [set_choice_order Choice.choice_order].
      rewrite <- (map_mapi_from Z.of_nat (fun _ j => j)).
      rewrite mapi_from_index. f_equal. f_equal.
      unfold swapped. rewrite length_app. cbn [List.length].
      rewrite length_firstn, length_skipn. lia. }
    split.
    { rewrite Hcontent. apply Permutation_map.
      now apply swapped_perm. }
    repeat split.
    + apply mapi_length.
    + intros i Hi. rewrite mapi_nth_error.
      destruct (nth_error qs i); [|reflexivity]. simpl.
      apply Nat.eqb_neq in Hi. now rewrite Hi.
  - unfold moveChoice. rewrite Hq. reflexivity.
  - unfold moveChoice. rewrite Hq. fold cs.
    assert (((Z.of_nat (Nat.pred (List.length cs)) + offset down <? 0)
             || (Z.of_nat (List.length cs)
                 <=? Z.of_nat (Nat.pred (List.length cs)) + offset down))
            = true) as ->; [|reflexivity].
    apply orb_true_iff. right. apply Z.leb_le. simpl offset. lia.
Qed.

End ChoiceEdits.

(* ----------------------------------------------------------------- *)
(** *** The order of the questions, on the page and in the store *)

Section QuestionOrder.
Import Pg JsArray Authoring GameEditor EditorState.
Context {M : JsString.Methods}.

Lemma insert_question_row_perm (q : Question.t) (l : list Question.t) :
  Permutation (insert_question_row q l) (q :: l).
Proof.
  induction l as [|r l IH]; simpl; [apply Permutation_refl|].
  destruct (Question.question_order r <? Question.question_order q).
  - eapply Permutation_trans; [apply perm_skip, IH | apply perm_swap].
  - apply Permutation_refl.
Qed.

Lemma order_by_perm (l : list Question.t) :
  Permutation (order_by_question_order l) l.
Proof.
  induction l as [|q l IH]; simpl; [constructor|].
  eapply Permutation_trans;
    [apply insert_question_row_perm | now apply perm_skip].
Qed.

Lemma insert_question_row_sorted (q : Question.t) (l : list Question.t) :
  StronglySorted
    (fun a b => Question.question_order a <= Question.question_order b) l ->
  StronglySorted
    (fun a b => Question.question_order a <= Question.question_order b)
    (insert_question_row q l).
Proof.
  induction l as [|r l IH]; simpl; intros H.
  - constructor; constructor.
  - inversion H as [|? ? Hl Hr]; subst.
    destruct (Question.question_order r <? Question.question_order q) eqn:E.
    + apply Z.ltb_lt in E. constructor; [now apply IH|].
      apply Forall_forall. intros x Hx.
      apply (Permutation_in _ (insert_question_row_perm q l)) in Hx.
      destruct Hx as [<-|Hx]; [lia|].
      rewrite Forall_forall in Hr. now apply Hr.
    + apply Z.ltb_ge in E. constructor; [assumption|].
      constructor; [exact E|].
      rewrite Forall_forall in *. intros x Hx. specialize (Hr x Hx). lia.
Qed.

Lemma order_by_sorted (l : list Question.t) :
  StronglySorted
    (fun a b => Question.question_order a <= Question.question_order b)
    (order_by_question_order l).
Proof.
  induction l as [|q l IH]; simpl;
    [constructor | now apply insert_question_row_sorted].
Qed.

(** A list in strictly ascending order is the only ascending
    arrangement of its rows. *)
Lemma ascending_unique (l1 l2 : list Question.t) :
  Permutation l1 l2 ->
  StronglySorted
    (fun a b => Question.question_order a <= Question.question_order b) l1 ->
  StronglySorted
    (fun a b => Question.question_order a < Question.question_order b) l2 ->
  l1 = l2.
Proof.
  revert l1. induction l2 as [|b l2 IH]; intros l1 Hp H1 H2.
  - apply Permutation_sym, Permutation_nil in Hp. exact Hp.
  - destruct l1 as [|a l1];
      [apply Permutation_nil in Hp; discriminate|].
    inversion H1 as [|? ? H1' Ha]; subst.
    inversion H2 as [|? ? H2' Hb]; subst.
    assert (a = b) as ->.
    { assert (In a (b :: l2)) as Hin
        by (apply (Permutation_in _ Hp); now left).
      assert (In b (a :: l1)) as Hin'
        by (apply (Permutation_in _ (Permutation_sym Hp)); now left).
      destruct Hin as [->|Hin]; [reflexivity|].
      destruct Hin' as [->|Hin']; [reflexivity|].
      rewrite Forall_forall in Ha, Hb.
      specialize (Ha b Hin'). specialize (Hb a Hin). lia. }
    f_equal. apply IH; try assumption.
    now apply Permutation_cons_inv in Hp.
Qed.

Lemma positions_ascending (l : list Question.t) :
  forall base,
    (forall k r, nth_error l k = Some r ->
                 Question.question_order r = Z.of_nat (base + k)) ->
    StronglySorted
      (fun a b => Question.question_order a < Question.question_order b) l.
Proof.
  induction l as [|a l IH]; intros base H; [constructor|].
  constructor.
  - apply (IH (S base)). intros k r Hk.
    rewrite (H (S k) r Hk). f_equal. lia.
  - apply Forall_forall. intros x Hx.
    apply In_nth_error in Hx. destruct Hx as [k Hk].
    rewrite (H 0%nat a eq_refl), (H (S k) x Hk). lia.
Qed.

Lemma owned_rows (auth : option uuid) (db : Db) (gid : uuid) :
  owns auth db gid = true ->
  filter (fun q => (Question.game_id q =? gid)%nat
                   && owns auth db (Question.game_id q)) (game_questions db)
  = filter (fun q => (Question.game_id q =? gid)%nat) (game_questions db).
Proof.
  intros Hown. apply filter_ext. intros q.
  destruct (Question.game_id q =? gid)%nat eqn:E; [|reflexivity].
  apply Nat.eqb_eq in E. now rewrite E, Hown.
Qed.

(** When every question's order in the store is its position on the
    page, a reload shows the page's order. *)
Lemma numbered_reload (st : t) (db : Db) (gid : uuid) :
  in_step st db gid -> numbered st db -> reload_agrees st db gid.
Proof.
  intros (_ & Hown & _ & _ & Hperm & _) Hnum.
  unfold reload_agrees, select_questions.
  rewrite map_map. cbn [with_choices Question.id].
  rewrite (owned_rows _ _ _ Hown).
  set (rows := filter (fun q => (Question.game_id q =? gid)%nat)
                 (game_questions db)) in *.
  apply Permutation_sym, Permutation_map_inv in Hperm.
  destruct Hperm as (L & Hids & HL).
  assert (order_by_question_order rows = L) as ->.
  { apply ascending_unique.
    - eapply Permutation_trans; [apply order_by_perm | exact HL].
    - apply order_by_sorted.
    - apply (positions_ascending L 0). intros k r Hk. simpl.
      assert (In r (game_questions db)) as Hin.
      { assert (In r rows) as Hr
          by (apply (Permutation_in _ (Permutation_sym HL));
              eapply nth_error_In; exact Hk).
        unfold rows in Hr. now apply filter_In in Hr. }
      assert (nth_error (map Question.id (questions st)) k
              = Some (Question.id r)) as Hq
        by (rewrite Hids; now apply map_nth_error).
      rewrite nth_error_map in Hq.
      destruct (nth_error (questions st) k) as [q|] eqn:Eq; [|discriminate].
      injection Hq as Hq. now apply (Hnum k q r). }
  change (fun x : Question.t => Question.id x) with Question.id.
  now rewrite Hids.
Qed.

Lemma int4_position (k : nat) :
  Z.of_nat k <= 2147483647 -> int4 (Z.of_nat k) = true.
Proof.
  intros H. unfold int4. apply andb_true_iff.
  split; apply Z.leb_le; lia.
Qed.

Lemma owns_games (auth : option uuid) (db db' : Db) (gid : uuid) :
  games db' = games db -> owns auth db' gid = owns auth db gid.
Proof. intros H. unfold owns. now rewrite H. Qed.

Lemma update_question_order_run (auth : option uuid) (qid : uuid) (k : nat)
    (db : Db) :
  Z.of_nat k <= 2147483647 ->
  ignore_error (update_question_order auth qid (Z.of_nat k) db) db
  = mkDb (games db)
      (map (fun q => if (Question.id q =? qid)%nat
                        && owns auth db (Question.game_id q)
                     then set_question_order (Z.of_nat k) q else q)
         (game_questions db))
      (next_uuid db).
Proof.
  intros H. unfold update_question_order. now rewrite int4_position.
Qed.

(** The store after the loop of [handleDrop]: every row is the row it
    was, with a new order where the loop has reached it. *)
Lemma persist_orders_spec (auth : option uuid) (l : list Question.t) :
  forall i db,
    NoDup (map Question.id l) ->
    Z.of_nat (i + List.length l) <= 2147483647 ->
    exists f,
      game_questions (persist_orders auth i l db) = map f (game_questions db)
      /\ games (persist_orders auth i l db) = games db
      /\ next_uuid (persist_orders auth i l db) = next_uuid db
      /\ (forall r, Question.id (f r) = Question.id r
                    /\ Question.game_id (f r) = Question.game_id r)
      /\ (forall r, (forall q, In q l -> Question.id q <> Question.id r) ->
                    f r = r)
      /\ (forall r k q,
             nth_error l k = Some q ->
             Question.id q = Question.id r ->
             owns auth db (Question.game_id r) = true ->
             Question.question_order (f r) = Z.of_nat (i + k)).
Proof.
  induction l as [|q0 rest IH]; intros i db Hn Hbound.
  - exists (fun r => r). simpl. rewrite map_id. repeat split; auto.
    intros r k q Hk. destruct k; discriminate.
  - inversion Hn as [|? ? Hfresh Hn']; subst. cbn [persist_orders].
    set (g := fun q => if (Question.id q =? Question.id q0)%nat
                          && owns auth db (Question.game_id q)
                       then set_question_order (Z.of_nat i) q else q).
    assert (ignore_error
              (update_question_order auth (Question.id q0) (Z.of_nat i) db) db
            = mkDb (games db) (map g (game_questions db)) (next_uuid db))
      as ->.
    { unfold update_question_order.
      rewrite int4_position by (simpl in Hbound; lia). reflexivity. }
    set (db1 := mkDb (games db) (map g (game_questions db)) (next_uuid db)).
    destruct (IH (S i) db1 Hn') as (f1 & Hrows & Hgames & Hnext & Hkeys
                                    & Hsame & Hpos);
      [simpl in Hbound |- *; lia|].
    assert (forall r, Question.id (g r) = Question.id r
                      /\ Question.game_id (g r) = Question.game_id r) as Hg.
    { intros r. unfold g. now destruct (_ && _). }
    exists (fun r => f1 (g r)). repeat split.
    + rewrite Hrows. unfold db1. simpl. now rewrite map_map.
    + now rewrite Hgames.
    + now rewrite Hnext.
    + rewrite (proj1 (Hkeys (g r))). apply Hg.
    + rewrite (proj2 (Hkeys (g r))). apply Hg.
    + intros r Hr.
      assert (g r = r) as ->.
      { unfold g.
        assert ((Question.id r =? Question.id q0)%nat = false) as ->;
          [|reflexivity].
        apply Nat.eqb_neq. intros E. apply (Hr q0); [now left | now symmetry]. }
      apply Hsame. intros q Hq. apply Hr. now right.
    + intros r k q Hk Hid Hown. destruct k as [|k].
      * injection Hk as <-.
        assert (g r = set_question_order (Z.of_nat i) r) as Hgr
          by (unfold g; now rewrite <- Hid, Nat.eqb_refl, Hown).
        rewrite Hsame.
        -- rewrite Hgr. simpl. f_equal. lia.
        -- intros q Hq E. apply Hfresh.
           rewrite (proj1 (Hg r)) in E. rewrite Hid, <- E.
           now apply in_map.
      * simpl in Hk.
        assert (g r = r) as Hgr.
        { unfold g.
          assert ((Question.id r =? Question.id q0)%nat = false) as ->;
            [|reflexivity].
          apply Nat.eqb_neq. intros E. apply Hfresh. rewrite <- E, <- Hid.
          apply in_map. eapply nth_error_In; exact Hk. }
        rewrite Hgr. rewrite (Hpos r k q Hk Hid).
        -- f_equal. lia.
        -- unfold db1. unfold owns in *. simpl. exact Hown.
Qed.


(** The ids on the page are distinct. *)
Lemma in_step_NoDup (st : t) (db : Db) (gid : uuid) :
  in_step st db gid -> NoDup (map Question.id (questions st)).
Proof.
  intros (_ & _ & Hn & _ & Hperm & _).
  eapply Permutation_NoDup; [exact Hperm|]. now apply NoDup_map_filter.
Qed.

(** A row of the store with the id of a question on the page is a row
    of the page's game. *)
Lemma in_step_row (st : t) (db : Db) (gid : uuid) (q r : Question.t) :
  in_step st db gid ->
  In q (questions st) -> In r (game_questions db) ->
  Question.id r = Question.id q ->
  Question.game_id r = gid /\ owns (user st) db (Question.game_id r) = true.
Proof.
  intros (_ & Hown & Hn & _ & Hperm & _) Hq Hr Hid.
  assert (In (Question.id q)
            (map Question.id
               (filter (fun x => (Question.game_id x =? gid)%nat)
                  (game_questions db)))) as Hin
    by (apply (Permutation_in _ (Permutation_sym Hperm)); now apply in_map).
  apply in_map_iff in Hin. destruct Hin as (r' & Hid' & Hr').
  apply filter_In in Hr'. destruct Hr' as [Hr' Hg]. apply Nat.eqb_eq in Hg.
  assert (r = r') as ->
    by (apply (NoDup_map_eq Question.id (game_questions db)); congruence).
  split; [assumption | now rewrite Hg].
Qed.

(** Rewriting orders in the store, and rearranging the page, keeps
    page and store in step. *)
Lemma relabel_in_step (st st' : t) (db db' : Db) (gid : uuid)
    (f : Question.t -> Question.t) :
  in_step st db gid ->
  game_questions db' = map f (game_questions db) ->
  games db' = games db ->
  next_uuid db' = next_uuid db ->
  (forall r, Question.id (f r) = Question.id r
             /\ Question.game_id (f r) = Question.game_id r) ->
  user st' = user st -> game st' = game st ->
  Permutation (map Question.id (questions st'))
    (map Question.id (questions st)) ->
  in_step st' db' gid.
Proof.
  intros (Hgame & Hown & Hn & Hbelow & Hperm & Hlen) Hrows Hgames Hnext Hkeys
    Huser Hgame' Hpage.
  assert (map Question.id (map f (game_questions db))
          = map Question.id (game_questions db)) as Hids.
  { rewrite map_map. apply map_ext. intros r. apply Hkeys. }
  unfold in_step. rewrite Hrows, Hnext, Huser, Hgame'.
  split; [assumption|]. split; [now rewrite (owns_games _ db db')|].
  split; [now rewrite Hids|]. split.
  { apply Forall_forall. intros r' Hr'. apply in_map_iff in Hr'.
    destruct Hr' as (r & <- & Hr). rewrite (proj1 (Hkeys r)).
    rewrite Forall_forall in Hbelow. now apply Hbelow. }
  split.
  { eapply Permutation_trans;
      [|eapply Permutation_trans;
        [exact Hperm | apply Permutation_sym, Hpage]].
    assert (forall l,
               map Question.id
                 (filter (fun q => (Question.game_id q =? gid)%nat) (map f l))
               = map Question.id
                   (filter (fun q => (Question.game_id q =? gid)%nat) l))
      as Hcomm.
    { induction l as [|r l IH]; [reflexivity|]. cbn [map filter].
      rewrite (proj2 (Hkeys r)).
      destruct (Question.game_id r =? gid)%nat; cbn [map];
        [rewrite (proj1 (Hkeys r))|]; now rewrite IH. }
    rewrite Hcomm. apply Permutation_refl. }
  apply Permutation_length in Hpage. rewrite !length_map in Hpage.
  now rewrite Hpage.
Qed.

Lemma remove_at_middle {A : Type} (l1 l2 : list A) (x : A) :
  remove_at (List.length l1) (l1 ++ x :: l2) = (l1 ++ l2)%list.
Proof.
  unfold remove_at. induction l1 as [|y l1 IH]; [reflexivity|].
  cbn [List.length app firstn skipn]. cbn [skipn] in IH. now rewrite IH.
Qed.

Lemma remove_at_nth_error {A : Type} (l : list A) :
  forall i k,
    nth_error (remove_at i l) k
    = if (k <? i)%nat then nth_error l k else nth_error l (S k).
Proof.
  unfold remove_at. induction l as [|x l IH]; intros i k.
  - destruct i, k; simpl; try reflexivity; now destruct (S k <? S i)%nat.
  - destruct i as [|i]; [reflexivity|].
    destruct k as [|k]; [reflexivity|].
    cbn [firstn skipn app nth_error]. cbn [skipn] in IH. rewrite IH.
    reflexivity.
Qed.

Lemma moved_perm {A : Type} (l : list A) (from dropIdx : nat) (moved : A) :
  nth_error l from = Some moved ->
  Permutation (splice_in dropIdx moved (remove_at from l)) l.
Proof.
  intros H. apply nth_error_split in H. destruct H as (l1 & l2 & -> & <-).
  rewrite remove_at_middle. unfold splice_in.
  eapply Permutation_trans; [apply Permutation_sym, Permutation_middle|].
  rewrite firstn_skipn. apply Permutation_middle.
Qed.

(** X22. Dropping a dragged question renumbers the game. With page
    and store in step, a drop of the question at [dragIdx] on another
    position takes it out of the list and puts it in at [dropIdx] (at
    the end when [dropIdx] is beyond it), clears the drag, and writes
    to every question of the page its new position as
    [question_order], whatever the orders were before; page and store
    stay in step, and a reload shows the questions in the order the
    page shows them. *)
Theorem handleDrop_renumbers (dropIdx from : nat) (st : t) (db : Db)
    (gid : uuid) (moved : Question.t) :
  in_step st db gid ->
  dragIdx st = Some from ->
  from <> dropIdx ->
  nth_error (questions st) from = Some moved ->
  exists st' db',
    handleDrop dropIdx st db = Some (st', db')
    /\ questions st' = splice_in dropIdx moved (remove_at from (questions st))
    /\ Permutation (questions st') (questions st)
    /\ dragIdx st' = None
    /\ in_step st' db' gid
    /\ numbered st' db'
    /\ reload_agrees st' db' gid.
Proof.
  intros Hstep Hdrag Hne Hmoved.
  set (reordered := splice_in dropIdx moved (remove_at from (questions st))).
  pose proof (moved_perm (questions st) from dropIdx moved Hmoved) as Hperm.
  fold reordered in Hperm.
  assert (NoDup (map Question.id reordered)) as Hn.
  { eapply Permutation_NoDup;
      [apply Permutation_map, Permutation_sym, Hperm|].
    now apply (in_step_NoDup st db gid). }
  assert (Z.of_nat (0 + List.length reordered) <= 2147483647) as Hbound.
  { rewrite (Permutation_length Hperm).
    destruct Hstep as (_ & _ & _ & _ & _ & Hlen). simpl. lia. }
  destruct (persist_orders_spec (user st) reordered 0 db Hn Hbound)
    as (f & Hrows & Hgames & Hnext & Hkeys & Hsame & Hpos).
  set (st' := mk (user st) (game st) reordered None (error st)).
  set (db' := persist_orders (user st) 0 reordered db).
  assert (in_step st' db' gid) as Hstep'
    by (apply (relabel_in_step st st' db db' gid f); auto;
        now apply Permutation_map).
  assert (numbered st' db') as Hnum.
  { intros i q row Hi Hrow Hid. unfold db' in Hrow. rewrite Hrows in Hrow.
    apply in_map_iff in Hrow. destruct Hrow as (r & <- & Hr).
    rewrite (proj1 (Hkeys r)) in Hid.
    rewrite (Hpos r i q Hi (eq_sym Hid)); [reflexivity|].
    apply (in_step_row st db gid q r Hstep); try assumption.
    apply (Permutation_in _ Hperm). eapply nth_error_In. exact Hi. }
  exists st', db'. split.
  { unfold handleDrop. rewrite Hdrag, Hmoved.
    apply Nat.eqb_neq in Hne. now rewrite Hne. }
  split; [reflexivity|]. split; [exact Hperm|]. split; [reflexivity|].
  split; [exact Hstep'|]. split; [exact Hnum|].
  now apply numbered_reload.
Qed.

Lemma swapped_nth_error {A : Type} (l : list A) :
  forall lo a b i,
    nth_error l lo = Some a ->
    nth_error l (S lo) = Some b ->
    nth_error (firstn lo l ++ b :: a :: skipn (S (S lo)) l) i
    = if (i =? lo)%nat then Some b
      else if (i =? S lo)%nat then Some a
           else nth_error l i.
Proof.
  induction l as [|x l IH]; intros lo a b i Ha Hb; [now destruct lo|].
  destruct lo as [|lo].
  - destruct l as [|y l]; [discriminate|].
    simpl in Ha, Hb. injection Ha as ->. injection Hb as ->.
    destruct i as [|[|i]]; reflexivity.
  - change (nth_error (x :: l) (S lo)) with (nth_error l lo) in Ha.
    change (nth_error (x :: l) (S (S lo))) with (nth_error l (S lo)) in Hb.
    change (firstn (S lo) (x :: l)) with (x :: firstn lo l).
    change (skipn (S (S (S lo))) (x :: l)) with (skipn (S (S lo)) l).
    destruct i as [|i]; [reflexivity|].
    change (nth_error ((x :: firstn lo l) ++ b :: a :: skipn (S (S lo)) l)
              (S i))
      with (nth_error (firstn lo l ++ b :: a :: skipn (S (S lo)) l) i).
    rewrite (IH lo a b i Ha Hb). reflexivity.
Qed.

(** X23. Moving a question up or down keeps the numbering. With page
    and store in step and every question's order equal to its
    position, [handleMoveQuestion] on a question that has a neighbour
    in the direction asked swaps the two on the page and writes to
    each its new position; page and store stay in step, orders still
    equal positions, and a reload shows the page's order. At the top
    going up, and at the bottom going down, nothing changes. *)
Theorem handleMoveQuestion_keeps_numbering (qIdx : nat) (d : Direction)
    (st : t) (db : Db) (gid : uuid) (lo : nat) (a b : Question.t) :
  in_step st db gid ->
  numbered st db ->
  qIdx = match d with up => S lo | down => lo end ->
  nth_error (questions st) lo = Some a ->
  nth_error (questions st) (S lo) = Some b ->
  (exists st' db',
      handleMoveQuestion qIdx d st db = Some (st', db')
      /\ questions st'
         = (firstn lo (questions st)
            ++ b :: a :: skipn (S (S lo)) (questions st))%list
      /\ in_step st' db' gid
      /\ numbered st' db'
      /\ reload_agrees st' db' gid)
  /\ handleMoveQuestion 0 up st db = Some (st, db)
  /\ handleMoveQuestion (Nat.pred (List.length (questions st))) down st db
     = Some (st, db).
Proof.
  intros Hstep Hnum Hq Ha Hb.
  pose proof Hstep as (_ & _ & _ & _ & _ & Hlen).
  assert (S lo < List.length (questions st))%nat as Hlo
    by (apply nth_error_Some; congruence).
  split; [|split].
  2: { unfold handleMoveQuestion. reflexivity. }
  2: { unfold handleMoveQuestion.
       assert (((Z.of_nat (Nat.pred (List.length (questions st))) + offset down
                 <? 0)
                || (Z.of_nat (List.length (questions st))
                    <=? Z.of_nat (Nat.pred (List.length (questions st)))
                        + offset down)) = true) as ->; [|reflexivity].
       apply orb_true_iff. right. apply Z.leb_le. simpl offset. lia. }
  set (swapped := (firstn lo (questions st)
                   ++ b :: a :: skipn (S (S lo)) (questions st))%list).
  set (target := Z.of_nat qIdx + offset d).
  (* the rows the two updates address, and what they write *)
  set (g1 := fun r => if (Question.id r =? Question.id b)%nat
                         && owns (user st) db (Question.game_id r)
                      then set_question_order (Z.of_nat lo) r else r).
  set (g2 := fun r => if (Question.id r =? Question.id a)%nat
                         && owns (user st) db (Question.game_id r)
                      then set_question_order (Z.of_nat (S lo)) r else r).
  pose proof (in_step_NoDup st db gid Hstep) as Hnodup.
  assert (Question.id a <> Question.id b) as Hab.
  { intros E.
    assert (a = b) as Heq
      by (apply (NoDup_map_eq Question.id (questions st));
          try assumption; eapply nth_error_In; eassumption).
    subst b. apply NoDup_map_inv in Hnodup.
    pose proof (proj1 (NoDup_nth_error (questions st)) Hnodup lo (S lo)) as Hi.
    assert (lo = S lo) by (apply Hi; [lia | congruence]). lia. }
  set (f := fun r => match d with
                     | up => g2 (g1 r)
                     | down => g1 (g2 r)
                     end).
  assert (forall r, Question.id (g1 r) = Question.id r
                    /\ Question.game_id (g1 r) = Question.game_id r) as Hk1
    by (intros r; unfold g1; now destruct (_ && _)).
  assert (forall r, Question.id (g2 r) = Question.id r
                    /\ Question.game_id (g2 r) = Question.game_id r) as Hk2
    by (intros r; unfold g2; now destruct (_ && _)).
  assert (forall r, Question.id (f r) = Question.id r
                    /\ Question.game_id (f r) = Question.game_id r) as Hkeys.
  { intros r. unfold f. destruct d.
    - rewrite (proj1 (Hk2 _)), (proj2 (Hk2 _)). apply Hk1.
    - rewrite (proj1 (Hk1 _)), (proj2 (Hk1 _)). apply Hk2. }
  set (db' := mkDb (games db) (map f (game_questions db)) (next_uuid db)).
  set (st' := setQuestions swapped st).
  assert (handleMoveQuestion qIdx d st db = Some (st', db')) as Hrun.
  { unfold handleMoveQuestion. fold target.
    assert (((target <? 0)
             || (Z.of_nat (List.length (questions st)) <=? target)) = false)
      as ->.
    { apply orb_false_iff. unfold target.
      split; [apply Z.ltb_ge | apply Z.leb_gt];
        destruct d; subst qIdx; simpl offset; lia. }
    destruct (swap_adjacent (questions st) lo a b Ha Hb) as [Hs1 Hs2].
    destruct d; subst qIdx; unfold target; simpl offset.
    - replace (Z.to_nat (Z.of_nat (S lo) + -1)) with lo by lia.
      rewrite Hs2, Ha, Hb.
      replace (Z.of_nat (S lo) + -1) with (Z.of_nat lo) by lia.
      rewrite !update_question_order_run by lia.
      unfold st', db', f. f_equal. f_equal. cbn [games game_questions next_uuid].
      f_equal. rewrite map_map. apply map_ext. intros r.
      unfold g1, g2, owns. cbn [games]. reflexivity.
    - replace (Z.to_nat (Z.of_nat lo + 1)) with (S lo) by lia.
      rewrite Hs1, Ha, Hb.
      replace (Z.of_nat lo + 1) with (Z.of_nat (S lo)) by lia.
      rewrite !update_question_order_run by lia.
      unfold st', db', f. f_equal. f_equal. cbn [games game_questions next_uuid].
      f_equal. rewrite map_map. apply map_ext. intros r.
      unfold g1, g2, owns. cbn [games]. reflexivity. }
  assert (Permutation swapped (questions st)) as Hperm
    by now apply swapped_perm.
  assert (in_step st' db' gid) as Hstep'
    by (apply (relabel_in_step st st' db db' gid f); auto;
        now apply Permutation_map).
  assert (numbered st' db') as Hnum'.
  { intros i q row Hi Hrow Hid. unfold db' in Hrow. cbn [game_questions] in Hrow.
    apply in_map_iff in Hrow. destruct Hrow as (r & <- & Hr).
    rewrite (proj1 (Hkeys r)) in Hid.
    unfold st' in Hi. cbn [setQuestions questions] in Hi. unfold swapped in Hi.
    rewrite (swapped_nth_error _ lo a b i Ha Hb) in Hi.
    assert (In q (questions st)) as Hq_in.
    { destruct (i =? lo)%nat; [injection Hi as <-; eapply nth_error_In; eassumption|].
      destruct (i =? S lo)%nat;
        [injection Hi as <-|]; eapply nth_error_In; eassumption. }
    destruct (in_step_row st db gid q r Hstep Hq_in Hr Hid) as [_ Hown].
    destruct (i =? lo)%nat eqn:E1.
    - apply Nat.eqb_eq in E1. subst i. injection Hi as <-.
      assert (g1 r = set_question_order (Z.of_nat lo) r) as H1
        by (unfold g1; now rewrite Hid, Nat.eqb_refl, Hown).
      assert (forall x, Question.id x = Question.id b -> g2 x = x) as H2.
      { intros x Hx. unfold g2.
        assert ((Question.id x =? Question.id a)%nat = false) as ->;
          [apply Nat.eqb_neq; congruence | reflexivity]. }
      unfold f. destruct d.
      + rewrite H2 by (rewrite (proj1 (Hk1 r)); exact Hid). now rewrite H1.
      + rewrite (H2 r Hid). now rewrite H1.
    - destruct (i =? S lo)%nat eqn:E2.
      + apply Nat.eqb_eq in E2. subst i. injection Hi as <-.
        assert (g2 r = set_question_order (Z.of_nat (S lo)) r) as H2
          by (unfold g2; now rewrite Hid, Nat.eqb_refl, Hown).
        assert (forall x, Question.id x = Question.id a -> g1 x = x) as H1.
        { intros x Hx. unfold g1.
          assert ((Question.id x =? Question.id b)%nat = false) as ->;
            [apply Nat.eqb_neq; congruence | reflexivity]. }
        unfold f. destruct d.
        * rewrite (H1 r Hid). now rewrite H2.
        * rewrite H1 by (rewrite (proj1 (Hk2 r)); exact Hid). now rewrite H2.
      + assert (Question.id q <> Question.id a /\ Question.id q <> Question.id b)
          as [Hqa Hqb].
        { apply Nat.eqb_neq in E1, E2. apply NoDup_map_inv in Hnodup as Hnd.
          split; intros E.
          - assert (q = a) as ->
              by (apply (NoDup_map_eq Question.id (questions st));
                  try assumption; eapply nth_error_In; eassumption).
            apply E1.
            apply (proj1 (NoDup_nth_error (questions st)) Hnd i lo);
              [apply nth_error_Some; congruence | congruence].
          - assert (q = b) as ->
              by (apply (NoDup_map_eq Question.id (questions st));
                  try assumption; eapply nth_error_In; eassumption).
            apply E2.
            apply (proj1 (NoDup_nth_error (questions st)) Hnd i (S lo));
              [apply nth_error_Some; congruence | congruence]. }
        assert (g1 r = r) as H1.
        { unfold g1.
          assert ((Question.id r =? Question.id b)%nat = false) as ->;
            [apply Nat.eqb_neq; congruence | reflexivity]. }
        assert (g2 r = r) as H2.
        { unfold g2.
          assert ((Question.id r =? Question.id a)%nat = false) as ->;
            [apply Nat.eqb_neq; congruence | reflexivity]. }
        assert (f r = r) as -> by (unfold f; destruct d; now rewrite ?H1, ?H2, ?H1).
        now apply (Hnum i q r). }
  exists st', db'. split; [exact Hrun|]. split; [reflexivity|].
  split; [exact Hstep'|]. split; [exact Hnum'|].
  now apply numbered_reload.
Qed.

Lemma page0_in_step : in_step EditorScenario.page0 EditorScenario.db0 1.
Proof.
  unfold in_step.
  split; [reflexivity|]. split; [reflexivity|].
  split; [repeat constructor; simpl; intuition discriminate|].
  split; [repeat constructor; simpl; lia|].
  split; [apply Permutation_refl | simpl; lia].
Qed.

Lemma page0_numbered : numbered EditorScenario.page0 EditorScenario.db0.
Proof.
  intros i q row Hi Hrow Hid.
  destruct i as [|[|[|i]]]; simpl in Hi; try (destruct i; discriminate);
    injection Hi as <-; simpl in Hrow;
    destruct Hrow as [<-|[<-|[<-|[]]]]; simpl in Hid; try discriminate;
    reflexivity.
Qed.

(* ----------------------------------------------------------------- *)
(** *** Adding and removing questions *)

Lemma handleAddQuestion_run (st : t) (db : Db) (gid : uuid) :
  option_map Game.id (game st) = Some gid ->
  owns (user st) db gid = true ->
  Z.of_nat (List.length (questions st)) <= 2147483647 ->
  let row := Question.mk (next_uuid db) gid
               (Z.of_nat (List.length (questions st)))
               "New question — edit me" None [] in
  let choices :=
    [Choice.mk (S (next_uuid db) + 0) (next_uuid db) "Correct answer" true 0;
     Choice.mk (S (next_uuid db) + 1) (next_uuid db) "Wrong answer A" false 1;
     Choice.mk (S (next_uuid db) + 2) (next_uuid db) "Wrong answer B" false 2;
     Choice.mk (S (next_uuid db) + 3) (next_uuid db) "Wrong answer C" false 3] in
  handleAddQuestion st db
  = (setQuestions (questions st ++ [with_choices choices row])%list
       (setError no_error st),
     mkDb (games db)
       (map (add_choices (next_uuid db) choices) (game_questions db ++ [row]))
       (S (next_uuid db) + 4)).
Proof.
  intros Hgame Hown Hlen row choices. unfold handleAddQuestion.
  destruct (game st) as [g|]; [|discriminate]. injection Hgame as Hgid.
  unfold insert_question. rewrite int4_position by assumption.
  rewrite Hgid, Hown. cbn [negb].
  unfold insert_choices. cbn [game_questions games next_uuid Question.id].
  assert (existsb
            (fun q => (Question.id q =? next_uuid db)%nat
                      && owns (user st)
                           (mkDb (games db)
                              (game_questions db
                               ++ [Question.mk (next_uuid db) gid
                                     (Z.of_nat (List.length (questions st)))
                                     "New question — edit me" None []])
                              (S (next_uuid db)))
                           (Question.game_id q))
            (game_questions db
             ++ [Question.mk (next_uuid db) gid
                   (Z.of_nat (List.length (questions st)))
                   "New question — edit me" None []]) = true) as ->.
  { rewrite existsb_app. apply orb_true_iff. right. cbn.
    rewrite Nat.eqb_refl. unfold owns in *. cbn [games]. now rewrite Hown. }
  reflexivity.
Qed.

(** X24. Adding a question keeps the numbering. With page and store
    in step and every question's order equal to its position,
    [handleAddQuestion] appends one question to the page and to the
    store, with the page's length as its order and four choices, the
    first of them correct, in orders 0 to 3; the page shows no error,
    page and store stay in step, orders still equal positions, and a
    reload shows the page's order. *)
Theorem handleAddQuestion_keeps_numbering (st : t) (db : Db) (gid : uuid) :
  in_step st db gid ->
  numbered st db ->
  Z.of_nat (List.length (questions st)) + 1 < 2147483647 ->
  let st' := fst (handleAddQuestion st db) in
  let db' := snd (handleAddQuestion st db) in
  exists newq,
    questions st' = (questions st ++ [newq])%list
    /\ Question.id newq = next_uuid db
    /\ Question.question_order newq = Z.of_nat (List.length (questions st))
    /\ map (fun c => (Choice.choice_text c, Choice.is_correct c,
                      Choice.choice_order c))
         (Question.game_question_choices newq)
       = [("Correct answer", true, 0); ("Wrong answer A", false, 1);
          ("Wrong answer B", false, 2); ("Wrong answer C", false, 3)]
    /\ error st' = no_error
    /\ in_step st' db' gid
    /\ numbered st' db'
    /\ reload_agrees st' db' gid.
Proof.
  intros Hstep Hnum Hroom st' db'.
  pose proof Hstep as (Hgame & Hown & Hnodup & Hbelow & Hperm & Hlen).
  unfold st', db'.
  rewrite (handleAddQuestion_run st db gid Hgame Hown) by lia.
  cbn [fst snd].
  set (row := Question.mk (next_uuid db) gid
                (Z.of_nat (List.length (questions st)))
                "New question — edit me" None []).
  set (choices :=
         [Choice.mk (S (next_uuid db) + 0) (next_uuid db) "Correct answer" true 0;
          Choice.mk (S (next_uuid db) + 1) (next_uuid db) "Wrong answer A" false 1;
          Choice.mk (S (next_uuid db) + 2) (next_uuid db) "Wrong answer B" false 2;
          Choice.mk (S (next_uuid db) + 3) (next_uuid db) "Wrong answer C" false 3]).
  set (newq := with_choices choices row).
  set (f := add_choices (next_uuid db) choices).
  assert (forall r, Question.id (f r) = Question.id r
                    /\ Question.game_id (f r) = Question.game_id r
                    /\ Question.question_order (f r) = Question.question_order r)
    as Hkeys by (intros r; unfold f, add_choices; now destruct (_ =? _)%nat).
  set (st2 := setQuestions (questions st ++ [newq])%list (setError no_error st)).
  set (db2 := mkDb (games db) (map f (game_questions db ++ [row]))
                (S (next_uuid db) + 4)).
  assert (map Question.id (map f (game_questions db ++ [row]))
          = (map Question.id (game_questions db) ++ [next_uuid db])%list)
    as Hids.
  { rewrite map_map, map_app. cbn [map]. rewrite (proj1 (Hkeys row)).
    f_equal. apply map_ext. intros r. apply Hkeys. }
  assert (in_step st2 db2 gid) as Hstep2.
  { unfold in_step, st2, db2.
    cbn [setQuestions setError game user questions game_questions next_uuid].
    split; [assumption|]. split; [exact Hown|]. split.
    { rewrite Hids. apply NoDup_snoc; [assumption|].
      intros Hin. apply in_map_iff in Hin. destruct Hin as (r & Hr & Hin).
      rewrite Forall_forall in Hbelow. specialize (Hbelow r Hin). lia. }
    split.
    { apply Forall_forall. intros r' Hr'. apply in_map_iff in Hr'.
      destruct Hr' as (r & <- & Hr). rewrite (proj1 (Hkeys r)).
      apply in_app_or in Hr. destruct Hr as [Hr|[<-|[]]]; [|simpl; lia].
      rewrite Forall_forall in Hbelow. specialize (Hbelow r Hr). lia. }
    split.
    { assert (forall l,
                 map Question.id
                   (filter (fun q => (Question.game_id q =? gid)%nat) (map f l))
                 = map Question.id
                     (filter (fun q => (Question.game_id q =? gid)%nat) l))
        as Hcomm.
      { induction l as [|r l IH]; [reflexivity|]. cbn [map filter].
        rewrite (proj1 (proj2 (Hkeys r))).
        destruct (Question.game_id r =? gid)%nat; cbn [map];
          [rewrite (proj1 (Hkeys r))|]; now rewrite IH. }
      rewrite Hcomm, filter_app, !map_app. cbn [filter row Question.game_id].
      rewrite Nat.eqb_refl. cbn [map newq with_choices Question.id row].
      now apply Permutation_app_tail. }
    rewrite length_app. simpl. lia. }
  assert (numbered st2 db2) as Hnum2.
  { intros i q r' Hi Hr' Hid. unfold db2 in Hr'. cbn [game_questions] in Hr'.
    apply in_map_iff in Hr'. destruct Hr' as (r & <- & Hr).
    rewrite (proj1 (Hkeys r)) in Hid. rewrite (proj2 (proj2 (Hkeys r))).
    unfold st2 in Hi. cbn [setQuestions questions] in Hi.
    assert (forall x, In x (questions st) ->
                      (Question.id x < next_uuid db)%nat) as Hold.
    { intros x Hx.
      assert (In (Question.id x)
                (map Question.id
                   (filter (fun q => (Question.game_id q =? gid)%nat)
                      (game_questions db)))) as Hin
        by (apply (Permutation_in _ (Permutation_sym Hperm));
            now apply in_map).
      apply in_map_iff in Hin. destruct Hin as (y & <- & Hy).
      apply filter_In in Hy. rewrite Forall_forall in Hbelow.
      apply Hbelow, Hy. }
    destruct (Nat.lt_ge_cases i (List.length (questions st))) as [Hlt|Hge].
    - rewrite nth_error_app1 in Hi by assumption.
      apply in_app_or in Hr. destruct Hr as [Hr|[<-|[]]].
      + now apply (Hnum i q r).
      + exfalso. pose proof (Hold q (nth_error_In _ _ Hi)) as Hq.
        simpl in Hid. lia.
    - rewrite nth_error_app2 in Hi by assumption.
      destruct (i - List.length (questions st))%nat as [|k] eqn:Ek;
        [|destruct k; discriminate].
      injection Hi as <-. cbn [newq with_choices Question.id row] in Hid.
      apply in_app_or in Hr. destruct Hr as [Hr|[<-|[]]].
      + exfalso. rewrite Forall_forall in Hbelow. specialize (Hbelow r Hr).
        lia.
      + simpl. f_equal. lia. }
  exists newq. split; [reflexivity|]. split; [reflexivity|].
  split; [reflexivity|]. split; [reflexivity|]. split; [reflexivity|].
  split; [exact Hstep2|]. split; [exact Hnum2|].
  now apply numbered_reload.
Qed.

(** X25. Removing a question leaves a gap that adding fills twice.
    With page and store in step and every question's order equal to
    its position, [handleRemoveQuestion] on a question that is not
    the last deletes its row and takes it off the page but renumbers
    nothing: orders no longer equal positions. A question added next
    takes the page's length as its order, which is the order the last
    question still has: the store then holds two questions of the
    game with the same [question_order]. *)
Theorem remove_then_add_collides (qIdx : nat) (st : t) (db : Db) (gid : uuid)
    (q last : Question.t) :
  in_step st db gid ->
  numbered st db ->
  nth_error (questions st) qIdx = Some q ->
  (S qIdx < List.length (questions st))%nat ->
  nth_error (questions st) (Nat.pred (List.length (questions st))) = Some last ->
  let st1 := fst (handleRemoveQuestion qIdx st db) in
  let db1 := snd (handleRemoveQuestion qIdx st db) in
  let db2 := snd (handleAddQuestion st1 db1) in
  questions st1 = remove_at qIdx (questions st)
  /\ ~ In (Question.id q) (map Question.id (game_questions db1))
  /\ ~ numbered st1 db1
  /\ exists r_last r_new,
       In r_last (game_questions db2) /\ In r_new (game_questions db2)
       /\ Question.id r_last = Question.id last
       /\ Question.id r_new = next_uuid db
       /\ Question.id r_last <> Question.id r_new
       /\ Question.game_id r_last = gid
       /\ Question.game_id r_new = gid
       /\ Question.question_order r_last
          = Z.of_nat (Nat.pred (List.length (questions st)))
       /\ Question.question_order r_new
          = Z.of_nat (Nat.pred (List.length (questions st))).
Proof.
  intros Hstep Hnum Hq Hnotlast Hlast st1 db1 db2.
  pose proof Hstep as (Hgame & Hown & Hnodup & Hbelow & Hperm & Hlen).
  pose proof (in_step_NoDup st db gid Hstep) as Hpage.
  assert (st1 = setQuestions (remove_at qIdx (questions st))
                  (setError no_error st)
          /\ db1 = delete_question (user st) (Question.id q) db) as [Est1 Edb1]
    by (unfold st1, db1, handleRemoveQuestion; rewrite Hq; now split).
  (* the rows of the store that stand for q and for the last question *)
  assert (forall x, In x (questions st) ->
            exists r, In r (game_questions db)
                      /\ Question.id r = Question.id x
                      /\ Question.game_id r = gid) as Hrow.
  { intros x Hx.
    assert (In (Question.id x)
              (map Question.id
                 (filter (fun y => (Question.game_id y =? gid)%nat)
                    (game_questions db)))) as Hin
      by (apply (Permutation_in _ (Permutation_sym Hperm)); now apply in_map).
    apply in_map_iff in Hin. destruct Hin as (r & Hid & Hr).
    apply filter_In in Hr. destruct Hr as [Hr Hg]. apply Nat.eqb_eq in Hg.
    exists r. repeat split; assumption. }
  assert (Question.id last <> Question.id q) as Hdiff.
  { intros E.
    assert (last = q) as ->
      by (apply (NoDup_map_eq Question.id (questions st));
          try assumption; eapply nth_error_In; eassumption).
    apply NoDup_map_inv in Hpage.
    pose proof (proj1 (NoDup_nth_error (questions st)) Hpage
                  (Nat.pred (List.length (questions st))) qIdx) as Hi.
    assert (Nat.pred (List.length (questions st)) = qIdx)
      by (apply Hi; [lia | congruence]).
    lia. }
  destruct (Hrow last (nth_error_In _ _ Hlast)) as (rl & Hrl & Hrl_id & Hrl_g).
  assert (Question.question_order rl
          = Z.of_nat (Nat.pred (List.length (questions st)))) as Hrl_order
    by (apply (Hnum _ last rl); assumption).
  assert (In rl (game_questions db1)) as Hrl1.
  { rewrite Edb1. unfold delete_question. cbn [game_questions].
    apply filter_In. split; [assumption|].
    assert ((Question.id rl =? Question.id q)%nat = false) as ->
      by (apply Nat.eqb_neq; congruence).
    reflexivity. }
  assert (List.length (remove_at qIdx (questions st))
          = Nat.pred (List.length (questions st))) as Hlen1.
  { unfold remove_at. rewrite length_app, length_firstn, length_skipn. lia. }
  split; [now rewrite Est1|]. split; [|split].
  - rewrite Edb1. unfold delete_question. cbn [game_questions].
    intros Hin. apply in_map_iff in Hin. destruct Hin as (r & Hid & Hr).
    apply filter_In in Hr. destruct Hr as [Hr Hkeep].
    destruct (in_step_row st db gid q r Hstep (nth_error_In _ _ Hq) Hr Hid)
      as [_ Hown_r].
    rewrite Hid, Nat.eqb_refl, Hown_r in Hkeep. discriminate.
  - (* the question after the removed one now stands at qIdx with order qIdx+1 *)
    intros Hnum1.
    destruct (nth_error (questions st) (S qIdx)) as [nxt|] eqn:Enxt;
      [|apply nth_error_None in Enxt; lia].
    destruct (Hrow nxt (nth_error_In _ _ Enxt)) as (rn & Hrn & Hrn_id & _).
    assert (Question.id nxt <> Question.id q) as Hnq.
    { intros E.
      assert (nxt = q) as ->
        by (apply (NoDup_map_eq Question.id (questions st));
            try assumption; eapply nth_error_In; eassumption).
      apply NoDup_map_inv in Hpage.
      pose proof (proj1 (NoDup_nth_error (questions st)) Hpage (S qIdx) qIdx)
        as Hi.
      assert (S qIdx = qIdx) by (apply Hi; [lia | congruence]). lia. }
    assert (In rn (game_questions db1)) as Hrn1.
    { rewrite Edb1. unfold delete_question. cbn [game_questions].
      apply filter_In. split; [assumption|].
      assert ((Question.id rn =? Question.id q)%nat = false) as ->
        by (apply Nat.eqb_neq; congruence).
      reflexivity. }
    assert (nth_error (questions st1) qIdx = Some nxt) as Hpos.
    { rewrite Est1. cbn [setQuestions questions].
      rewrite remove_at_nth_error, Nat.ltb_irrefl. exact Enxt. }
    pose proof (Hnum1 qIdx nxt rn Hpos Hrn1 Hrn_id) as H1.
    pose proof (Hnum (S qIdx) nxt rn Enxt Hrn Hrn_id) as H2. lia.
  - assert (option_map Game.id (game st1) = Some gid) as Hgame1
      by (rewrite Est1; exact Hgame).
    assert (owns (user st1) db1 gid = true) as Hown1
      by (rewrite Est1, Edb1; exact Hown).
    assert (Z.of_nat (List.length (questions st1)) <= 2147483647) as Hroom
      by (rewrite Est1; cbn [setQuestions questions]; rewrite Hlen1; lia).
    unfold db2. rewrite (handleAddQuestion_run st1 db1 gid Hgame1 Hown1 Hroom).
    cbn [snd game_questions].
    assert (next_uuid db1 = next_uuid db) as Hnext by now rewrite Edb1.
    assert (List.length (questions st1)
            = Nat.pred (List.length (questions st))) as Hlen_st1
      by (rewrite Est1; exact Hlen1).
    rewrite Hnext, Hlen_st1.
    set (choices := [_; _; _; _]).
    set (row := Question.mk (next_uuid db) gid _ _ None []).
    assert (Question.id rl <> next_uuid db) as Hfresh.
    { rewrite Forall_forall in Hbelow. specialize (Hbelow rl Hrl). lia. }
    exists (add_choices (next_uuid db) choices rl),
           (add_choices (next_uuid db) choices row).
    assert (add_choices (next_uuid db) choices rl = rl) as ->.
    { unfold add_choices.
      assert ((Question.id rl =? next_uuid db)%nat = false) as ->
        by now apply Nat.eqb_neq.
      reflexivity. }
    split.
    { change rl with ((fun r => r) rl).
      replace rl with (add_choices (next_uuid db) choices rl) at 1.
      - apply in_map, in_or_app. now left.
      - unfold add_choices.
        assert ((Question.id rl =? next_uuid db)%nat = false) as ->
          by now apply Nat.eqb_neq.
        reflexivity. }
    split; [apply in_map, in_or_app; right; now left|].
    unfold add_choices, row. cbn [Question.id]. rewrite Nat.eqb_refl.
    cbn [Question.id Question.game_id Question.question_order].
    repeat split; assumption.
Qed.

End QuestionOrder.

Section EditorExamples.
Import Pg JsArray Authoring GameEditor EditorState.
Local Existing Instance JsString.ascii_methods.

(** Marking the second of two choices. *)
Lemma setCorrectChoice_exactly_one_witness :
  map (fun q => map Choice.is_correct (Question.game_question_choices q))
    (setCorrectChoice 0 1
       [Question.mk 11 1 0 "Q" None
          [Choice.mk 101 11 "a" true 0; Choice.mk 102 11 "b" false 1]])
  = [[false; true]].
Proof.
  destruct (setCorrectChoice_exactly_one
              [Question.mk 11 1 0 "Q" None
                 [Choice.mk 101 11 "a" true 0; Choice.mk 102 11 "b" false 1]]
              0 1 _ eq_refl) as (q' & Hq' & Hflags & _);
    [simpl; lia|].
  reflexivity.
Defined.

(** The second of three choices moves up. *)
Lemma moveChoice_swaps_neighbours_witness :
  option_map
    (map (fun q => map (fun c => (Choice.id c, Choice.choice_order c))
                     (Question.game_question_choices q)))
    (moveChoice 0 1 up
       [Question.mk 11 1 0 "Q" None
          [Choice.mk 101 11 "a" true 0; Choice.mk 102 11 "b" false 1;
           Choice.mk 103 11 "c" false 2]])
  = Some [[(102%nat, 0); (101%nat, 1); (103%nat, 2)]].
Proof.
  destruct (moveChoice_swaps_neighbours
              [Question.mk 11 1 0 "Q" None
                 [Choice.mk 101 11 "a" true 0; Choice.mk 102 11 "b" false 1;
                  Choice.mk 103 11 "c" false 2]]
              0 1 up _ 0 _ _ eq_refl eq_refl eq_refl eq_refl)
    as ((qs' & q' & Hmove & _) & _).
  rewrite Hmove. injection Hmove as <-. reflexivity.
Defined.

(** The first of three questions is dragged to the end. *)
Lemma handleDrop_renumbers_witness :
  exists st' db',
    handleDrop 2 (handleDragStart 0 EditorScenario.page0) EditorScenario.db0
    = Some (st', db')
    /\ map Question.id (questions st') = [12; 13; 11]%nat
    /\ reload_agrees st' db' 1.
Proof.
  destruct (handleDrop_renumbers 2 0 (handleDragStart 0 EditorScenario.page0)
              EditorScenario.db0 1 (EditorScenario.question 11 0)
              page0_in_step eq_refl) as (st' & db' & Hrun & Hqs & _ & _ & _ & _ & Hre);
    [discriminate | reflexivity|].
  exists st', db'. split; [exact Hrun|]. split; [|exact Hre].
  rewrite Hqs. reflexivity.
Defined.

(** The second of three questions moves up. *)
Lemma handleMoveQuestion_keeps_numbering_witness :
  exists st' db',
    handleMoveQuestion 1 up EditorScenario.page0 EditorScenario.db0
    = Some (st', db')
    /\ map Question.id (questions st') = [12; 11; 13]%nat
    /\ numbered st' db'.
Proof.
  destruct (handleMoveQuestion_keeps_numbering 1 up EditorScenario.page0
              EditorScenario.db0 1 0 (EditorScenario.question 11 0)
              (EditorScenario.question 12 1) page0_in_step page0_numbered
              eq_refl eq_refl eq_refl)
    as ((st' & db' & Hrun & Hqs & _ & Hnum & _) & _).
  exists st', db'. split; [exact Hrun|]. split; [|exact Hnum].
  rewrite Hqs. reflexivity.
Defined.

(** A fourth question is added to the game of three. *)
Lemma handleAddQuestion_keeps_numbering_witness :
  map Question.question_order
    (game_questions
       (snd (handleAddQuestion EditorScenario.page0 EditorScenario.db0)))
  = [0; 1; 2; 3].
Proof.
  destruct (handleAddQuestion_keeps_numbering EditorScenario.page0
              EditorScenario.db0 1 page0_in_step page0_numbered)
    as (newq & _); [simpl; lia|].
  reflexivity.
Defined.

(** The first of three questions is removed and a new one added:
    questions 13 and the new one both have order 2. *)
Lemma remove_then_add_collides_witness :
  map Question.question_order
    (game_questions
       (snd (handleAddQuestion
               (fst (handleRemoveQuestion 0 EditorScenario.page0
                       EditorScenario.db0))
               (snd (handleRemoveQuestion 0 EditorScenario.page0
                       EditorScenario.db0)))))
  = [1; 2; 2].
Proof.
  destruct (remove_then_add_collides 0 EditorScenario.page0 EditorScenario.db0
              1 (EditorScenario.question 11 0) (EditorScenario.question 13 2)
              page0_in_step page0_numbered eq_refl)
    as (_ & _ & _ & r_last & r_new & _); [simpl; lia | reflexivity|].
  reflexivity.
Defined.

End EditorExamples.

(* ================================================================= *)
(** * Generated games *)

Section MockGenerator.
Import JsString GenerateQuestions.
Context {M : JsString.Methods}.

Lemma mock_question_shape (topic : string) (i : nat) :
  List.length (choices (mock_question topic i)) = 4%nat
  /\ List.length (filter isCorrect (choices (mock_question topic i))) = 1%nat
  /\ explanation (mock_question topic i)
     = Some ("This is a sample explanation for question "
             ++ of_nat (i + 1) ++ " about " ++ topic ++ ".").
Proof.
  unfold mock_question. cbn [templates List.length].
  assert (i mod 5 < 5)%nat as Hlt by (apply Nat.mod_upper_bound; lia).
  destruct (i mod 5)%nat as [|[|[|[|[|k]]]]]; [| | | | |lia];
    cbn; repeat split; reflexivity.
Qed.

Lemma mock_question_period (topic : string) (i j : nat) :
  (i mod 5 = j mod 5)%nat ->
  prompt (mock_question topic i) = prompt (mock_question topic j)
  /\ choices (mock_question topic i) = choices (mock_question topic j).
Proof.
  intros H. unfold mock_question. cbn [templates List.length].
  rewrite H.
  destruct (nth_error _ (j mod 5)); split; reflexivity.
Qed.

Lemma generateMockQuestions_nth (topic : string) (count i : nat) :
  (i < count)%nat ->
  nth_error (generateMockQuestions topic count) i
  = Some (mock_question topic i).
Proof.
  intros H. unfold generateMockQuestions.
  rewrite nth_error_map, nth_error_seq.
  apply Nat.ltb_lt in H. now rewrite H.
Qed.

Lemma generateMockQuestions_length (topic : string) (count : nat) :
  List.length (generateMockQuestions topic count) = count.
Proof. unfold generateMockQuestions. now rewrite length_map, length_seq. Qed.

(** X27. Without an API key the route answers 400 exactly when the
    topic is empty or the count lies outside 1..20; otherwise it
    returns as many questions as were asked for, each with four
    choices of which exactly one is correct and with an explanation
    that carries the question's number, counted from 1. There are five
    templates only: two questions whose positions differ by a multiple
    of five have the same prompt and the same choices. *)
Theorem POST_mock_questions (topic : string) (count : Z) :
  (POST topic count = status_400
   <-> topic = "" \/ count < 1 \/ 20 < count)
  /\ forall qs,
       POST topic count = status_200 qs ->
       Z.of_nat (List.length qs) = count
       /\ (forall i q,
             nth_error qs i = Some q ->
             List.length (choices q) = 4%nat
             /\ List.length (filter isCorrect (choices q)) = 1%nat
             /\ explanation q
                = Some ("This is a sample explanation for question "
                        ++ of_nat (i + 1) ++ " about " ++ topic ++ "."))
       /\ (forall i q q',
             nth_error qs i = Some q ->
             nth_error qs (i + 5) = Some q' ->
             prompt q = prompt q' /\ choices q = choices q').
Proof.
  unfold POST.
  destruct (String.eqb topic "") eqn:Et;
    [apply String.eqb_eq in Et | apply String.eqb_neq in Et].
  { cbn [orb]. split; [split; [now left | reflexivity] | discriminate]. }
  cbn [orb].
  destruct (count =? 0) eqn:E0;
    [apply Z.eqb_eq in E0 | apply Z.eqb_neq in E0].
  { cbn [orb]. split; [split; [right; lia | reflexivity] | discriminate]. }
  cbn [orb].
  destruct (count <? 1) eqn:E1;
    [apply Z.ltb_lt in E1 | apply Z.ltb_ge in E1].
  { cbn [orb]. split; [split; [right; lia | reflexivity] | discriminate]. }
  cbn [orb].
  destruct (20 <? count) eqn:E2;
    [apply Z.ltb_lt in E2 | apply Z.ltb_ge in E2].
  { split; [split; [right; lia | reflexivity] | discriminate]. }
  split.
  { split; [discriminate|]. intros [H|[H|H]]; [contradiction|lia|lia]. }
  intros qs [= <-].
  rewrite generateMockQuestions_length.
  split; [lia|]. split.
  - intros i q Hq.
    assert (i < Z.to_nat count)%nat as Hi.
    { rewrite <- (generateMockQuestions_length topic (Z.to_nat count)).
      apply nth_error_Some. congruence. }
    rewrite (generateMockQuestions_nth _ _ _ Hi) in Hq.
    injection Hq as <-. apply mock_question_shape.
  - intros i q q' Hq Hq'.
    assert (i + 5 < Z.to_nat count)%nat as Hi.
    { rewrite <- (generateMockQuestions_length topic (Z.to_nat count)).
      apply nth_error_Some. congruence. }
    rewrite generateMockQuestions_nth in Hq by lia.
    rewrite generateMockQuestions_nth in Hq' by lia.
    injection Hq as <-. injection Hq' as <-.
    apply mock_question_period.
    replace (i + 5)%nat with (i + 1 * 5)%nat by lia.
    now rewrite Nat.Div0.mod_add.
Qed.

End MockGenerator.

Section Wizard.
Import JsString JsArray Pg Authoring GenerateQuestions NewGamePage.
Import AuthoringState EditorState.
Context {M : JsString.Methods}.

Lemma choice_specs_length (q : GeneratedQuestion) :
  List.length (choice_specs q) = List.length (choices q).
Proof. unfold choice_specs. apply mapi_length. Qed.

Lemma mapi_from_forallb {A B : Type} (f : A -> nat -> B) (p : B -> bool)
    (l : list A) :
  forall i,
    (forall x j, p (f x j) = true) ->
    forallb p (mapi_from i f l) = true.
Proof.
  induction l as [|x l IH]; intros i H; simpl; [reflexivity|].
  now rewrite H, IH.
Qed.

Lemma choice_specs_int4 (q : GeneratedQuestion) :
  Z.of_nat (List.length (choices q)) <= 2147483647 ->
  forallb (fun s => int4 (spec_order s)) (choice_specs q) = true.
Proof.
  intros H. apply forallb_forall. intros s Hs.
  apply In_nth_error in Hs. destruct Hs as [j Hj].
  unfold choice_specs in Hj. rewrite mapi_nth_error in Hj.
  destruct (nth_error (choices q) j) as [c|] eqn:Ec; [|discriminate].
  injection Hj as <-. cbn [spec_order].
  apply int4_position.
  assert (j < List.length (choices q))%nat
    by (apply nth_error_Some; congruence).
  lia.
Qed.

Lemma add_choices_other (qid : uuid) (rows : list Choice.t)
    (l : list Question.t) :
  Forall (fun q => (Question.id q < qid)%nat) l ->
  map (add_choices qid rows) l = l.
Proof.
  induction 1 as [|q l Hq _ IH]; simpl; [reflexivity|].
  rewrite IH. unfold add_choices.
  destruct (Question.id q =? qid)%nat eqn:E; [|reflexivity].
  apply Nat.eqb_eq in E. lia.
Qed.

(** One run of the loop of [handleSave] on a store that lets every
    statement pass. *)
Lemma save_questions_run (auth : option uuid) (gid : uuid)
    (qs : list GeneratedQuestion) :
  forall i db,
    owns auth db gid = true ->
    Forall (fun q => (Question.id q < next_uuid db)%nat) (game_questions db) ->
    Z.of_nat (i + List.length qs) <= 2147483647 ->
    Forall (fun q => Z.of_nat (List.length (choices q)) <= 2147483647) qs ->
    exists next',
      (next_uuid db <= next')%nat
      /\ save_questions auth gid i qs db
         = (None,
            mkDb (games db)
              (game_questions db ++ saved_rows gid i (next_uuid db) qs)%list
              next')
      /\ Forall (fun q => (Question.id q < next')%nat)
           (saved_rows gid i (next_uuid db) qs).
Proof.
  induction qs as [|q rest IH]; intros i db Hown Hkeys Hlen Hch.
  - exists (next_uuid db). simpl. rewrite app_nil_r.
    destruct db; repeat split; auto.
  - inversion Hch as [|? ? Hq Hrest]; subst.
    cbn [save_questions saved_rows].
    unfold insert_question.
    rewrite int4_position by (cbn [List.length] in Hlen; lia).
    rewrite Hown. cbn [negb].
    set (row := Question.mk (next_uuid db) gid (Z.of_nat i) (prompt q)
                  (or_null (explanation q)) []).
    set (db1 := mkDb (games db) (game_questions db ++ [row])%list
                  (S (next_uuid db))).
    cbn [Question.id].
    unfold insert_choices.
    rewrite (choice_specs_int4 q Hq). cbn [negb].
    assert (existsb (fun q0 => (Question.id q0 =? Question.id row)%nat
                               && owns auth db1 (Question.game_id q0))
              (game_questions db1) = true) as Hex.
    { apply existsb_exists. exists row. split.
      - unfold db1. cbn [game_questions]. apply in_or_app. right. now left.
      - rewrite Nat.eqb_refl. cbn [andb Question.game_id row].
        now rewrite (owns_games auth db db1 gid eq_refl). }
    rewrite Hex. cbn [negb].
    change (Question.id row) with (next_uuid db).
    set (crows := mapi (fun s j => Choice.mk (next_uuid db1 + j)%nat
                                     (next_uuid db) (spec_text s)
                                     (spec_is_correct s) (spec_order s))
                    (choice_specs q)).
    set (db2 := mkDb (games db1)
                  (map (add_choices (next_uuid db) crows) (game_questions db1))
                  (next_uuid db1 + List.length (choice_specs q))%nat).
    assert (game_questions db2
            = (game_questions db
               ++ [Question.mk (next_uuid db) gid (Z.of_nat i) (prompt q)
                     (or_null (explanation q)) crows])%list) as Hrows.
    { unfold db2, db1. cbn [game_questions].
      rewrite map_app, (add_choices_other _ _ _ Hkeys).
      cbn [map]. unfold add_choices, row. cbn [Question.id].
      now rewrite Nat.eqb_refl. }
    assert (next_uuid db2 = (S (next_uuid db) + List.length (choices q))%nat)
      as Hnext
      by (unfold db2, db1; cbn [next_uuid]; now rewrite choice_specs_length).
    destruct (IH (S i) db2) as (next' & Hle & Hrun & Hnew).
    + now rewrite (owns_games auth db db2 gid eq_refl).
    + rewrite Hrows, Hnext. apply Forall_app. split.
      * eapply Forall_impl; [|exact Hkeys]. cbn. intros; lia.
      * constructor; [cbn; lia | constructor].
    + cbn [List.length] in Hlen. lia.
    + exact Hrest.
    + exists next'. split; [lia|]. split.
      * rewrite Hrun, Hrows, Hnext. unfold db2, db1. cbn [games].
        rewrite <- app_assoc. reflexivity.
      * rewrite Hnext in Hnew. constructor; [cbn [Question.id]; lia|].
        exact Hnew.
Qed.

Lemma saved_rows_length (gid : uuid) (qs : list GeneratedQuestion) :
  forall i next, List.length (saved_rows gid i next qs) = List.length qs.
Proof.
  induction qs as [|q rest IH]; intros i next; simpl; [reflexivity|].
  now rewrite IH.
Qed.

Lemma saved_rows_game (gid : uuid) (qs : list GeneratedQuestion) :
  forall i next,
    Forall (fun r => Question.game_id r = gid) (saved_rows gid i next qs).
Proof.
  induction qs as [|q rest IH]; intros i next; simpl; constructor;
    [reflexivity | apply IH].
Qed.

Lemma saved_rows_keys (gid : uuid) (qs : list GeneratedQuestion) :
  forall i next,
    Forall (fun r => (next <= Question.id r)%nat) (saved_rows gid i next qs)
    /\ NoDup (map Question.id (saved_rows gid i next qs)).
Proof.
  induction qs as [|q rest IH]; intros i next; simpl.
  - split; constructor.
  - destruct (IH (S i) (S next + List.length (choices q))%nat) as [Hge Hnd].
    split.
    + constructor; [cbn; lia|].
      eapply Forall_impl; [|exact Hge]. cbn. intros; lia.
    + constructor; [|exact Hnd].
      intros Hin. apply in_map_iff in Hin. destruct Hin as (r & Hr & Hin).
      rewrite Forall_forall in Hge. specialize (Hge r Hin). cbn in Hge. lia.
Qed.

(** Row [k] of the loop's rows is question [k] of the wizard, with
    the order [i + k] and the question's choices numbered from 0. *)
Lemma saved_rows_nth (gid : uuid) (qs : list GeneratedQuestion) :
  forall i next k r,
    nth_error (saved_rows gid i next qs) k = Some r ->
    exists q,
      nth_error qs k = Some q
      /\ Question.question_order r = Z.of_nat (i + k)
      /\ Question.prompt r = prompt q
      /\ Question.explanation r = or_null (explanation q)
      /\ map (fun c => (Choice.choice_text c, Choice.is_correct c,
                        Choice.choice_order c))
           (Question.game_question_choices r)
         = mapi (fun c j => (text c, isCorrect c, Z.of_nat j)) (choices q)
      /\ Forall (fun c => Choice.question_id c = Question.id r)
           (Question.game_question_choices r).
Proof.
  induction qs as [|q rest IH]; intros i next k r Hk.
  - destruct k; discriminate.
  - destruct k as [|k].
    + injection Hk as <-. exists q. cbn.
      repeat split; try (f_equal; lia).
      * unfold choice_specs, mapi.
        generalize 0%nat at 1 2 3 as b.
        induction (choices q) as [|c l IHl]; intros b; simpl;
          [reflexivity|]. f_equal. apply IHl.
      * unfold mapi. generalize 0%nat as b.
        induction (choice_specs q) as [|c l IHl]; intros b; simpl;
          constructor; [reflexivity | apply IHl].
    + simpl in Hk. apply IH in Hk.
      destruct Hk as (q' & Hq' & Ho & Hrest).
      exists q'. split; [exact Hq'|]. split; [|exact Hrest].
      rewrite Ho. f_equal. lia.
Qed.

(** A list of choices in ascending order is left as it is by the
    sort. *)
Lemma sort_choices_ascending (l : list Choice.t) :
  StronglySorted
    (fun a b => Choice.choice_order a < Choice.choice_order b) l ->
  sort_choices l = l.
Proof.
  induction 1 as [|c l Hl IH Hc]; simpl; [reflexivity|].
  rewrite IH. destruct l as [|d l']; simpl; [reflexivity|].
  inversion Hc as [|? ? Hd _]; subst.
  destruct (Choice.choice_order d <? Choice.choice_order c) eqn:E;
    [apply Z.ltb_lt in E; lia | reflexivity].
Qed.

Lemma choices_ascending (l : list Choice.t) :
  forall base,
    (forall k c, nth_error l k = Some c ->
                 Choice.choice_order c = Z.of_nat (base + k)) ->
    StronglySorted
      (fun a b => Choice.choice_order a < Choice.choice_order b) l.
Proof.
  induction l as [|a l IH]; intros base H; [constructor|].
  constructor.
  - apply (IH (S base)). intros k r Hk.
    rewrite (H (S k) r Hk). f_equal. lia.
  - apply Forall_forall. intros x Hx.
    apply In_nth_error in Hx. destruct Hx as [k Hk].
    rewrite (H 0%nat a eq_refl), (H (S k) x Hk). lia.
Qed.

Lemma saved_rows_sorted_choices (gid : uuid) (qs : list GeneratedQuestion) :
  forall i next,
    Forall (fun r => sort_choices (Question.game_question_choices r)
                     = Question.game_question_choices r)
      (saved_rows gid i next qs).
Proof.
  intros i next. apply Forall_forall. intros r Hr.
  apply In_nth_error in Hr. destruct Hr as [k Hk].
  destruct (saved_rows_nth _ _ _ _ _ _ Hk) as (q & _ & _ & _ & _ & Hc & _).
  apply sort_choices_ascending, (choices_ascending _ 0).
  intros j c Hj. simpl.
  assert (nth_error
            (map (fun c => (Choice.choice_text c, Choice.is_correct c,
                            Choice.choice_order c))
               (Question.game_question_choices r)) j
          = Some (Choice.choice_text c, Choice.is_correct c,
                  Choice.choice_order c)) as Hm
    by (rewrite nth_error_map, Hj; reflexivity).
  rewrite Hc, mapi_nth_error in Hm.
  destruct (nth_error (choices q) j); [|discriminate].
  now injection Hm.
Qed.

Lemma with_choices_same (l : list Question.t) :
  Forall (fun r => sort_choices (Question.game_question_choices r)
                   = Question.game_question_choices r) l ->
  map (fun q => with_choices (sort_choices (Question.game_question_choices q)) q)
    l = l.
Proof.
  induction 1 as [|r l Hr _ IH]; simpl; [reflexivity|].
  rewrite IH, Hr. now destruct r.
Qed.

Lemma filter_none {A : Type} (p : A -> bool) (l : list A) :
  Forall (fun x => p x = false) l -> filter p l = [].
Proof.
  induction 1 as [|x l Hx _ IH]; simpl; [reflexivity|]. now rewrite Hx.
Qed.

Lemma filter_all {A : Type} (p : A -> bool) (l : list A) :
  Forall (fun x => p x = true) l -> filter p l = l.
Proof.
  induction 1 as [|x l Hx _ IH]; simpl; [reflexivity|].
  now rewrite Hx, IH.
Qed.

Lemma find_appended (gs : list Game.t) (g : Game.t) :
  Forall (fun x => (Game.id x < Game.id g)%nat) gs ->
  find (fun x => (Game.id x =? Game.id g)%nat) (gs ++ [g]) = Some g.
Proof.
  induction 1 as [|x l Hx _ IH]; simpl.
  - now rewrite Nat.eqb_refl.
  - destruct (Game.id x =? Game.id g)%nat eqn:E; [|exact IH].
    apply Nat.eqb_eq in E. lia.
Qed.

(** X28. A save from the wizard, by a signed-in host with a title and
    at least one question, on a store whose keys come from its
    generator, makes one game and pushes the browser to it; it adds
    one question row per question of the wizard, all of the new game,
    and touches no other row. The editor that opens shows the
    wizard's questions in the wizard's order, with their prompts and
    explanations (an empty explanation is stored as null) and their
    choices in the wizard's order, numbered from 0; that editor and
    the store are in step, and every question_order is the question's
    position. *)
Theorem handleSave_opens_numbered_editor (user : uuid) (st : t) (db : Db) :
  well_keyed db ->
  trim (title st) <> "" ->
  questions st <> [] ->
  int4 (timerSeconds st) = true ->
  Z.of_nat (List.length (questions st)) < 2147483647 ->
  Forall (fun q => Z.of_nat (List.length (choices q)) <= 2147483647)
    (questions st) ->
  exists db' new,
    handleSave (Some user) st db = (pushed (next_uuid db), db')
    /\ games db'
       = (games db
          ++ [Game.mk (next_uuid db) user (timerSeconds st) (speedBonus st)])%list
    /\ game_questions db' = (game_questions db ++ new)%list
    /\ Forall (fun r => Question.game_id r = next_uuid db) new
    /\ GameEditor.questions (editor (Some user) (next_uuid db) db') = new
    /\ map (fun r => (Question.prompt r, Question.explanation r,
                      map (fun c => (Choice.choice_text c, Choice.is_correct c,
                                     Choice.choice_order c))
                        (Question.game_question_choices r))) new
       = map (fun q => (prompt q, or_null (explanation q),
                        mapi (fun c j => (text c, isCorrect c, Z.of_nat j))
                          (choices q))) (questions st)
    /\ in_step (editor (Some user) (next_uuid db) db') db' (next_uuid db)
    /\ numbered (editor (Some user) (next_uuid db) db') db'.
Proof.
  intros (Hnd & Hkeys & Hfk & Hgames) Htitle Hqs Htimer Hlen Hch.
  set (gid := next_uuid db).
  set (g := Game.mk gid user (timerSeconds st) (speedBonus st)).
  set (db1 := mkDb (games db ++ [g])%list (game_questions db) (S gid)).
  assert (owns (Some user) db1 gid = true) as Hown.
  { unfold owns, db1. cbn [games]. rewrite existsb_app. cbn.
    now rewrite !Nat.eqb_refl, orb_true_r. }
  destruct (save_questions_run (Some user) gid (questions st) 0 db1)
    as (next' & Hle & Hrun & Hnew); try assumption.
  { unfold db1. cbn [game_questions next_uuid].
    eapply Forall_impl; [|exact Hkeys]. cbn. unfold gid. intros; lia. }
  { cbn. lia. }
  cbn [next_uuid db1 games game_questions] in Hle, Hrun, Hnew.
  set (new := saved_rows gid 0 (S gid) (questions st)) in *.
  set (db' := mkDb (games db ++ [g])%list (game_questions db ++ new)%list
                next') in *.
  assert (handleSave (Some user) st db = (pushed gid, db')) as Hsave.
  { unfold handleSave.
    destruct (String.eqb (trim (title st)) "") eqn:Et;
      [apply String.eqb_eq in Et; contradiction|].
    destruct (questions st) as [|q0 rest] eqn:Eqs; [contradiction|].
    unfold insert_game. rewrite Htimer, Nat.eqb_refl. cbn [negb].
    fold gid. fold g. fold db1. cbn [Game.id g].
    rewrite Hrun. reflexivity. }
  assert (owns (Some user) db' gid = true) as Hown'
    by now rewrite (owns_games (Some user) db1 db' gid eq_refl).
  assert (filter (fun q => (Question.game_id q =? gid)%nat)
            (game_questions db') = new) as Hfilter.
  { unfold db'. cbn [game_questions]. rewrite filter_app.
    rewrite filter_none, filter_all; [reflexivity| |].
    - eapply Forall_impl; [|apply saved_rows_game].
      cbn. intros r ->. apply Nat.eqb_refl.
    - eapply Forall_impl; [|exact Hfk]. cbn. intros r Hr.
      apply Nat.eqb_neq. unfold gid. lia. }
  assert (forall k r, nth_error new k = Some r ->
                      Question.question_order r = Z.of_nat (0 + k)) as Hpos.
  { intros k r Hk.
    destruct (saved_rows_nth _ _ _ _ _ _ Hk) as (q & _ & Ho & _).
    exact Ho. }
  assert (find (fun g0 => (Game.id g0 =? gid)%nat) (games db') = Some g)
    as Hfind
    by (unfold db'; cbn [games]; apply (find_appended (games db) g);
        exact Hgames).
  assert (GameEditor.questions (editor (Some user) gid db') = new) as Hpage.
  { unfold editor, GameEditor.loadGame. rewrite Hfind.
    cbn [GameEditor.user]. rewrite Hown'. cbn [GameEditor.questions].
    unfold select_questions.
    rewrite (owned_rows _ _ _ Hown'), Hfilter.
    assert (order_by_question_order new = new) as ->.
    { apply ascending_unique;
        [apply order_by_perm | apply order_by_sorted |].
      now apply (positions_ascending new 0). }
    apply with_choices_same, saved_rows_sorted_choices. }
  destruct (saved_rows_keys gid (questions st) 0 (S gid)) as [Hge Hndnew].
  fold new in Hge, Hndnew.
  exists db', new.
  split; [exact Hsave|]. split; [reflexivity|]. split; [reflexivity|].
  split; [apply saved_rows_game|]. split; [exact Hpage|]. split.
  { apply nth_error_ext. intros k.
    rewrite !nth_error_map.
    destruct (nth_error new k) as [r|] eqn:Er.
    - destruct (saved_rows_nth _ _ _ _ _ _ Er)
        as (q & Hq & _ & Hp & He & Hc & _).
      rewrite Hq. cbn [option_map]. now rewrite Hp, He, Hc.
    - apply nth_error_None in Er. unfold new in Er.
      rewrite saved_rows_length in Er.
      apply nth_error_None in Er. now rewrite Er. }
  split.
  - unfold in_step. rewrite Hpage.
    split.
    { unfold editor, GameEditor.loadGame. rewrite Hfind.
      cbn [GameEditor.user]. rewrite Hown'. reflexivity. }
    split.
    { unfold editor, GameEditor.loadGame. rewrite Hfind.
      cbn [GameEditor.user]. rewrite Hown'. exact Hown'. }
    split.
    { unfold db'. cbn [game_questions]. rewrite map_app.
      apply NoDup_app; [exact Hnd | exact Hndnew |].
      intros x Hx Hx'.
      apply in_map_iff in Hx. destruct Hx as (r & <- & Hr).
      apply in_map_iff in Hx'. destruct Hx' as (r' & Heq & Hr').
      rewrite Forall_forall in Hkeys, Hge.
      specialize (Hkeys r Hr). specialize (Hge r' Hr').
      cbn in Hkeys, Hge. unfold gid in Hge. lia. }
    split.
    { unfold db'. cbn [game_questions next_uuid]. apply Forall_app. split.
      - eapply Forall_impl; [|exact Hkeys]. cbn. unfold gid in Hle.
        intros; lia.
      - exact Hnew. }
    split.
    { rewrite Hfilter. apply Permutation_refl. }
    unfold new. rewrite saved_rows_length. exact Hlen.
  - unfold numbered. rewrite Hpage. intros i q row Hi Hin Hid.
    assert (row = q) as ->.
    { unfold db' in Hin. cbn [game_questions] in Hin.
      apply in_app_or in Hin. destruct Hin as [Hin|Hin].
      - exfalso. rewrite Forall_forall in Hkeys, Hge.
        specialize (Hkeys row Hin). apply nth_error_In in Hi.
        specialize (Hge q Hi). cbn in Hkeys, Hge. unfold gid in Hge. lia.
      - apply nth_error_In in Hi.
        apply (NoDup_map_eq Question.id new); assumption. }
    apply (Hpos i q Hi).
Qed.

End Wizard.

(* ================================================================= *)
(** * The big screen's results *)

Section Distribution.
Import ScreenResults.
Context {M : JsString.Methods}.

Lemma maxCount_bounds (counts : list nat) :
  (1 <= fold_right Nat.max 1 counts)%nat
  /\ Forall (fun c => (c <= fold_right Nat.max 1 counts)%nat) counts.
Proof.
  induction counts as [|c l [IH1 IH2]]; simpl; [split; [lia|constructor]|].
  split; [lia|]. constructor; [lia|].
  eapply Forall_impl; [|exact IH2]. cbn. intros; lia.
Qed.

Lemma picks_of_answer (choices : list GameQuestionChoice.t) (cid : uuid) :
  NoDup (map GameQuestionChoice.id choices) ->
  list_sum (map (fun c => if (cid =? GameQuestionChoice.id c)%nat
                          then 1%nat else 0%nat) choices)
  = if existsb (fun c => (GameQuestionChoice.id c =? cid)%nat) choices
    then 1%nat else 0%nat.
Proof.
  induction choices as [|c l IH]; simpl; intros Hnd; [reflexivity|].
  inversion Hnd as [|? ? Hc Hl]; subst. rewrite (IH Hl).
  rewrite (Nat.eqb_sym cid).
  destruct (GameQuestionChoice.id c =? cid)%nat eqn:E; [|reflexivity].
  apply Nat.eqb_eq in E. cbn [orb].
  destruct (existsb _ l) eqn:Ex; [|reflexivity].
  exfalso. apply existsb_exists in Ex. destruct Ex as (d & Hd & Ed).
  apply Nat.eqb_eq in Ed. apply Hc. rewrite E, <- Ed. now apply in_map.
Qed.

(** X29. On the results view of the big screen, with the question's
    choices under distinct ids, the counts over the bars add up to the
    number of answers the page holds for one of these choices, so to
    at most the number of answers it holds, and to exactly that number
    when every answer is for a choice of the question; maxCount is at
    least 1 and no count exceeds it, so the height ratio never divides
    by zero and never exceeds 1. *)
Theorem distribution_counts (choices : list GameQuestionChoice.t)
    (answers : list SessionAnswer.t) :
  NoDup (map GameQuestionChoice.id choices) ->
  list_sum (map snd (distribution choices answers))
  = List.length
      (filter (fun a =>
                 existsb (fun c => (GameQuestionChoice.id c
                                    =? SessionAnswer.choice_id a)%nat) choices)
         answers)
  /\ (list_sum (map snd (distribution choices answers))
      <= List.length answers)%nat
  /\ (1 <= maxCount (distribution choices answers))%nat
  /\ forall d,
       In d (distribution choices answers) ->
       (snd d <= maxCount (distribution choices answers))%nat.
Proof.
  intros Hnd.
  assert (list_sum (map snd (distribution choices answers))
          = List.length
              (filter (fun a =>
                         existsb (fun c => (GameQuestionChoice.id c
                                            =? SessionAnswer.choice_id a)%nat)
                           choices) answers)) as Hsum.
  { unfold distribution. rewrite map_map. cbn [snd].
    induction answers as [|a l IH].
    - simpl. clear. induction choices; simpl; auto.
    - assert (list_sum
                (map (fun c =>
                        List.length
                          (filter (fun a0 => (SessionAnswer.choice_id a0
                                              =? GameQuestionChoice.id c)%nat)
                             (a :: l))) choices)
              = (list_sum
                   (map (fun c => if (SessionAnswer.choice_id a
                                      =? GameQuestionChoice.id c)%nat
                                  then 1%nat else 0%nat) choices)
                 + list_sum
                     (map (fun c =>
                             List.length
                               (filter (fun a0 => (SessionAnswer.choice_id a0
                                                   =? GameQuestionChoice.id c)%nat)
                                  l)) choices))%nat) as Hcons.
      { clear. unfold list_sum.
        induction choices as [|c cs IHc]; [reflexivity|].
        cbn [map fold_right]. rewrite IHc. cbn [filter].
        destruct (SessionAnswer.choice_id a =? GameQuestionChoice.id c)%nat;
          cbn [List.length]; lia. }
      rewrite Hcons, IH, (picks_of_answer _ _ Hnd). cbn [filter].
      destruct (existsb _ choices); reflexivity. }
  split; [exact Hsum|]. split; [rewrite Hsum; apply filter_length_le|].
  unfold maxCount.
  destruct (maxCount_bounds (map snd (distribution choices answers)))
    as [H1 H2].
  split; [exact H1|].
  intros d Hd. rewrite Forall_forall in H2. apply H2. now apply in_map.
Qed.

End Distribution.

Section WizardExamples.
Import JsString JsArray Pg Authoring GenerateQuestions NewGamePage AuthoringState EditorState ScreenResults.
Local Existing Instance JsString.ascii_methods.

(** The host of the scenario generates seven questions on volcanoes
    and saves them to an empty store. *)
Lemma handleSave_opens_numbered_editor_witness :
  exists db' new,
    handleSave (Some 7%nat) WizardScenario.generated (mkDb [] [] 1)
    = (pushed 1%nat, db')
    /\ games db' = [Game.mk 1 7 20 true]
    /\ game_questions db' = new
    /\ List.length new = 7%nat
    /\ in_step (editor (Some 7%nat) 1 db') db' 1
    /\ numbered (editor (Some 7%nat) 1 db') db'.
Proof.
  assert (List.length (questions WizardScenario.generated) = 7%nat) as Hlen
    by (vm_compute; reflexivity).
  destruct (handleSave_opens_numbered_editor 7 WizardScenario.generated
              (mkDb [] [] 1))
    as (db' & new & Hsave & Hg & Hq & Hall & Hpage & Hshape & Hstep & Hnum).
  - repeat split; constructor.
  - vm_compute. discriminate.
  - intros H. rewrite H in Hlen. discriminate.
  - reflexivity.
  - rewrite Hlen. lia.
  - apply Forall_forall. intros q Hq.
    apply In_nth_error in Hq. destruct Hq as [k Hk].
    assert (k < 7)%nat as Hlt
      by (rewrite <- Hlen; apply nth_error_Some; congruence).
    assert (List.length (choices q) = 4%nat) as ->; [|lia].
    do 7 (destruct k as [|k];
          [vm_compute in Hk; injection Hk as <-; reflexivity|]).
    lia.
  - exists db', new. cbn [next_uuid] in *.
    split; [exact Hsave|]. split; [exact Hg|]. split; [exact Hq|].
    split; [|split; assumption].
    apply (f_equal (@List.length _)) in Hshape.
    rewrite !length_map in Hshape. now rewrite Hshape.
Defined.

(** Three answers on a question of two choices, one of them for a
    choice of another question. *)
Lemma distribution_counts_witness :
  let choices := [GameQuestionChoice.mk 41 40 true 0;
                  GameQuestionChoice.mk 42 40 false 1] in
  let answers := [SessionAnswer.mk 1 5 11 40 41 0 true 0 100;
                  SessionAnswer.mk 2 5 12 40 42 0 false 0 0;
                  SessionAnswer.mk 3 5 13 40 99 0 false 0 0] in
  list_sum (map snd (distribution choices answers)) = 2%nat
  /\ (1 <= maxCount (distribution choices answers))%nat.
Proof.
  intros choices answers.
  destruct (distribution_counts choices answers) as (Hsum & _ & Hmax & _).
  - repeat constructor; simpl; intuition discriminate.
  - split; [rewrite Hsum; reflexivity | exact Hmax].
Defined.

End WizardExamples.
